(** * Reparse-point resolution and access enforcement of the Detours sandbox

    A shallow embedding of the reparse-point machinery of
    [Source/Sandbox/Windows/DetoursServices]: the access-check algebra of
    [FileAccessHelpers.h], the reparse target reader, the relative target
    resolver, the chain walker and the access enforcer of
    [DetouredFunctions.cpp], with the helpers of [DetoursHelpers.cpp] and
    [PolicyResult_common.cpp] they call.

    Conventions.
    - [DWORD] and [size_t] values are integers in [Z]; arithmetic that can
      wrap in the source is written with its modulus.
    - A [std::wstring] is a [string]; indices are [size_t] values.
    - Stateful code threads a [World] (thread last-error, path cache, log of
      operating-system calls and reports) explicitly.
    - Loops whose termination depends on the file system take a [fuel]
      argument and answer [None] when it runs out. *)

From Stdlib Require Import ZArith Bool List Ascii String Lia.
From stdpp Require Import base option list strings gmap.
Import ListNotations.

Local Open Scope string_scope.
Local Open Scope Z_scope.

(* ===================================================================== *)
(** ** Machine integers and Windows constants *)
(* ===================================================================== *)

Definition DWORD := Z.
Definition size_t := Z.
Definition HANDLE := Z.
Definition NTSTATUS := Z.

Definition DWORD_modulus : Z := 2 ^ 32.
Definition size_t_modulus : Z := 2 ^ 64.

(** [std::string::npos], the largest [size_t]. *)
Definition npos : size_t := size_t_modulus - 1.

(** Subtraction on [size_t]: wraps around below zero. *)
Definition size_sub (a b : size_t) : size_t := (a - b) mod size_t_modulus.

(** Multiplication on [DWORD]: wraps around at 32 bits. *)
Definition dword_mul (a b : DWORD) : DWORD := (a * b) mod DWORD_modulus.

Definition INVALID_HANDLE_VALUE : HANDLE := -1.
Definition INVALID_FILE_ATTRIBUTES : DWORD := 0xFFFFFFFF.

Definition FILE_ATTRIBUTE_DIRECTORY : DWORD := 0x10.
Definition FILE_ATTRIBUTE_NORMAL : DWORD := 0x80.
Definition FILE_ATTRIBUTE_REPARSE_POINT : DWORD := 0x400.

Definition GENERIC_READ : DWORD := 0x80000000.
Definition GENERIC_WRITE : DWORD := 0x40000000.
Definition GENERIC_ALL : DWORD := 0x10000000.
Definition DELETE : DWORD := 0x00010000.
Definition FILE_READ_DATA : DWORD := 0x1.
Definition FILE_WRITE_DATA : DWORD := 0x2.
Definition FILE_APPEND_DATA : DWORD := 0x4.
Definition FILE_READ_EA : DWORD := 0x8.
Definition FILE_WRITE_EA : DWORD := 0x10.
Definition FILE_READ_ATTRIBUTES : DWORD := 0x80.
Definition FILE_WRITE_ATTRIBUTES : DWORD := 0x100.

Definition FILE_SHARE_READ : DWORD := 0x1.
Definition FILE_SHARE_WRITE : DWORD := 0x2.
Definition FILE_SHARE_DELETE : DWORD := 0x4.
Definition OPEN_EXISTING : DWORD := 3.
Definition FILE_FLAG_OPEN_REPARSE_POINT : DWORD := 0x00200000.
Definition FILE_FLAG_BACKUP_SEMANTICS : DWORD := 0x02000000.

Definition IO_REPARSE_TAG_MOUNT_POINT : DWORD := 0xA0000003.
Definition IO_REPARSE_TAG_SYMLINK : DWORD := 0xA000000C.

Definition ERROR_SUCCESS : DWORD := 0.
Definition ERROR_PATH_NOT_FOUND : DWORD := 3.
Definition ERROR_ACCESS_DENIED : DWORD := 5.
Definition ERROR_INSUFFICIENT_BUFFER : DWORD := 122.
Definition ERROR_INVALID_NAME : DWORD := 123.
Definition ERROR_MORE_DATA : DWORD := 234.

Definition INITIAL_REPARSE_DATA_BUILDXL_DETOURS_BUFFER_SIZE_FOR_FILE_NAMES : DWORD := 1024.

(* ===================================================================== *)
(** ** Wide strings *)
(* ===================================================================== *)

Module WString.

Definition backslash : ascii := "\"%char.
Definition slash : ascii := "/"%char.
Definition dot : ascii := "."%char.
Definition nul : ascii := "000"%char.

(** [s.length()] *)
Definition length (s : string) : size_t := Z.of_nat (String.length s).

(** [s[i]]: the character at index [i]; reading at [s.length()] gives the
    terminating null, which is also what the model answers for any other
    index outside the string. *)
Definition at_ (s : string) (i : size_t) : ascii :=
  if (0 <=? i) && (i <? length s)
  then match String.get (Z.to_nat i) s with Some c => c | None => nul end
  else nul.

(** [s.substr(pos, n)], with [n] clamped to what is left of the string. *)
Definition substr (s : string) (pos n : size_t) : string :=
  let avail := Z.max 0 (length s - pos) in
  String.substring (Z.to_nat pos) (Z.to_nat (Z.min n avail)) s.

(** [s.substr(pos)] *)
Definition substr_from (s : string) (pos : size_t) : string :=
  substr s pos (length s).

(** [s.push_back(c)] *)
Definition push_back (s : string) (c : ascii) : string :=
  String.append s (String c EmptyString).

(** [s.pop_back()] *)
Definition pop_back (s : string) : string :=
  substr s 0 (length s - 1).

(** Scan for the last index [i <= limit] holding [c]; [idx] is the index
    of the head of [s], [found] the best match so far. *)
Fixpoint find_last_of_from (s : string) (c : ascii) (limit idx found : size_t) : size_t :=
  match s with
  | EmptyString => found
  | String d rest =>
      find_last_of_from rest c limit (idx + 1)
        (if (idx <=? limit) && Ascii.eqb d c then idx else found)
  end.

(** [s.find_last_of(c, pos)]: the last index not after [pos] that holds
    [c], or [npos]. *)
Definition find_last_of (s : string) (c : ascii) (pos : size_t) : size_t :=
  find_last_of_from s c pos 0 npos.

(** [towlower] on the characters the model has. *)
Definition towlower (c : ascii) : ascii :=
  let n := N_of_ascii c in
  if ((65 <=? n) && (n <=? 90))%N then ascii_of_N (n + 32) else c.

Fixpoint to_lower (s : string) : string :=
  match s with
  | EmptyString => EmptyString
  | String c rest => String (towlower c) (to_lower rest)
  end.

End WString.

(** Modelled from the spec: the directory-separator test of the
    canonicalization utility, whose header is not among the sources; a
    backslash or a forward slash, the two separators the sources split
    paths on. *)
Definition IsDirectorySeparator (c : ascii) : bool :=
  Ascii.eqb c WString.backslash || Ascii.eqb c WString.slash.

(* ===================================================================== *)
(** ** Access checks ([FileAccessHelpers.h]) *)
(* ===================================================================== *)

Inductive FileExistence := Existent | Nonexistent | InvalidPath.

Record FileReadContext := {
  Existence : FileExistence;
  OpenedDirectory : bool;
}.

Inductive ReportLevel := Ignore | Report | ReportExplicit.

Inductive ResultAction := Allow | Deny | Warn.

Inductive PathValidity := Valid | PathComponentNotFound | Invalid.

Inductive RequestedReadAccess :=
  | RRA_None | RRA_Read | RRA_Probe | RRA_Enumerate | RRA_EnumerationProbe | RRA_Lookup.

Definition RequestedReadAccess_value (r : RequestedReadAccess) : Z :=
  match r with
  | RRA_None => 0x0
  | RRA_Read => 0x1
  | RRA_Probe => 0x4
  | RRA_Enumerate => 0x8
  | RRA_EnumerationProbe => 0x10
  | RRA_Lookup => 0x20
  end.

(** [RequestedAccess] is a flag set, combined with [|]. *)
Definition RequestedAccess := Z.
Definition RequestedAccess_None : RequestedAccess := 0x0.
Definition RequestedAccess_Write : RequestedAccess := 0x2.
Definition RequestedAccess_Probe : RequestedAccess := 0x4.

Inductive FileAccessStatus := FileAccessStatus_Allowed | FileAccessStatus_Denied.

Record AccessCheckResult := mkAccessCheckResult {
  Access : RequestedAccess;
  Result : ResultAction;
  Level : ReportLevel;
  Validity : PathValidity;
}.

#[global] Instance ResultAction_eq_dec : EqDecision ResultAction.
Proof. solve_decision. Defined.
#[global] Instance ReportLevel_eq_dec : EqDecision ReportLevel.
Proof. solve_decision. Defined.
#[global] Instance PathValidity_eq_dec : EqDecision PathValidity.
Proof. solve_decision. Defined.

(** The three-argument constructor: the path is taken to be valid. *)
Definition AccessCheckResult3 (a : RequestedAccess) (r : ResultAction) (l : ReportLevel)
  : AccessCheckResult :=
  mkAccessCheckResult a r l Valid.

Definition ShouldReport (c : AccessCheckResult) : bool :=
  bool_decide (Level c = Report) || bool_decide (Level c = ReportExplicit).

Definition GetFileAccessStatus (c : AccessCheckResult) : FileAccessStatus :=
  if bool_decide (Result c <> Allow) then FileAccessStatus_Denied else FileAccessStatus_Allowed.

Definition ShouldDenyAccess (c : AccessCheckResult) : bool :=
  bool_decide (Result c = Deny).

Definition DenialError (c : AccessCheckResult) : DWORD :=
  match Validity c with
  | Valid => ERROR_ACCESS_DENIED
  | PathComponentNotFound => ERROR_PATH_NOT_FOUND
  | Invalid => ERROR_INVALID_NAME
  end.

Definition DenialNtStatus (c : AccessCheckResult) : NTSTATUS :=
  match Validity c with
  | Valid => 0xC0000022
  | PathComponentNotFound => 0xC000003A
  | Invalid => 0xC0000033
  end.

(** [AccessCheckResult::Combine] *)
Definition Combine (left right : AccessCheckResult) : AccessCheckResult :=
  let combinedResultAction := Result left in
  let combinedReportLevel := Level left in
  let combinedPathValidity := Validity left in
  let combinedRequestedAccess := Z.lor (Access left) (Access right) in
  let combinedResultAction :=
    if bool_decide (Result right = Deny) then Deny
    else if bool_decide (Result right = Warn) && bool_decide (combinedResultAction = Allow)
         then Warn
         else combinedResultAction in
  let combinedReportLevel :=
    if bool_decide (Level right = ReportExplicit) then ReportExplicit
    else if bool_decide (Level right = Report) && bool_decide (combinedReportLevel = Ignore)
         then Report
         else combinedReportLevel in
  let combinedPathValidity :=
    if bool_decide (Validity right = Invalid) then Invalid
    else if bool_decide (Validity right = PathComponentNotFound)
            && bool_decide (combinedPathValidity = Valid)
         then PathComponentNotFound
         else combinedPathValidity in
  mkAccessCheckResult combinedRequestedAccess combinedResultAction
                      combinedReportLevel combinedPathValidity.

(** The merge rule in words: the most restrictive of two values. *)
Definition most_restrictive_action (a b : ResultAction) : ResultAction :=
  match a, b with
  | Deny, _ | _, Deny => Deny
  | Warn, _ | _, Warn => Warn
  | Allow, Allow => Allow
  end.

Definition highest_report_level (a b : ReportLevel) : ReportLevel :=
  match a, b with
  | ReportExplicit, _ | _, ReportExplicit => ReportExplicit
  | Report, _ | _, Report => Report
  | Ignore, Ignore => Ignore
  end.

Definition worst_path_validity (a b : PathValidity) : PathValidity :=
  match a, b with
  | Invalid, _ | _, Invalid => Invalid
  | PathComponentNotFound, _ | _, PathComponentNotFound => PathComponentNotFound
  | Valid, Valid => Valid
  end.

(* ===================================================================== *)
(** ** Operation contexts and access kinds *)
(* ===================================================================== *)

(** [FileOperationContext]; the [Id] drawn from a process-wide counter and
    the correlation id play no part in enforcement and are left out. *)
Record FileOperationContext := mkFileOperationContext {
  Operation : string;
  DesiredAccess : DWORD;
  ShareMode : DWORD;
  CreationDisposition : DWORD;
  FlagsAndAttributes : DWORD;
  NoncanonicalPath : string;
  OpenedFileOrDirectoryAttributes : DWORD;
}.

(** The six-argument constructor. *)
Definition FileOperationContext6 (lpOperation : string)
    (dwDesiredAccess dwShareMode dwCreationDisposition dwFlagsAndAttributes : DWORD)
    (lpPath : string) : FileOperationContext :=
  mkFileOperationContext lpOperation dwDesiredAccess dwShareMode dwCreationDisposition
                         dwFlagsAndAttributes lpPath INVALID_FILE_ATTRIBUTES.

Definition with_OpenedFileOrDirectoryAttributes (c : FileOperationContext) (a : DWORD)
  : FileOperationContext :=
  mkFileOperationContext (Operation c) (DesiredAccess c) (ShareMode c)
    (CreationDisposition c) (FlagsAndAttributes c) (NoncanonicalPath c) a.

Definition has_any (value mask : DWORD) : bool := negb (Z.land value mask =? 0).

Definition WantsWriteAccess (access : DWORD) : bool :=
  has_any access
    (Z.lor GENERIC_ALL (Z.lor GENERIC_WRITE (Z.lor DELETE (Z.lor FILE_WRITE_DATA
      (Z.lor FILE_WRITE_ATTRIBUTES (Z.lor FILE_WRITE_EA FILE_APPEND_DATA)))))).

Definition WantsReadAccess (access : DWORD) : bool :=
  has_any access (Z.lor GENERIC_READ FILE_READ_DATA).

Definition WantsProbeOnlyAccess (access : DWORD) : bool :=
  negb (WantsReadAccess access)
  && negb (WantsWriteAccess access)
  && ((access =? 0) || has_any access (Z.lor FILE_READ_ATTRIBUTES FILE_READ_EA)).

Definition FlagsAndAttributesContainReparsePointFlag (dwFlagsAndAttributes : DWORD) : bool :=
  has_any dwFlagsAndAttributes FILE_FLAG_OPEN_REPARSE_POINT.

Definition IsActionableReparsePointType (reparsePointType : DWORD) : bool :=
  (reparsePointType =? IO_REPARSE_TAG_SYMLINK) || (reparsePointType =? IO_REPARSE_TAG_MOUNT_POINT).

(* ===================================================================== *)
(** ** Configuration, policy, path cache *)
(* ===================================================================== *)

(** The process-wide manifest flags the code reads through generated
    accessors; their storage is outside the sources, so they are taken as
    they are read. *)
Record Globals := {
  IgnoreReparsePoints : bool;
  IgnoreFullReparsePointResolving : bool;
  MonitorNtCreateFile : bool;
  ProbeDirectorySymlinkAsDirectory : bool;
  FailUnexpectedFileAccesses : bool;
  ExplicitlyReportDirectoryProbes : bool;
  ReportAnyAccess : bool -> bool;
}.

(** What the code reads from an initialised [PolicyResult]: the policy bits
    of the path and the answers of the accessors declared in a header
    outside the sources. *)
Record PolicyResult := {
  PolicyPath : string;
  EnableFullReparsePointParsing : bool;
  TreatDirectorySymlinkAsDirectory : bool;
  AllowRead : bool;
  AllowReadIfNonexistent : bool;
  AllowWrite : bool;
  AllowCreateDirectory : bool;
  ReportAccess : bool;
  ReportAccessIfExistent : bool;
  ReportAccessIfNonExistent : bool;
}.

Inductive ResolvedPathType := Intermediate | FullyResolved.

#[global] Instance ResolvedPathType_eq_dec : EqDecision ResolvedPathType.
Proof. solve_decision. Defined.

(** The key of a path in a container ordered by
    [CaseInsensitiveStringLessThan]: paths that differ only in case are
    one key. *)
Definition path_key (path : string) : string := WString.to_lower path.

(** The type map of a resolution chain:
    [std::map<wstring, ResolvedPathType, CaseInsensitiveStringLessThan>]. *)
Abbreviation ResolvedPathMap := (gmap string ResolvedPathType).

(** [std::map::emplace]: inserts unless an equivalent key is present. *)
Definition emplace (path : string) (t : ResolvedPathType) (m : ResolvedPathMap)
  : ResolvedPathMap :=
  match m !! path_key path with
  | Some _ => m
  | None => <[path_key path := t]> m
  end.

(** [std::map::at] *)
Definition map_at (m : ResolvedPathMap) (path : string) : option ResolvedPathType :=
  m !! path_key path.

Definition ResolvedPathCacheEntries : Type := list string * ResolvedPathMap.

(** Modelled from the spec: the path cache ([ResolvedPathCache], whose
    header is not among the sources). Three independent memos keyed by
    case-insensitive path: whether the path is a reparse point, its target
    with its reparse point type (type 0 is the cached negative), and the
    resolution chain, keyed also by the preserve-last-hop flag. *)
Record ResolvedPathCache := {
  resolvingChecks : gmap string bool;
  resolvedTargets : gmap string (string * DWORD);
  resolvedPaths : gmap (string * bool) ResolvedPathCacheEntries;
}.

Module ResolvedPathCacheOps.

Definition empty : ResolvedPathCache :=
  {| resolvingChecks := ∅; resolvedTargets := ∅; resolvedPaths := ∅ |}.

Definition GetResolvingCheckResult (path : string) (c : ResolvedPathCache) : option bool :=
  resolvingChecks c !! path_key path.

Definition InsertResolvingCheckResult (path : string) (result : bool) (c : ResolvedPathCache)
  : ResolvedPathCache :=
  {| resolvingChecks := <[path_key path := result]> (resolvingChecks c);
     resolvedTargets := resolvedTargets c;
     resolvedPaths := resolvedPaths c |}.

Definition GetResolvedPathAndType (path : string) (c : ResolvedPathCache)
  : option (string * DWORD) :=
  resolvedTargets c !! path_key path.

Definition InsertResolvedPathWithType (path resolved : string) (reparsePointType : DWORD)
    (c : ResolvedPathCache) : ResolvedPathCache :=
  {| resolvingChecks := resolvingChecks c;
     resolvedTargets := <[path_key path := (resolved, reparsePointType)]> (resolvedTargets c);
     resolvedPaths := resolvedPaths c |}.

Definition GetResolvedPaths (path : string) (preserveLastReparsePointInPath : bool)
    (c : ResolvedPathCache) : option ResolvedPathCacheEntries :=
  resolvedPaths c !! (path_key path, preserveLastReparsePointInPath).

Definition InsertResolvedPaths (path : string) (preserveLastReparsePointInPath : bool)
    (entries : ResolvedPathCacheEntries) (c : ResolvedPathCache) : ResolvedPathCache :=
  {| resolvingChecks := resolvingChecks c;
     resolvedTargets := resolvedTargets c;
     resolvedPaths := <[(path_key path, preserveLastReparsePointInPath) := entries]>
                        (resolvedPaths c) |}.

Definition Invalidate (path : string) (isDirectory : bool) (c : ResolvedPathCache)
  : ResolvedPathCache :=
  {| resolvingChecks := delete (path_key path) (resolvingChecks c);
     resolvedTargets := delete (path_key path) (resolvedTargets c);
     resolvedPaths := delete (path_key path, true)
                        (delete (path_key path, false) (resolvedPaths c)) |}.

End ResolvedPathCacheOps.

(* ===================================================================== *)
(** ** The operating system and the state the code runs in *)
(* ===================================================================== *)

(** What [FSCTL_GET_REPARSE_POINT] leaves in the buffer: the tag and the two
    names that the buffer's offset and length fields delimit. *)
Record ReparseData := {
  ReparseTag : DWORD;
  PrintName : string;
  SubstituteName : string;
}.

Inductive OsCall :=
  | CallGetFileAttributesW (lpFileName : string)
  | CallGetFileInformationByHandle (hFile : HANDLE)
  | CallFindFirstFileW (lpFileName : string)
  | CallFindClose
  | CallCreateFileW (lpFileName : string) (access share disposition flags : DWORD)
  | CallDeviceIoControl (hFile : HANDLE) (bufferSize : DWORD)
  | CallCloseHandle (hFile : HANDLE).

(** The file system as the code observes it. It does not change while the
    code runs. Each call may leave any value in the thread's last-error
    slot: [os_LastError call old] is the value after [call] when it was [old]
    before. *)
Record OS := {
  os_GetFileAttributesW : string -> DWORD;
  os_GetFileInformationByHandle : HANDLE -> option DWORD;
  os_FindFirstFileW : string -> option DWORD;
  os_CreateFileW : string -> HANDLE;
  os_DeviceIoControl : HANDLE -> DWORD -> bool * ReparseData;
  os_LastError : OsCall -> DWORD -> DWORD;
}.

Inductive Event :=
  | EvOs (call : OsCall)
  | EvReportFileAccess (context : FileOperationContext) (status : FileAccessStatus)
                       (check : AccessCheckResult) (error : DWORD)
  | EvReportIndeterminatePolicy (context : FileOperationContext)
  | EvWarning (message path : string).

Record World := mkWorld {
  lastError : DWORD;
  cache : ResolvedPathCache;
  trace : list Event;
}.

Definition GetLastError (w : World) : DWORD := lastError w.

Definition SetLastError (e : DWORD) (w : World) : World :=
  mkWorld e (cache w) (trace w).

Definition log (e : Event) (w : World) : World :=
  mkWorld (lastError w) (cache w) (trace w ++ [e]).

Definition with_cache (f : ResolvedPathCache -> ResolvedPathCache) (w : World) : World :=
  mkWorld (lastError w) (f (cache w)) (trace w).

(** The [DeviceIoControl] calls in a log. *)
Definition is_DeviceIoControl (e : Event) : bool :=
  match e with EvOs (CallDeviceIoControl _ _) => true | _ => false end.

Definition is_os_call (e : Event) : bool :=
  match e with EvOs _ => true | _ => false end.

Definition is_report (e : Event) : bool :=
  match e with
  | EvReportFileAccess _ _ _ _ | EvReportIndeterminatePolicy _ => true
  | _ => false
  end.

Definition reported_path (e : Event) : option string :=
  match e with
  | EvReportFileAccess c _ _ _ | EvReportIndeterminatePolicy c => Some (NoncanonicalPath c)
  | _ => None
  end.

Section Reader.

Variable os : OS.
Variable g : Globals.

Definition os_call (c : OsCall) (w : World) : World :=
  mkWorld (os_LastError os c (lastError w)) (cache w) (trace w ++ [EvOs c]).

Definition GetFileAttributesW (lpFileName : string) (w : World) : DWORD * World :=
  (os_GetFileAttributesW os lpFileName, os_call (CallGetFileAttributesW lpFileName) w).

Definition GetFileInformationByHandle (hFile : HANDLE) (w : World) : option DWORD * World :=
  (os_GetFileInformationByHandle os hFile, os_call (CallGetFileInformationByHandle hFile) w).

Definition FindFirstFileW (lpFileName : string) (w : World) : option DWORD * World :=
  (os_FindFirstFileW os lpFileName, os_call (CallFindFirstFileW lpFileName) w).

Definition FindClose (w : World) : World := os_call CallFindClose w.

Definition CreateFileW (lpFileName : string) (access share disposition flags : DWORD)
    (w : World) : HANDLE * World :=
  (os_CreateFileW os lpFileName,
   os_call (CallCreateFileW lpFileName access share disposition flags) w).

Definition DeviceIoControl (hFile : HANDLE) (bufferSize : DWORD) (w : World)
  : (bool * ReparseData) * World :=
  (os_DeviceIoControl os hFile bufferSize, os_call (CallDeviceIoControl hFile bufferSize) w).

Definition CloseHandle (hFile : HANDLE) (w : World) : World :=
  os_call (CallCloseHandle hFile) w.

Definition IgnoreFullReparsePointResolvingForPath (policyResult : PolicyResult) : bool :=
  IgnoreFullReparsePointResolving g && negb (EnableFullReparsePointParsing policyResult).

(** The guard that opens every [PathCache_] wrapper. *)
Definition PathCache_bypassed (policyResult : PolicyResult) : bool :=
  IgnoreReparsePoints g || IgnoreFullReparsePointResolvingForPath policyResult.

(** [IsReparsePoint]; [lpFileName] is never null in the model. *)
Definition IsReparsePoint (lpFileName : string) (hFile : HANDLE) (w : World) : bool * World :=
  let lastError := GetLastError w in
  let '(fromHandle, w) :=
    if bool_decide (hFile <> INVALID_HANDLE_VALUE)
    then GetFileInformationByHandle hFile w
    else (None, w) in
  match fromHandle with
  | Some dwFileAttributes =>
      let w := SetLastError lastError w in
      (has_any dwFileAttributes FILE_ATTRIBUTE_REPARSE_POINT, w)
  | None =>
      let '(attributes, w) := GetFileAttributesW lpFileName w in
      let result :=
        negb (attributes =? INVALID_FILE_ATTRIBUTES)
        && has_any attributes FILE_ATTRIBUTE_REPARSE_POINT in
      let w := SetLastError lastError w in
      (result, w)
  end.

Definition GetReparsePointType (lpFileName : string) (hFile : HANDLE) (w : World)
  : DWORD * World :=
  let ret := 0 in
  let lastError := GetLastError w in
  let '(isReparsePoint, w) := IsReparsePoint lpFileName hFile w in
  let '(ret, w) :=
    if isReparsePoint then
      let '(findData, w) := FindFirstFileW lpFileName w in
      match findData with
      | Some dwReserved0 => (dwReserved0, FindClose w)
      | None => (ret, w)
      end
    else (ret, w) in
  (ret, SetLastError lastError w).

Definition PathCache_Invalidate (path : string) (isDirectory : bool)
    (policyResult : PolicyResult) (w : World) : World :=
  if PathCache_bypassed policyResult then w
  else with_cache (ResolvedPathCacheOps.Invalidate path isDirectory) w.

Definition PathCache_GetResolvedPathAndType (path : string) (policyResult : PolicyResult)
    (w : World) : option (string * DWORD) :=
  if PathCache_bypassed policyResult then None
  else ResolvedPathCacheOps.GetResolvedPathAndType path (cache w).

Definition PathCache_InsertResolvedPathWithType (path resolved : string)
    (reparsePointType : DWORD) (policyResult : PolicyResult) (w : World) : World :=
  if PathCache_bypassed policyResult then w
  else with_cache (ResolvedPathCacheOps.InsertResolvedPathWithType path resolved reparsePointType) w.

Definition PathCache_GetResolvingCheckResult (path : string) (policyResult : PolicyResult)
    (w : World) : option bool :=
  if PathCache_bypassed policyResult then None
  else ResolvedPathCacheOps.GetResolvingCheckResult path (cache w).

Definition PathCache_InsertResolvingCheckResult (path : string) (result : bool)
    (policyResult : PolicyResult) (w : World) : World :=
  if PathCache_bypassed policyResult then w
  else with_cache (ResolvedPathCacheOps.InsertResolvingCheckResult path result) w.

Definition PathCache_InsertResolvedPaths (path : string) (preserveLastReparsePointInPath : bool)
    (entries : ResolvedPathCacheEntries) (policyResult : PolicyResult) (w : World) : World :=
  if PathCache_bypassed policyResult then w
  else with_cache
         (ResolvedPathCacheOps.InsertResolvedPaths path preserveLastReparsePointInPath entries) w.

Definition PathCache_GetResolvedPaths (path : string) (preserveLastReparsePointInPath : bool)
    (policyResult : PolicyResult) (w : World) : option ResolvedPathCacheEntries :=
  if PathCache_bypassed policyResult then None
  else ResolvedPathCacheOps.GetResolvedPaths path preserveLastReparsePointInPath (cache w).

(** [GetTargetNameFromReparseData]: the print name, or the substitute name
    when the print name is empty or a single space; [name] is left as it
    is for any other tag. *)
Definition GetTargetNameFromReparseData (pReparseDataBuffer : ReparseData)
    (reparsePointType : DWORD) (name : string) : string :=
  if (reparsePointType =? IO_REPARSE_TAG_SYMLINK)
     || (reparsePointType =? IO_REPARSE_TAG_MOUNT_POINT)
  then
    let name := PrintName pReparseDataBuffer in
    if (WString.length name =? 0) || String.eqb name " "
    then SubstituteName pReparseDataBuffer
    else name
  else name.

(** The growing-buffer loop of [TryGetReparsePointTarget]. *)
Fixpoint QueryReparsePoint (fuel : nat) (hFile : HANDLE) (bufferSize errorCode : DWORD)
    (buffer : ReparseData) (w : World) : option (DWORD * ReparseData * World) :=
  if (errorCode =? ERROR_MORE_DATA) || (errorCode =? ERROR_INSUFFICIENT_BUFFER) then
    match fuel with
    | O => None
    | S fuel =>
        let '((success, buffer), w) := DeviceIoControl hFile bufferSize w in
        if success
        then QueryReparsePoint fuel hFile bufferSize ERROR_SUCCESS buffer w
        else QueryReparsePoint fuel hFile (dword_mul bufferSize 2) (GetLastError w) buffer w
    end
  else Some (errorCode, buffer, w).

Definition empty_buffer : ReparseData :=
  {| ReparseTag := 0; PrintName := ""; SubstituteName := "" |}.

(** The [Epilogue] label: close the handle the function opened itself and
    restore the last error. *)
Definition TryGetReparsePointTarget_Epilogue (hFile hInput : HANDLE) (lastError : DWORD)
    (w : World) : World :=
  let w :=
    if bool_decide (hFile <> INVALID_HANDLE_VALUE) && bool_decide (hFile <> hInput)
    then CloseHandle hFile w
    else w in
  SetLastError lastError w.

(** The [Error] label: cache the negative (type 0), then [Epilogue]. *)
Definition TryGetReparsePointTarget_Error (path target : string) (hFile hInput : HANDLE)
    (lastError : DWORD) (policyResult : PolicyResult) (w : World) : World :=
  let w := PathCache_InsertResolvedPathWithType path target 0 policyResult w in
  TryGetReparsePointTarget_Epilogue hFile hInput lastError w.

(** [TryGetReparsePointTarget]: the status, the [target] in-out argument
    and the state after the call. *)
Definition TryGetReparsePointTarget (fuel : nat) (path : string) (hInput : HANDLE)
    (target : string) (policyResult : PolicyResult) (w : World)
  : option (bool * string * World) :=
  let result := PathCache_GetResolvingCheckResult path policyResult w in
  let '(isReparsePoint, w) :=
    match result with
    | Some value => (value, w)
    | None =>
        let '(isReparsePoint, w) := IsReparsePoint path hInput w in
        (isReparsePoint, PathCache_InsertResolvingCheckResult path isReparsePoint policyResult w)
    end in
  if negb isReparsePoint then Some (false, target, w)
  else
    let hFile := INVALID_HANDLE_VALUE in
    let lastError := GetLastError w in
    let bufferSize := INITIAL_REPARSE_DATA_BUILDXL_DETOURS_BUFFER_SIZE_FOR_FILE_NAMES in
    let errorCode := ERROR_INSUFFICIENT_BUFFER in
    match PathCache_GetResolvedPathAndType path policyResult w with
    | Some (first, second) =>
        let target := first in
        let reparsePointType := second in
        if reparsePointType =? 0
        then Some (false, target, TryGetReparsePointTarget_Epilogue hFile hInput lastError w)
        else Some (true, target, TryGetReparsePointTarget_Epilogue hFile hInput lastError w)
    | None =>
        let '(hFile, w) :=
          if bool_decide (hInput <> INVALID_HANDLE_VALUE)
          then (hInput, w)
          else CreateFileW path GENERIC_READ
                 (Z.lor FILE_SHARE_READ (Z.lor FILE_SHARE_DELETE FILE_SHARE_WRITE))
                 OPEN_EXISTING
                 (Z.lor FILE_FLAG_OPEN_REPARSE_POINT FILE_FLAG_BACKUP_SEMANTICS) w in
        if bool_decide (hFile = INVALID_HANDLE_VALUE)
        then Some (false, target,
                   TryGetReparsePointTarget_Error path target hFile hInput lastError policyResult w)
        else
          match QueryReparsePoint fuel hFile bufferSize errorCode empty_buffer w with
          | None => None
          | Some (errorCode, buffer, w) =>
              if negb (errorCode =? ERROR_SUCCESS)
              then Some (false, target,
                         TryGetReparsePointTarget_Error path target hFile hInput lastError
                                                        policyResult w)
              else
                let reparsePointType := ReparseTag buffer in
                if negb (IsActionableReparsePointType reparsePointType)
                then Some (false, target,
                           TryGetReparsePointTarget_Error path target hFile hInput lastError
                                                          policyResult w)
                else
                  let target := GetTargetNameFromReparseData buffer reparsePointType target in
                  let w := PathCache_InsertResolvedPathWithType path target reparsePointType
                                                                policyResult w in
                  Some (true, target,
                        TryGetReparsePointTarget_Epilogue hFile hInput lastError w)
          end
    end.

End Reader.

(* ===================================================================== *)
(** ** Symlink traversal utilities *)
(* ===================================================================== *)

(** [std::vector<wstring>] used as a stack: [back] is the last element. *)
Definition back (v : list string) : string := List.last v "".
Definition vector_pop_back (v : list string) : list string := List.removelast v.
Definition vector_push_back (v : list string) (x : string) : list string := v ++ [x].
Definition vector_empty (v : list string) : bool :=
  match v with [] => true | _ => false end.

Section Resolver.

Variable os : OS.
Variable g : Globals.

(** The root-length computation of the canonicalization utility (the
    length of the drive or share prefix of a path, 0 for a relative
    path); it is defined outside the sources and taken as given. *)
Variable GetRootLength : string -> size_t.

(** The inner loop of [SplitPathsReverse]: step back to the separator
    that starts the current atom. *)
Fixpoint SplitPathsReverse_skip (fuel : nat) (dir : string) (rootLength i : size_t) : size_t :=
  match fuel with
  | O => i
  | S fuel =>
      if (i >? rootLength) && negb (IsDirectorySeparator (WString.at_ dir i))
      then SplitPathsReverse_skip fuel dir rootLength (i - 1)
      else i
  end.

(** The outer loop of [SplitPathsReverse]; [i] strictly decreases, so
    [fuel] one above [i] is never used up. *)
Fixpoint SplitPathsReverse_loop (fuel : nat) (rootLength i : size_t) (dir : string)
    (atoms : list string) : string * list string :=
  match fuel with
  | O => (dir, atoms)
  | S fuel =>
      if i >=? rootLength then
        let i := SplitPathsReverse_skip (S (Z.to_nat i)) dir rootLength i in
        let atoms :=
          if i >=? rootLength
          then vector_push_back atoms (WString.substr_from dir i)
          else atoms in
        let dir := WString.substr dir 0 i in
        if i =? 0 then (dir, atoms)
        else SplitPathsReverse_loop fuel rootLength (i - 1) dir atoms
      else (dir, atoms)
  end.

(** [SplitPathsReverse]: appends the atoms of [path], deepest first, to
    [atoms]. *)
Definition SplitPathsReverse (path : string) (atoms : list string) : list string :=
  let length := WString.length path in
  let length :=
    if (length >=? 2) && IsDirectorySeparator (WString.at_ path (length - 1))
    then length - 1
    else length in
  let rootLength := GetRootLength path in
  if length <=? rootLength then atoms
  else
    let i := length - 1 in
    let dir := path in
    let '(dir, atoms) := SplitPathsReverse_loop (S (Z.to_nat i)) rootLength i dir atoms in
    if negb (WString.length dir =? 0) then vector_push_back atoms dir else atoms.

Definition startWithDotSlash (relativeTarget : string) (pos length : size_t) : bool :=
  (length >=? 2)
  && Ascii.eqb (WString.at_ relativeTarget pos) WString.dot
  && Ascii.eqb (WString.at_ relativeTarget (pos + 1)) WString.backslash.

Definition startWithDotDotSlash (relativeTarget : string) (pos length : size_t) : bool :=
  (length >=? 3)
  && Ascii.eqb (WString.at_ relativeTarget pos) WString.dot
  && Ascii.eqb (WString.at_ relativeTarget (pos + 1)) WString.dot
  && Ascii.eqb (WString.at_ relativeTarget (pos + 2)) WString.backslash.

(** The loop of the simple overload that consumes the leading [.\] and
    [..\] of the relative target. Each round consumes at least two
    characters of the target, so [fuel] equal to its length suffices.
    [lastSeparator - 1] is a [size_t] subtraction. The inner
    [return false] of the source sits under a test that excludes it and
    is not reachable. *)
Fixpoint TryResolveRelativeTarget_dots (fuel : nat) (result relativeTarget : string)
    (pos length lastSeparator : size_t) (processed : option (list string))
  : size_t * size_t * size_t * option (list string) :=
  match fuel with
  | O => (pos, length, lastSeparator, processed)
  | S fuel =>
      if (startWithDotDotSlash relativeTarget pos length
          || startWithDotSlash relativeTarget pos length)
         && negb (lastSeparator =? npos)
      then
        if startWithDotSlash relativeTarget pos length
        then TryResolveRelativeTarget_dots fuel result relativeTarget
               (pos + 2) (length - 2) lastSeparator processed
        else
          let lastSeparator :=
            WString.find_last_of result WString.backslash (size_sub lastSeparator 1) in
          let processed :=
            match processed with
            | Some v => if negb (vector_empty v) then Some (vector_pop_back v) else Some v
            | None => None
            end in
          TryResolveRelativeTarget_dots fuel result relativeTarget
            (pos + 3) (length - 3) lastSeparator processed
      else (pos, length, lastSeparator, processed)
  end.

(** [TryResolveRelativeTarget], the overload that combines a reparse
    point path with its relative target. [processed] and
    [needToBeProcessed] are the two nullable vector pointers. The value
    returned holds the status and the arguments the function writes. *)
Definition TryResolveRelativeTarget_simple (result relativeTarget : string)
    (processed needToBeProcessed : option (list string))
  : bool * string * option (list string) * option (list string) :=
  let result :=
    if Ascii.eqb (WString.at_ result (size_sub (WString.length result) 1)) WString.backslash
    then WString.substr result 0 (WString.length result - 1)
    else result in
  let lastSeparator := WString.find_last_of result WString.backslash npos in
  if lastSeparator =? npos then (false, result, processed, needToBeProcessed)
  else
    match processed with
    | Some [] => (false, result, processed, needToBeProcessed)
    | _ =>
        let processed := option_map vector_pop_back processed in
        let pos := 0 in
        let length := WString.length relativeTarget in
        let '(pos, length, lastSeparator, processed) :=
          TryResolveRelativeTarget_dots (String.length relativeTarget) result relativeTarget
                                        pos length lastSeparator processed in
        if (lastSeparator =? npos) && startWithDotDotSlash relativeTarget pos length
        then (false, result, processed, needToBeProcessed)
        else
          let slicedTarget := WString.substr relativeTarget pos length in
          let result :=
            WString.substr result 0 (if negb (lastSeparator =? npos) then lastSeparator else 0) in
          match needToBeProcessed with
          | Some v => (true, result, processed, Some (SplitPathsReverse slicedTarget v))
          | None =>
              let result := WString.push_back result WString.backslash in
              let result := String.append result slicedTarget in
              (true, result, processed, None)
          end
    end.

(** The loop of the overload of [TryResolveRelativeTarget] that resolves
    directory symlinks in the prefix of [path]. [Some (true, ...)] is the
    loop left normally, [Some (false, ...)] a [return false] from
    inside. *)
Fixpoint TryResolveRelativeTarget_loop (fuel qfuel : nat) (needToBeProcessed processed : list string)
    (result : string) (policyResult : PolicyResult) (w : World)
  : option (bool * string * World) :=
  match fuel with
  | O => None
  | S fuel =>
      if vector_empty needToBeProcessed then Some (true, result, w)
      else
        let atom := back needToBeProcessed in
        let needToBeProcessed := vector_pop_back needToBeProcessed in
        let processed := vector_push_back processed atom in
        let result :=
          if negb (WString.length result =? 0) then
            if negb (Ascii.eqb (WString.at_ result (WString.length result - 1)) WString.backslash)
               && negb (Ascii.eqb (WString.at_ atom 0) WString.backslash)
            then String.append result "\"
            else result
          else result in
        let result := String.append result atom in
        if vector_empty needToBeProcessed then Some (true, result, w)
        else
          let '(reparsePointType, w) := GetReparsePointType os result INVALID_HANDLE_VALUE w in
          if reparsePointType =? IO_REPARSE_TAG_SYMLINK then
            match TryGetReparsePointTarget os g qfuel result INVALID_HANDLE_VALUE "" policyResult w with
            | None => None
            | Some (false, _, w) => Some (false, result, w)
            | Some (true, target, w) =>
                if GetRootLength target >? 0 then
                  TryResolveRelativeTarget_loop fuel qfuel
                    (SplitPathsReverse target needToBeProcessed) [] "" policyResult w
                else
                  match TryResolveRelativeTarget_simple result target
                          (Some processed) (Some needToBeProcessed) with
                  | (true, result, Some processed, Some needToBeProcessed) =>
                      TryResolveRelativeTarget_loop fuel qfuel needToBeProcessed processed
                                                    result policyResult w
                  | (_, result, _, _) => Some (false, result, w)
                  end
            end
          else
            TryResolveRelativeTarget_loop fuel qfuel needToBeProcessed processed
                                          result policyResult w
  end.

(** [TryResolveRelativeTarget], the overload that first resolves the
    directory symlinks in the prefix of [path]. *)
Definition TryResolveRelativeTarget (fuel : nat) (path relativeTarget result : string)
    (policyResult : PolicyResult) (w : World) : option (bool * string * World) :=
  let needToBeProcessed := SplitPathsReverse path [] in
  let processed := [] in
  match TryResolveRelativeTarget_loop fuel fuel needToBeProcessed processed result
                                      policyResult w with
  | None => None
  | Some (false, result, w) => Some (false, result, w)
  | Some (true, result, w) =>
      let '(ok, result, _, _) :=
        TryResolveRelativeTarget_simple result relativeTarget None None in
      Some (ok, result, w)
  end.

(** [TryGetNextPath] *)
Definition TryGetNextPath (fuel : nat) (path : string) (hInput : HANDLE) (result : string)
    (policyResult : PolicyResult) (w : World) : option (bool * string * World) :=
  match TryGetReparsePointTarget os g fuel path hInput "" policyResult w with
  | None => None
  | Some (false, _, w) => Some (false, result, w)
  | Some (true, target, w) =>
      if GetRootLength target >? 0
      then Some (true, target, w)
      else TryResolveRelativeTarget fuel path target result policyResult w
  end.

End Resolver.

(* ===================================================================== *)
(** ** The chain walker *)
(* ===================================================================== *)

Section Walker.

(** [TryGetNextPath] under the policy of the walk, and
    [CanonicalizedPath::Canonicalize(..).GetPathString()], which is
    defined outside the sources. *)
Variable tryGetNextPath : string -> HANDLE -> string -> World -> option (bool * string * World).
Variable Canonicalize : string -> string.

(** The [while (true)] loop of [DetourGetFinalPaths]; [path] is the path
    the walk started from, named in the cycle warning. *)
Fixpoint DetourGetFinalPaths_loop (fuel : nat) (path : string) (handle : HANDLE)
    (currentPath : string) (order : list string) (finalPaths : ResolvedPathMap) (w : World)
  : option (list string * ResolvedPathMap * World) :=
  match fuel with
  | O => None
  | S fuel =>
      let order := vector_push_back order currentPath in
      match tryGetNextPath currentPath handle "" w with
      | None => None
      | Some (nextPathResult, nextPath, w) =>
          let handle := INVALID_HANDLE_VALUE in
          if nextPathResult then
            let finalPaths := emplace currentPath Intermediate finalPaths in
            let currentPath := Canonicalize nextPath in
            if bool_decide (currentPath ∈ order)
            then Some (order, finalPaths,
                       log (EvWarning "Cycle found when attempting to resolve symlink path" path) w)
            else DetourGetFinalPaths_loop fuel path handle currentPath order finalPaths w
          else
            let finalPaths := emplace currentPath FullyResolved finalPaths in
            Some (order, finalPaths, w)
      end
  end.

(** [DetourGetFinalPaths]: fills [order] and [finalPaths]. *)
Definition DetourGetFinalPaths (fuel : nat) (path : string) (hInput : HANDLE)
    (order : list string) (finalPaths : ResolvedPathMap) (w : World)
  : option (list string * ResolvedPathMap * World) :=
  let handle := hInput in
  let currentPath := path in
  DetourGetFinalPaths_loop fuel path handle currentPath order finalPaths w.

End Walker.

(* ===================================================================== *)
(** ** Policy checks ([PolicyResult_common.cpp]) and reporting *)
(* ===================================================================== *)

Section Enforcer.

Variable os : OS.
Variable g : Globals.

(** [PolicyResult::Initialize] on a path: the policy the manifest gives
    the path, or [None] when it cannot be determined. The manifest search
    is outside the sources. *)
Variable PolicyResult_Initialize : string -> option PolicyResult.

(** The last error [ReportIndeterminatePolicyAndSetLastError] sets; the
    function is declared outside the sources. *)
Variable IndeterminatePolicyError : DWORD.

(** [WriteWarningOrErrorF]; [MaybeBreakOnAccessDenied] only stops under a
    debugger and is left out. *)
Definition WriteWarningOrErrorF (message path : string) (w : World) : World :=
  log (EvWarning message path) w.

Definition ProbePathForValidity (path : string) (w : World) : PathValidity * World :=
  let '(maybeAttributes, w) := GetFileAttributesW os path w in
  if negb (maybeAttributes =? INVALID_FILE_ATTRIBUTES) then (Valid, w)
  else
    let error := GetLastError w in
    if error =? ERROR_PATH_NOT_FOUND then (PathComponentNotFound, w)
    else if error =? ERROR_INVALID_NAME then (Invalid, w)
    else (Valid, w).

Definition DenyOrWarn : ResultAction :=
  if FailUnexpectedFileAccesses g then Deny else Warn.

(** [PolicyResult::CheckReadAccess] *)
Definition CheckReadAccess (policyResult : PolicyResult)
    (readAccessRequested : RequestedReadAccess) (context : FileReadContext) (w : World)
  : AccessCheckResult * World :=
  let accessRequested : RequestedAccess := RequestedReadAccess_value readAccessRequested in
  match Existence context with
  | InvalidPath => (mkAccessCheckResult accessRequested Allow Ignore Invalid, w)
  | existence =>
      let exists_ := match existence with Existent => true | _ => false end in
      let allowAccess :=
        OpenedDirectory context
        || (exists_ && AllowRead policyResult)
        || (negb exists_ && AllowReadIfNonexistent policyResult)
        || match readAccessRequested with RRA_EnumerationProbe => true | _ => false end in
      let result := if allowAccess then Allow else DenyOrWarn in
      let explicitReport :=
        ((ExplicitlyReportDirectoryProbes g && (accessRequested =? RequestedAccess_Probe))
         || negb (OpenedDirectory context))
        && ((exists_ && ReportAccessIfExistent policyResult)
            || (negb exists_ && ReportAccessIfNonExistent policyResult)) in
      let reportLevel :=
        if explicitReport then ReportExplicit
        else if ReportAnyAccess g (bool_decide (result <> Allow)) then Report else Ignore in
      let w :=
        if bool_decide (result <> Allow)
        then WriteWarningOrErrorF "Read access to file path is denied" (PolicyPath policyResult) w
        else w in
      (mkAccessCheckResult accessRequested result reportLevel Valid, w)
  end.

(** [PolicyResult::CreateAccessCheckResult(ResultAction, ReportLevel)] *)
Definition CreateAccessCheckResult2 (policyResult : PolicyResult) (result : ResultAction)
    (reportLevel : ReportLevel) (w : World) : AccessCheckResult * World :=
  if bool_decide (result <> Allow) then
    let '(pathValidity, w) := ProbePathForValidity (PolicyPath policyResult) w in
    match pathValidity with
    | Invalid => (mkAccessCheckResult RequestedAccess_Write result Ignore pathValidity, w)
    | _ =>
        let w := WriteWarningOrErrorF "Write access to file path is denied"
                                      (PolicyPath policyResult) w in
        (mkAccessCheckResult RequestedAccess_Write result reportLevel pathValidity, w)
    end
  else (mkAccessCheckResult RequestedAccess_Write result reportLevel Valid, w).

(** [PolicyResult::CreateAccessCheckResult(bool)] *)
Definition CreateAccessCheckResult (policyResult : PolicyResult) (isAllowed : bool)
    (w : World) : AccessCheckResult * World :=
  let result := if isAllowed then Allow else DenyOrWarn in
  let reportLevel :=
    if ReportAccess policyResult then ReportExplicit
    else if ReportAnyAccess g (bool_decide (result <> Allow)) then Report else Ignore in
  CreateAccessCheckResult2 policyResult result reportLevel w.

Definition CheckWriteAccess (policyResult : PolicyResult) (w : World)
  : AccessCheckResult * World :=
  CreateAccessCheckResult policyResult (AllowWrite policyResult) w.

Definition CheckCreateDirectoryAccess (policyResult : PolicyResult) (w : World)
  : AccessCheckResult * World :=
  CreateAccessCheckResult policyResult (AllowCreateDirectory policyResult) w.

(** [ReportFileAccess], the reporting collaborator: one line to the
    orchestrator. *)
Definition ReportFileAccess (context : FileOperationContext) (status : FileAccessStatus)
    (accessCheckResult : AccessCheckResult) (error : DWORD) (w : World) : World :=
  log (EvReportFileAccess context status accessCheckResult error) w.

(** [ReportIfNeeded] ([DetoursHelpers.cpp]) *)
Definition ReportIfNeeded (checkResult : AccessCheckResult) (context : FileOperationContext)
    (error : DWORD) (w : World) : World :=
  if negb (ShouldReport checkResult) then w
  else ReportFileAccess context (GetFileAccessStatus checkResult) checkResult error w.

Definition ReportIndeterminatePolicyAndSetLastError (context : FileOperationContext)
    (w : World) : World :=
  SetLastError IndeterminatePolicyError (log (EvReportIndeterminatePolicy context) w).

(* =================================================================== *)
(** ** The access enforcer *)
(* =================================================================== *)

Definition GetFileAttributesByPath (lpFileName : string) (w : World) : bool * DWORD * World :=
  let lastError := GetLastError w in
  let '(attributes, w) := GetFileAttributesW os lpFileName w in
  let w := SetLastError lastError w in
  (negb (INVALID_FILE_ATTRIBUTES =? attributes), attributes, w).

Definition GetFileAttributesByHandle (hFile : HANDLE) (w : World) : bool * DWORD * World :=
  let lastError := GetLastError w in
  let '(res, w) := GetFileInformationByHandle os hFile w in
  let w := SetLastError lastError w in
  match res with
  | Some dwFileAttributes => (true, dwFileAttributes, w)
  | None => (false, INVALID_FILE_ATTRIBUTES, w)
  end.

Definition ShouldTreatDirectoryReparsePointAsFile (dwDesiredAccess dwFlagsAndAttributes : DWORD)
    (policyResult : PolicyResult) : bool :=
  negb (IgnoreFullReparsePointResolvingForPath g policyResult)
  && (FlagsAndAttributesContainReparsePointFlag dwFlagsAndAttributes
      || WantsWriteAccess dwDesiredAccess)
  && negb (TreatDirectorySymlinkAsDirectory policyResult)
  && (negb (WantsProbeOnlyAccess dwDesiredAccess)
      || negb (ProbeDirectorySymlinkAsDirectory g)).

Definition IsDirectoryFromAttributes (attributes : DWORD) (treatReparsePointAsFile : bool)
  : bool :=
  let isDirectory :=
    negb (attributes =? INVALID_FILE_ATTRIBUTES)
    && has_any attributes FILE_ATTRIBUTE_DIRECTORY in
  isDirectory
  && (negb treatReparsePointAsFile || negb (has_any attributes FILE_ATTRIBUTE_REPARSE_POINT)).

(** [IsHandleOrPathToDirectory]: the answer and the attributes written
    through [fileOrDirectoryAttribute]. *)
Definition IsHandleOrPathToDirectory (hFile : HANDLE) (lpFileName : string)
    (dwDesiredAccess dwFlagsAndAttributes : DWORD) (policyResult : PolicyResult) (w : World)
  : bool * DWORD * World :=
  let treatReparsePointAsFile :=
    ShouldTreatDirectoryReparsePointAsFile dwDesiredAccess dwFlagsAndAttributes policyResult in
  let fileOrDirectoryAttribute := INVALID_FILE_ATTRIBUTES in
  let '(attributesFromHandleResult, fileOrDirectoryAttribute, w) :=
    if bool_decide (INVALID_HANDLE_VALUE <> hFile)
    then GetFileAttributesByHandle hFile w
    else (false, fileOrDirectoryAttribute, w) in
  let '(fileOrDirectoryAttribute, w) :=
    if negb attributesFromHandleResult
    then let '(_, a, w) := GetFileAttributesByPath lpFileName w in (a, w)
    else (fileOrDirectoryAttribute, w) in
  (IsDirectoryFromAttributes fileOrDirectoryAttribute treatReparsePointAsFile,
   fileOrDirectoryAttribute, w).

(** The operation context [EnforceReparsePointAccess] builds. *)
Definition EnforceReparsePointAccess_opContext (reparsePointPath : string)
    (dwDesiredAccess dwShareMode dwCreationDisposition dwFlagsAndAttributes : DWORD)
    (isFullyResolvedPath : bool) (contextOperationName : string) : FileOperationContext :=
  FileOperationContext6
    contextOperationName
    (if isFullyResolvedPath then dwDesiredAccess else GENERIC_READ)
    (if isFullyResolvedPath then dwShareMode
     else Z.lor FILE_SHARE_READ (Z.lor FILE_SHARE_DELETE FILE_SHARE_WRITE))
    (if isFullyResolvedPath then dwCreationDisposition else OPEN_EXISTING)
    (if isFullyResolvedPath then dwFlagsAndAttributes
     else Z.lor FILE_FLAG_OPEN_REPARSE_POINT FILE_FLAG_BACKUP_SEMANTICS)
    reparsePointPath.

(** The checks of [EnforceReparsePointAccess] under [enforceAccess]: the
    access check and the operation context after them. *)
Definition EnforceReparsePointAccess_check (reparsePointPath : string)
    (opContext : FileOperationContext) (policyResult : PolicyResult)
    (isCreateDirectory : bool) (accessCheck : AccessCheckResult) (w : World)
  : AccessCheckResult * FileOperationContext * World :=
  let '(accessCheck, w) :=
    if WantsWriteAccess (DesiredAccess opContext) then
      if isCreateDirectory
      then CheckCreateDirectoryAccess policyResult w
      else CheckWriteAccess policyResult w
    else (accessCheck, w) in
  if WantsReadAccess (DesiredAccess opContext) || WantsProbeOnlyAccess (DesiredAccess opContext)
  then
    let '(openedDirectory, attributes, w) :=
      IsHandleOrPathToDirectory INVALID_HANDLE_VALUE reparsePointPath
        (DesiredAccess opContext) (FlagsAndAttributes opContext) policyResult w in
    let opContext := with_OpenedFileOrDirectoryAttributes opContext attributes in
    let '(existenceAttributes, w) := GetFileAttributesW os reparsePointPath w in
    let readContext :=
      {| Existence := if negb (existenceAttributes =? INVALID_FILE_ATTRIBUTES)
                      then Existent else Nonexistent;
         OpenedDirectory := openedDirectory |} in
    let '(readCheck, w) :=
      CheckReadAccess policyResult
        (if WantsProbeOnlyAccess (DesiredAccess opContext) then RRA_Probe else RRA_Read)
        readContext w in
    (Combine accessCheck readCheck, opContext, w)
  else (accessCheck, opContext, w).

(** [EnforceReparsePointAccess]: the result, the status written through
    [pNtStatus] (a nullable pointer) and the state after the call. *)
Definition EnforceReparsePointAccess (reparsePointPath : string)
    (dwDesiredAccess dwShareMode dwCreationDisposition dwFlagsAndAttributes : DWORD)
    (pNtStatus : option NTSTATUS) (enforceAccess isCreateDirectory isFullyResolvedPath : bool)
    (contextOperationName : string) (w : World) : bool * option NTSTATUS * World :=
  let lastError := GetLastError w in
  let accessCheck := AccessCheckResult3 RequestedAccess_None Allow Ignore in
  let opContext :=
    EnforceReparsePointAccess_opContext reparsePointPath dwDesiredAccess dwShareMode
      dwCreationDisposition dwFlagsAndAttributes isFullyResolvedPath contextOperationName in
  match PolicyResult_Initialize reparsePointPath with
  | None =>
      let w := ReportIndeterminatePolicyAndSetLastError opContext w in
      let w := SetLastError lastError w in
      (false, pNtStatus, w)
  | Some policyResult =>
      let ret := true in
      let '(ret, lastError, pNtStatus, accessCheck, opContext, w) :=
        if enforceAccess then
          let '(accessCheck, opContext, w) :=
            EnforceReparsePointAccess_check reparsePointPath opContext policyResult
                                            isCreateDirectory accessCheck w in
          if ShouldDenyAccess accessCheck
          then (false, DenialError accessCheck,
                option_map (fun _ => DenialNtStatus accessCheck) pNtStatus,
                accessCheck, opContext, w)
          else (ret, lastError, pNtStatus, accessCheck, opContext, w)
        else (ret, lastError, pNtStatus, accessCheck, opContext, w) in
      let w := ReportIfNeeded accessCheck opContext lastError w in
      let w := SetLastError lastError w in
      (ret, pNtStatus, w)
  end.

(** A canonicalized path, by the two strings the code asks it for. *)
Record CanonicalizedPath := {
  GetPathString : string;
  GetPathStringWithoutTypePrefix : string;
}.

(** [ResolveAllReparsePointsAndEnforceAccess], reached when no chain is
    cached and full reparse point resolving applies to the path. Its body
    rests on path-splitting and canonicalization routines outside the
    sources; the branch is taken as given. *)
Variable ResolveAllReparsePointsAndEnforceAccess :
  CanonicalizedPath -> DWORD -> DWORD -> DWORD -> DWORD -> PolicyResult ->
  option NTSTATUS -> bool -> bool -> option string -> bool -> bool -> World ->
  option (bool * option NTSTATUS * option string * World).

Variable GetRootLength : string -> size_t.
Variable Canonicalize : string -> string.

(** The [for] loop of [EnforceChainOfReparsePointAccesses] over the
    chain. [None] is the exception [at] throws for a key the table does
    not hold (a chain built by the walker holds all its keys). *)
Fixpoint EnforceChainOfReparsePointAccesses_loop (cachedOrder : list string)
    (resolvedLookUpTable : ResolvedPathMap)
    (dwDesiredAccess dwShareMode dwCreationDisposition dwFlagsAndAttributes : DWORD)
    (policyResult : PolicyResult) (pNtStatus : option NTSTATUS)
    (enforceAccess isCreateDirectory : bool) (resolvedPath : option string)
    (enforceAccessForResolvedPath : bool) (contextOperationName : string)
    (success : bool) (w : World)
  : option (bool * option NTSTATUS * option string * World) :=
  match cachedOrder with
  | [] => Some (success, pNtStatus, resolvedPath, w)
  | key :: rest =>
      match map_at resolvedLookUpTable key with
      | None => None
      | Some type =>
          let fullyResolved :=
            negb (IgnoreFullReparsePointResolvingForPath g policyResult)
            && bool_decide (type = FullyResolved) in
          let resolvedPath :=
            if fullyResolved then option_map (fun _ => key) resolvedPath else resolvedPath in
          if fullyResolved && negb enforceAccessForResolvedPath
          then
            EnforceChainOfReparsePointAccesses_loop rest resolvedLookUpTable
              dwDesiredAccess dwShareMode dwCreationDisposition dwFlagsAndAttributes
              policyResult pNtStatus enforceAccess isCreateDirectory resolvedPath
              enforceAccessForResolvedPath contextOperationName success w
          else
            let '(ok, pNtStatus, w) :=
              EnforceReparsePointAccess key dwDesiredAccess dwShareMode
                dwCreationDisposition dwFlagsAndAttributes pNtStatus enforceAccess
                isCreateDirectory (bool_decide (type = FullyResolved))
                contextOperationName w in
            EnforceChainOfReparsePointAccesses_loop rest resolvedLookUpTable
              dwDesiredAccess dwShareMode dwCreationDisposition dwFlagsAndAttributes
              policyResult pNtStatus enforceAccess isCreateDirectory resolvedPath
              enforceAccessForResolvedPath contextOperationName (success && ok) w
      end
  end.

(** [EnforceChainOfReparsePointAccesses] *)
Definition EnforceChainOfReparsePointAccesses (fuel : nat) (path : CanonicalizedPath)
    (reparsePointHandle : HANDLE)
    (dwDesiredAccess dwShareMode dwCreationDisposition dwFlagsAndAttributes : DWORD)
    (isNtCreate : bool) (policyResult : PolicyResult) (pNtStatus : option NTSTATUS)
    (enforceAccess isCreateDirectory : bool) (resolvedPath : option string)
    (enforceAccessForResolvedPath preserveLastReparsePoint : bool) (w : World)
  : option (bool * option NTSTATUS * option string * World) :=
  if IgnoreReparsePoints g || (isNtCreate && negb (MonitorNtCreateFile g))
  then Some (true, pNtStatus, resolvedPath, w)
  else
    let enforce (cached : bool) (entries : ResolvedPathCacheEntries) (w : World) :=
      let success := true in
      let contextOperationName :=
        if cached then "ReparsePointTargetCached" else "ReparsePointTarget" in
      EnforceChainOfReparsePointAccesses_loop (fst entries) (snd entries)
        dwDesiredAccess dwShareMode dwCreationDisposition dwFlagsAndAttributes
        policyResult pNtStatus enforceAccess isCreateDirectory resolvedPath
        enforceAccessForResolvedPath contextOperationName success w in
    match PathCache_GetResolvedPaths g (GetPathStringWithoutTypePrefix path)
                                     preserveLastReparsePoint policyResult w with
    | None =>
        if IgnoreFullReparsePointResolvingForPath g policyResult then
          match DetourGetFinalPaths
                  (fun p h r w => TryGetNextPath os g GetRootLength fuel p h r policyResult w)
                  Canonicalize fuel (GetPathString path) reparsePointHandle [] ∅ w with
          | None => None
          | Some (cachedOrder, resolvedLookUpTable, w) =>
              enforce false (cachedOrder, resolvedLookUpTable) w
          end
        else
          ResolveAllReparsePointsAndEnforceAccess path dwDesiredAccess dwShareMode
            dwCreationDisposition dwFlagsAndAttributes policyResult pNtStatus
            enforceAccess isCreateDirectory resolvedPath enforceAccessForResolvedPath
            preserveLastReparsePoint w
    | Some entries => enforce true entries w
    end.

End Enforcer.

(* ===================================================================== *)
(** ** Concrete file systems, configurations and policies *)
(* ===================================================================== *)

Module Example.

Definition ERROR_FILE_NOT_FOUND : DWORD := 2.
Definition ERROR_INVALID_HANDLE : DWORD := 6.
Definition ERROR_NOT_A_REPARSE_POINT : DWORD := 4390.
Definition FILE_ATTRIBUTE_ARCHIVE : DWORD := 0x20.

(** One entry of a file system: a path, its attributes, and its reparse
    data when it is a reparse point. *)
Record Node := {
  node_path : string;
  node_attributes : DWORD;
  node_data : option ReparseData;
}.

Definition file (p : string) : Node :=
  {| node_path := p; node_attributes := FILE_ATTRIBUTE_ARCHIVE; node_data := None |}.

Definition directory (p : string) : Node :=
  {| node_path := p; node_attributes := FILE_ATTRIBUTE_DIRECTORY; node_data := None |}.

Definition reparse_point (tag attributes : DWORD) (p target : string) : Node :=
  {| node_path := p;
     node_attributes := Z.lor attributes FILE_ATTRIBUTE_REPARSE_POINT;
     node_data := Some {| ReparseTag := tag; PrintName := target; SubstituteName := target |} |}.

Definition file_symlink := reparse_point IO_REPARSE_TAG_SYMLINK FILE_ATTRIBUTE_ARCHIVE.
Definition directory_symlink := reparse_point IO_REPARSE_TAG_SYMLINK FILE_ATTRIBUTE_DIRECTORY.
Definition junction := reparse_point IO_REPARSE_TAG_MOUNT_POINT FILE_ATTRIBUTE_DIRECTORY.

(** Lookup by path, without regard to case; the handle of a node is its
    position, counted from 1. *)
Fixpoint find_node (nodes : list Node) (p : string) (h : HANDLE) : option (HANDLE * Node) :=
  match nodes with
  | [] => None
  | n :: rest =>
      if String.eqb (path_key (node_path n)) (path_key p) then Some (h, n)
      else find_node rest p (h + 1)
  end.

Definition node_of_handle (nodes : list Node) (h : HANDLE) : option Node :=
  if 1 <=? h then nth_error nodes (Z.to_nat (h - 1)) else None.

(** Bytes a reparse buffer needs for the two names after its header. *)
Definition buffer_need (d : ReparseData) : DWORD :=
  20 + 2 * (WString.length (PrintName d) + WString.length (SubstituteName d)).

Definition ioctl (nodes : list Node) (h : HANDLE) (bufferSize : DWORD) : bool * ReparseData :=
  match node_of_handle nodes h with
  | Some {| node_data := Some d |} =>
      if buffer_need d <=? bufferSize then (true, d)
      else (false, {| ReparseTag := 0; PrintName := ""; SubstituteName := "" |})
  | _ => (false, {| ReparseTag := 0; PrintName := ""; SubstituteName := "" |})
  end.

(** The last error each call leaves: the error of a failure, and
    [ERROR_SUCCESS] after a success. *)
Definition last_error (nodes : list Node) (c : OsCall) (old : DWORD) : DWORD :=
  match c with
  | CallGetFileAttributesW p | CallFindFirstFileW p | CallCreateFileW p _ _ _ _ =>
      match find_node nodes p 1 with Some _ => ERROR_SUCCESS | None => ERROR_FILE_NOT_FOUND end
  | CallGetFileInformationByHandle h =>
      match node_of_handle nodes h with Some _ => ERROR_SUCCESS | None => ERROR_INVALID_HANDLE end
  | CallDeviceIoControl h size =>
      match node_of_handle nodes h with
      | Some {| node_data := Some d |} =>
          if buffer_need d <=? size then ERROR_SUCCESS else ERROR_MORE_DATA
      | Some _ => ERROR_NOT_A_REPARSE_POINT
      | None => ERROR_INVALID_HANDLE
      end
  | CallFindClose | CallCloseHandle _ => ERROR_SUCCESS
  end.

Definition file_system (nodes : list Node) : OS :=
  {| os_GetFileAttributesW p :=
       match find_node nodes p 1 with
       | Some (_, n) => node_attributes n
       | None => INVALID_FILE_ATTRIBUTES
       end;
     os_GetFileInformationByHandle h := node_attributes <$> node_of_handle nodes h;
     os_FindFirstFileW p :=
       match find_node nodes p 1 with
       | Some (_, n) => Some (match node_data n with Some d => ReparseTag d | None => 0 end)
       | None => None
       end;
     os_CreateFileW p :=
       match find_node nodes p 1 with
       | Some (h, _) => h
       | None => INVALID_HANDLE_VALUE
       end;
     os_DeviceIoControl := ioctl nodes;
     os_LastError := last_error nodes |}.

(** The layout of the remarks on [TryResolveRelativeTarget]; [source] is
    the node of [repo\source]. The links are listed under both paths
    that reach them. *)
Definition repo_layout (source : Node) : list Node :=
  [ directory "repo";
    directory "repo\intermediate";
    directory "repo\intermediate\current";
    file_symlink "repo\intermediate\current\symlink1.link" "..\..\target\file1.txt";
    file_symlink "repo\intermediate\current\symlink2.link" "..\target\file2.txt";
    source;
    file_symlink "repo\source\symlink1.link" "..\..\target\file1.txt";
    file_symlink "repo\source\symlink2.link" "..\target\file2.txt";
    directory "repo\target";
    file "repo\target\file1.txt";
    file "repo\target\file2.txt" ].

Definition repo_with_directory_symlink : OS :=
  file_system (repo_layout (directory_symlink "repo\source" "intermediate\current")).

Definition repo_with_junction : OS :=
  file_system (repo_layout (junction "repo\source" "intermediate\current")).

(** A three-hop chain and a two-link cycle on drive C. *)
Definition chain_ABC : OS :=
  file_system [ file_symlink "C:\A" "C:\B"; file_symlink "C:\B" "C:\C"; file "C:\C" ].

Definition cycle_AB : OS :=
  file_system [ file_symlink "C:\A" "C:\B"; file_symlink "C:\B" "C:\A" ].


(** A plain file, and a reparse point whose tag is neither a symlink
    nor a mount point. *)
Definition plain_file : OS := file_system [ file "C:\file.txt" ].

Definition IO_REPARSE_TAG_APPEXECLINK : DWORD := 0x8000001B.

Definition app_link : OS :=
  file_system [ reparse_point IO_REPARSE_TAG_APPEXECLINK FILE_ATTRIBUTE_ARCHIVE
                              "C:\app.exe" "C:\Program Files\app.exe" ].

(** A share with a link that climbs six levels, and a root-length
    function that knows the root of the share. *)
Definition unc_share : OS :=
  file_system [ directory "\\server\share\dir";
                file_symlink "\\server\share\dir\link" "..\..\..\..\..\..\x" ].

Definition unc_root_length (s : string) : size_t :=
  if String.eqb s "\\server\share\dir\link" then WString.length "\\server\share\" else 0.

(** A root-length function for drive-letter paths: the length of [C:\]
    or [C:], 0 for a path without a drive. *)
Definition drive_root_length (s : string) : size_t :=
  if Ascii.eqb (WString.at_ s 1) ":"%char
  then if IsDirectorySeparator (WString.at_ s 2) then 3 else 2
  else 0.

Definition relative_root_length (s : string) : size_t := 0.

Definition already_canonical (s : string) : string := s.

Definition globals (ignoreReparsePoints ignoreFullResolving : bool)
    (reportAnyAccess : bool -> bool) : Globals :=
  {| IgnoreReparsePoints := ignoreReparsePoints;
     IgnoreFullReparsePointResolving := ignoreFullResolving;
     MonitorNtCreateFile := true;
     ProbeDirectorySymlinkAsDirectory := true;
     FailUnexpectedFileAccesses := true;
     ExplicitlyReportDirectoryProbes := false;
     ReportAnyAccess := reportAnyAccess |}.


(** Every access is reported. *)
Definition report_all (accessDenied : bool) : bool := true.

(** A policy for [path] that allows reads or not, reports nothing
    explicitly and does not opt in to full reparse point parsing. *)
Definition policy (allowRead : bool) (path : string) : PolicyResult :=
  {| PolicyPath := path;
     EnableFullReparsePointParsing := false;
     TreatDirectorySymlinkAsDirectory := false;
     AllowRead := allowRead;
     AllowReadIfNonexistent := allowRead;
     AllowWrite := false;
     AllowCreateDirectory := false;
     ReportAccess := false;
     ReportAccessIfExistent := false;
     ReportAccessIfNonExistent := false |}.

(** A manifest that lets everything be read except [C:\B]. *)
Definition manifest_denying_B (path : string) : option PolicyResult :=
  Some (policy (negb (String.eqb (path_key path) (path_key "C:\B"))) path).

Definition fresh_world (e : DWORD) : World :=
  mkWorld e ResolvedPathCacheOps.empty [].

(** The walker's view of a file system: [TryGetNextPath] with full
    reparse point resolving ignored, which is when the walker runs. *)
Definition walker_globals : Globals := globals false true report_all.

Definition next_path (os : OS)
  : string -> HANDLE -> string -> World -> option (bool * string * World) :=
  fun p h r w => TryGetNextPath os walker_globals drive_root_length 4 p h r (policy true p) w.

(** The chain of [chain_ABC] as the walker tags it. *)
Definition table_ABC : ResolvedPathMap :=
  emplace "C:\C" FullyResolved (emplace "C:\B" Intermediate (emplace "C:\A" Intermediate ∅)).

Definition path_A : CanonicalizedPath :=
  {| GetPathString := "C:\A"; GetPathStringWithoutTypePrefix := "C:\A" |}.

Definition no_full_resolution :
  CanonicalizedPath -> DWORD -> DWORD -> DWORD -> DWORD -> PolicyResult ->
  option NTSTATUS -> bool -> bool -> option string -> bool -> bool -> World ->
  option (bool * option NTSTATUS * option string * World) :=
  fun _ _ _ _ _ _ _ _ _ _ _ _ _ => None.

End Example.

(* ===================================================================== *)
(** ** Vocabulary of the properties *)
(* ===================================================================== *)

(** The device-level reparse queries in the log of a state. *)
Definition DeviceIoControl_calls (w : World) : list Event :=
  filter (fun e => is_DeviceIoControl e = true) (trace w).

(** The reports in a list of events. *)
Definition reports (evs : list Event) : list Event :=
  filter (fun e => is_report e = true) evs.


(** The device query stops asking for a larger buffer once the buffer
    holds 32 KiB, twice the largest reparse buffer of the system. *)
Definition reparse_buffer_bounded (os : OS) : Prop :=
  forall (h : HANDLE) (size e : DWORD),
    32768 <= size ->
    fst (os_DeviceIoControl os h size) = false ->
    os_LastError os (CallDeviceIoControl h size) e <> ERROR_MORE_DATA
    /\ os_LastError os (CallDeviceIoControl h size) e <> ERROR_INSUFFICIENT_BUFFER.

(** The first block of [TryGetReparsePointTarget]: the memo of the
    reparse-point test, or the test itself with its result memoized. *)
Definition resolving_check (os : OS) (g : Globals) (path : string) (hInput : HANDLE)
    (pr : PolicyResult) (w : World) : bool * World :=
  match PathCache_GetResolvingCheckResult g path pr w with
  | Some value => (value, w)
  | None =>
      let '(isReparsePoint, w) := IsReparsePoint os path hInput w in
      (isReparsePoint, PathCache_InsertResolvingCheckResult g path isReparsePoint pr w)
  end.

(** A root-length function overridden on the strings of a table. *)
Definition root_length_on (table : list (string * size_t)) (rl : string -> size_t)
  : string -> size_t :=
  fun s =>
    match List.find (fun kv => String.eqb (fst kv) s) table with
    | Some kv => snd kv
    | None => rl s
    end.

(** The strings whose root length the resolution of the two links of the
    [repo] layout asks for: none of them is rooted. *)
Definition repo_relative_paths : list (string * size_t) :=
  [ ("repo\source\symlink1.link", 0);
    ("repo\source\symlink2.link", 0);
    ("..\..\target\file1.txt", 0);
    ("..\target\file2.txt", 0);
    ("intermediate\current", 0) ].

(** Hops of a chain, as the walker sees them: [resolves_to next canon p h q]
    says that asking for the next path of [p] through handle [h] succeeds
    in every state and canonicalizes to [q]; [has_no_next next p h] that it
    answers that there is none. *)
Definition resolves_to
    (next : string -> HANDLE -> string -> World -> option (bool * string * World))
    (canon : string -> string) (p : string) (h : HANDLE) (q : string) : Prop :=
  forall w, exists raw w', next p h "" w = Some (true, raw, w') /\ canon raw = q.

Definition has_no_next
    (next : string -> HANDLE -> string -> World -> option (bool * string * World))
    (p : string) (h : HANDLE) : Prop :=
  forall w, exists r w', next p h "" w = Some (false, r, w').


(** The type map the walker has built once it has recorded [visited]: one
    key per path, all tagged Intermediate. *)
Definition all_Intermediate (m : ResolvedPathMap) (visited : list string) : Prop :=
  (forall q, q ∈ visited -> map_at m q = Some Intermediate)
  /\ (forall k v, m !! k = Some v -> v = Intermediate /\ k ∈ map path_key visited).

(** [quiet w w1]: from [w] to [w1] the log only grew, and by no report. *)
Definition quiet (w w1 : World) : Prop :=
  exists evs, trace w1 = (trace w ++ evs)%list /\ reports evs = [].




(* ===================================================================== *)
(** ** Further functions and vocabulary *)
(* ===================================================================== *)

(** The handles and directory searches a list of events opens and
    closes. [CreateFileW] opens a handle unless it answers
    [INVALID_HANDLE_VALUE]; [FindFirstFileW] opens a search when it finds
    an entry. *)
Definition opened_by (os : OS) (e : Event) : list HANDLE :=
  match e with
  | EvOs (CallCreateFileW p _ _ _ _) =>
      if bool_decide (os_CreateFileW os p = INVALID_HANDLE_VALUE) then []
      else [os_CreateFileW os p]
  | _ => []
  end.

Definition closed_by (e : Event) : list HANDLE :=
  match e with EvOs (CallCloseHandle h) => [h] | _ => [] end.

Definition handles_opened (os : OS) (evs : list Event) : list HANDLE :=
  flat_map (opened_by os) evs.

Definition handles_closed (evs : list Event) : list HANDLE :=
  flat_map closed_by evs.

Definition search_opened_by (os : OS) (e : Event) : list string :=
  match e with
  | EvOs (CallFindFirstFileW p) =>
      match os_FindFirstFileW os p with Some _ => [p] | None => [] end
  | _ => []
  end.

Definition search_closed_by (e : Event) : list unit :=
  match e with EvOs CallFindClose => [tt] | _ => [] end.

Definition searches_opened (os : OS) (evs : list Event) : nat :=
  List.length (flat_map (search_opened_by os) evs).

Definition searches_closed (evs : list Event) : nat :=
  List.length (flat_map search_closed_by evs).

(** [balanced os evs]: every handle and every search the events open is
    closed again, handles in the order they were opened. *)
Definition balanced (os : OS) (evs : list Event) : Prop :=
  handles_closed evs = handles_opened os evs
  /\ searches_closed evs = searches_opened os evs.

(** [memos_kept c c1]: every memo of the reparse-point test and of the
    targets in [c] is in [c1] with the value it had, and the memo of the
    chains is the same. *)
Definition memos_kept (c c1 : ResolvedPathCache) : Prop :=
  resolvingChecks c ⊆ resolvingChecks c1
  /\ resolvedTargets c ⊆ resolvedTargets c1
  /\ resolvedPaths c1 = resolvedPaths c.

(** [settled os w w1]: what a probe of the file system may leave behind.
    The last error is the one it found, the log grew by events that close
    what they open, and the cache kept its memos. *)
Definition settled (os : OS) (w w1 : World) : Prop :=
  lastError w1 = lastError w
  /\ memos_kept (cache w) (cache w1)
  /\ exists evs, trace w1 = (trace w ++ evs)%list /\ balanced os evs.

(** The buffer size the growing-buffer loop offers in its [i]-th round
    when it starts from [size]: doubled each round, as a [DWORD]. *)
Definition offered (size : DWORD) (i : nat) : DWORD :=
  Nat.iter i (fun s => dword_mul s 2) size.

(** The device query on [h] with a buffer of [size] bytes fails and asks
    for more room, whatever the last error was before. *)
Definition asks_for_more (os : OS) (h : HANDLE) (size : DWORD) : Prop :=
  fst (os_DeviceIoControl os h size) = false
  /\ forall e, os_LastError os (CallDeviceIoControl h size) e = ERROR_MORE_DATA
               \/ os_LastError os (CallDeviceIoControl h size) e = ERROR_INSUFFICIENT_BUFFER.

(** The query succeeds, or fails with an error other than a request for
    more room. *)
Definition settles (os : OS) (h : HANDLE) (size : DWORD) : Prop :=
  fst (os_DeviceIoControl os h size) = true
  \/ forall e, os_LastError os (CallDeviceIoControl h size) e <> ERROR_MORE_DATA
               /\ os_LastError os (CallDeviceIoControl h size) e <> ERROR_INSUFFICIENT_BUFFER.

(** The queries of the rounds [from], ..., [from + count - 1]. *)
Definition queries (h : HANDLE) (size : DWORD) (from count : nat) : list Event :=
  map (fun i => EvOs (CallDeviceIoControl h (offered size i))) (seq from count).

(** The atoms of a list written one after the other. *)
Definition join (atoms : list string) : string := fold_right String.append "" atoms.

(** The length [SplitPathsReverse] works with: that of the path, a closing
    separator not counted. *)
Definition length_without_trailing_separator (path : string) : size_t :=
  let length := WString.length path in
  if (length >=? 2) && IsDirectorySeparator (WString.at_ path (length - 1))
  then length - 1
  else length.

(* --------------------------------------------------------------------- *)
(** Case-insensitive strings ([UtilityHelpers.h]) *)

(** [std::equal(first1, last1, first2, pred)]: the two ranges as lists.
    The second range is at least as long as the first wherever the
    sources call it; the model answers false where it is not. *)
Fixpoint std_equal (pred : ascii -> ascii -> bool) (range1 range2 : list ascii) : bool :=
  match range1 with
  | [] => true
  | a :: range1 =>
      match range2 with
      | b :: range2 => if pred a b then std_equal pred range1 range2 else false
      | [] => false
      end
  end.

(** [std::lexicographical_compare(first1, last1, first2, last2, comp)] *)
Fixpoint std_lexicographical_compare (comp : ascii -> ascii -> bool)
    (range1 range2 : list ascii) : bool :=
  match range1, range2 with
  | a :: range1, b :: range2 =>
      if comp a b then true
      else if comp b a then false
      else std_lexicographical_compare comp range1 range2
  | [], _ :: _ => true
  | _, [] => false
  end.

(** A character as the number [towlower] answers and [<] compares. *)
Definition wint (c : ascii) : N := N_of_ascii c.

(** [CaseInsensitiveStringComparer::operator()]. [same_data] is the test
    [lhs.data() == rhs.data()], whether the two strings are one buffer. *)
Definition CaseInsensitiveStringComparer (same_data : bool) (lhs rhs : string) : bool :=
  if WString.length lhs =? WString.length rhs then
    if same_data then true
    else
      std_equal
        (fun a b => if Ascii.eqb a b then true
                    else (wint (WString.towlower a) =? wint (WString.towlower b))%N)
        (list_ascii_of_string rhs) (list_ascii_of_string lhs)
  else false.

(** [CaseInsensitiveStringLessThan::operator()]; the reverse iterators
    walk the strings from their last character. *)
Definition CaseInsensitiveStringLessThan (same_data : bool) (lhs rhs : string) : bool :=
  if WString.length lhs =? WString.length rhs then
    if same_data then false
    else
      let result :=
        std_lexicographical_compare
          (fun a b => if Ascii.eqb a b then false
                      else (wint (WString.towlower a) <? wint (WString.towlower b))%N)
          (rev (list_ascii_of_string rhs)) (rev (list_ascii_of_string lhs)) in
      result
  else WString.length lhs <? WString.length rhs.

(** [CaseInsensitiveStringHasher::operator()], over [std::hash<std::wstring>]. *)
Definition CaseInsensitiveStringHasher (std_hash : string -> size_t) (str : string) : size_t :=
  let lowerstr := str in
  let lowerstr := WString.to_lower lowerstr in
  std_hash lowerstr.

(** Two keys are equivalent for a container ordered by a comparison when
    neither is less than the other. *)
Definition equivalent_keys (less : string -> string -> bool) (a b : string) : bool :=
  negb (less a b) && negb (less b a).

(* --------------------------------------------------------------------- *)
(** The reparse data buffer ([DetouredFunctions.cpp]) *)

Definition USHORT := Z.
Definition USHORT_modulus : Z := 2 ^ 16.
Definition sizeof_WCHAR : Z := 2.

(** The names part of a Windows [REPARSE_DATA_BUFFER]. The symbolic-link
    and the mount-point view of its union begin with the same four
    [USHORT] fields; [Tail] holds the [WCHAR]s that follow them. The
    symbolic-link view has a [ULONG Flags] there, two [WCHAR]s wide, before
    its [PathBuffer]; the [PathBuffer] of the mount-point view begins at
    once. *)
Record REPARSE_DATA_BUFFER := {
  SubstituteNameOffset : USHORT;
  SubstituteNameLength : USHORT;
  PrintNameOffset : USHORT;
  PrintNameLength : USHORT;
  Tail : string;
}.

Module ReparseBuffer.

(** Where [PathBuffer] begins in [Tail], for the view of a tag. *)
Definition PathBuffer (reparsePointType : DWORD) : size_t :=
  if reparsePointType =? IO_REPARSE_TAG_SYMLINK then 2 else 0.

(** [name.assign(PathBuffer + offset, count)]; the model reads what the
    buffer holds when the range runs past its end. *)
Definition assign (b : REPARSE_DATA_BUFFER) (reparsePointType : DWORD) (offset count : size_t)
  : string :=
  WString.substr (Tail b) (PathBuffer reparsePointType + offset) count.

(** [memcpy(PathBuffer + offset, src.c_str(), bytes)] on the [WCHAR]s of
    the buffer. *)
Definition memcpy (tail : string) (position : size_t) (src : string) (bytes : Z) : string :=
  let count := bytes / sizeof_WCHAR in
  String.append (WString.substr tail 0 position)
    (String.append (WString.substr src 0 count) (WString.substr_from tail (position + count))).

(** [GetTargetNameFromReparseData] on the buffer itself. *)
Definition GetTargetNameFromReparseData (pReparseDataBuffer : REPARSE_DATA_BUFFER)
    (reparsePointType : DWORD) (name : string) : string :=
  if (reparsePointType =? IO_REPARSE_TAG_SYMLINK)
     || (reparsePointType =? IO_REPARSE_TAG_MOUNT_POINT)
  then
    let name :=
      assign pReparseDataBuffer reparsePointType
        (PrintNameOffset pReparseDataBuffer / sizeof_WCHAR)
        (PrintNameLength pReparseDataBuffer / sizeof_WCHAR) in
    if (WString.length name =? 0) || String.eqb name " "
    then
      assign pReparseDataBuffer reparsePointType
        (SubstituteNameOffset pReparseDataBuffer / sizeof_WCHAR)
        (SubstituteNameLength pReparseDataBuffer / sizeof_WCHAR)
    else name
  else name.

(** [SetTargetNameFromReparseData] *)
Definition SetTargetNameFromReparseData (pReparseDataBuffer : REPARSE_DATA_BUFFER)
    (reparsePointType : DWORD) (target : string) : REPARSE_DATA_BUFFER :=
  let targetLengthInBytes : USHORT := (WString.length target * sizeof_WCHAR) mod USHORT_modulus in
  if (reparsePointType =? IO_REPARSE_TAG_SYMLINK)
     || (reparsePointType =? IO_REPARSE_TAG_MOUNT_POINT)
  then
    let tail := memcpy (Tail pReparseDataBuffer) (PathBuffer reparsePointType)
                       target targetLengthInBytes in
    let tail := memcpy tail (PathBuffer reparsePointType + targetLengthInBytes / sizeof_WCHAR)
                       target targetLengthInBytes in
    {| SubstituteNameOffset := targetLengthInBytes;
       SubstituteNameLength := targetLengthInBytes;
       PrintNameOffset := 0;
       PrintNameLength := targetLengthInBytes;
       Tail := tail |}
  else pReparseDataBuffer.

(** What the device hands out, read off the buffer: the tag and the two
    names the offset and length fields delimit. *)
Definition data (b : REPARSE_DATA_BUFFER) (reparsePointType : DWORD) : ReparseData :=
  {| ReparseTag := reparsePointType;
     PrintName := assign b reparsePointType (PrintNameOffset b / sizeof_WCHAR)
                         (PrintNameLength b / sizeof_WCHAR);
     SubstituteName := assign b reparsePointType (SubstituteNameOffset b / sizeof_WCHAR)
                              (SubstituteNameLength b / sizeof_WCHAR) |}.

End ReparseBuffer.

(* --------------------------------------------------------------------- *)
(** Whether and how a path is resolved ([DetouredFunctions.cpp]) *)

Section PathResolution.

Variable os : OS.
Variable g : Globals.

(** Defined outside the sources: the decomposition of a path into its
    atoms, with its error code, and the two accessors of a policy the
    resolution asks. *)
Variable TryDecomposePath : string -> Z * list string.
Variable IndicateUntracked : PolicyResult -> bool.
Variable FindLowestConsecutiveLevelThatStillHasProperty : PolicyResult -> size_t.

Definition GetLevelToEnableFullReparsePointParsing (policyResult : PolicyResult) : size_t :=
  if IgnoreFullReparsePointResolving g
  then FindLowestConsecutiveLevelThatStillHasProperty policyResult
  else 0.

(** [AccessReparsePointTarget]; the test of the path is made only when
    the reparse point flag is absent. *)
Definition AccessReparsePointTarget (lpFileName : string) (dwFlagsAndAttributes : DWORD)
    (hFile : HANDLE) (w : World) : bool * World :=
  if negb (FlagsAndAttributesContainReparsePointFlag dwFlagsAndAttributes)
  then IsReparsePoint os lpFileName hFile w
  else (false, w).

(** The [for] loop of [ShouldResolveReparsePointsInPath] over the atoms:
    [Some (true, ...)] is the [return true] from inside. *)
Fixpoint ShouldResolveReparsePointsInPath_loop (fuel : nat) (atoms : list string)
    (resolver target : string) (level levelToEnforceReparsePointParsingFrom : size_t)
    (policyResult : PolicyResult) (w : World)
  : option (bool * string * string * size_t * World) :=
  match atoms with
  | [] => Some (false, resolver, target, level, w)
  | atom :: atoms =>
      let resolver := String.append resolver atom in
      let continue (target : string) (w : World) :=
        ShouldResolveReparsePointsInPath_loop fuel atoms (String.append resolver "\") target
          (level + 1) levelToEnforceReparsePointParsingFrom policyResult w in
      if level >=? levelToEnforceReparsePointParsingFrom then
        match TryGetReparsePointTarget os g fuel resolver INVALID_HANDLE_VALUE target
                                       policyResult w with
        | None => None
        | Some (true, target, w) => Some (true, resolver, target, level, w)
        | Some (false, target, w) => continue target w
        end
      else continue target w
  end.

(** [ShouldResolveReparsePointsInPath] *)
Definition ShouldResolveReparsePointsInPath (fuel : nat) (path : CanonicalizedPath)
    (dwFlagsAndAttributes : DWORD) (policyResult : PolicyResult) (w : World)
  : option (bool * World) :=
  if IgnoreReparsePoints g then Some (false, w)
  else if IgnoreFullReparsePointResolvingForPath g policyResult
  then Some (AccessReparsePointTarget (GetPathString path) dwFlagsAndAttributes
                                      INVALID_HANDLE_VALUE w)
  else if IndicateUntracked policyResult then Some (false, w)
  else
    match PathCache_GetResolvingCheckResult g (GetPathStringWithoutTypePrefix path)
                                            policyResult w with
    | Some value => Some (value, w)
    | None =>
        let '(err, atoms) := TryDecomposePath (GetPathStringWithoutTypePrefix path) in
        if negb (err =? 0) then Some (false, w)
        else
          let levelToEnforceReparsePointParsingFrom :=
            GetLevelToEnableFullReparsePointParsing policyResult in
          match ShouldResolveReparsePointsInPath_loop fuel atoms "" "" 0
                  levelToEnforceReparsePointParsingFrom policyResult w with
          | None => None
          | Some (true, _, _, _, w) => Some (true, w)
          | Some (false, resolver, target, level, w) =>
              let resolver := WString.pop_back resolver in
              if level >=? levelToEnforceReparsePointParsingFrom then
                match TryGetReparsePointTarget os g fuel resolver INVALID_HANDLE_VALUE target
                                               policyResult w with
                | None => None
                | Some (ok, _, w) => Some (ok, w)
                end
              else Some (false, w)
          end
    end.

End PathResolution.

(** The paths the loop of [ShouldResolveReparsePointsInPath] builds in
    [resolver], one for each atom. *)
Fixpoint prefixes (resolver : string) (atoms : list string) : list string :=
  match atoms with
  | [] => []
  | atom :: atoms =>
      String.append resolver atom
      :: prefixes (String.append (String.append resolver atom) "\") atoms
  end.

(** What the cache knows of a path: that it is a reparse point with a
    target, or that it has no target to follow. *)
Definition known_reparse_point (c : ResolvedPathCache) (path : string) : Prop :=
  ResolvedPathCacheOps.GetResolvingCheckResult path c = Some true
  /\ exists target type,
       type <> 0
       /\ ResolvedPathCacheOps.GetResolvedPathAndType path c = Some (target, type).

Definition known_without_target (c : ResolvedPathCache) (path : string) : Prop :=
  ResolvedPathCacheOps.GetResolvingCheckResult path c = Some false
  \/ (ResolvedPathCacheOps.GetResolvingCheckResult path c = Some true
      /\ exists target, ResolvedPathCacheOps.GetResolvedPathAndType path c = Some (target, 0)).

Module Scenario.

(** A link whose target is 150 directories deep: its two names need more
    than 2 KiB of reparse buffer. *)
Definition deep_target : string :=
  String.append (String.concat "" (repeat "dir\" 150)) "file.txt".

Definition deep_link : OS :=
  Example.file_system [ Example.file_symlink "C:\link" (String.append "C:\" deep_target) ].

(** A device that asks for more room whatever the buffer it is offered. *)
Definition insatiable_device : OS :=
  {| os_GetFileAttributesW _ := FILE_ATTRIBUTE_REPARSE_POINT;
     os_GetFileInformationByHandle _ := Some FILE_ATTRIBUTE_REPARSE_POINT;
     os_FindFirstFileW _ := Some IO_REPARSE_TAG_SYMLINK;
     os_CreateFileW _ := 1;
     os_DeviceIoControl _ _ := (false, empty_buffer);
     os_LastError c e :=
       match c with CallDeviceIoControl _ _ => ERROR_MORE_DATA | _ => e end |}.

(** A decomposition of a path at its backslashes, and a policy accessor
    that tracks every path from its first level. *)
Fixpoint split_at_backslash (s atom : string) : list string :=
  match s with
  | EmptyString => [atom]
  | String c rest =>
      if Ascii.eqb c WString.backslash then atom :: split_at_backslash rest ""
      else split_at_backslash rest (String.append atom (String c EmptyString))
  end.

Definition decompose (path : string) : Z * list string := (0, split_at_backslash path "").

Definition tracked (policyResult : PolicyResult) : bool := false.

Definition from_first_level (policyResult : PolicyResult) : size_t := 0.

Definition link_in_repo : CanonicalizedPath :=
  {| GetPathString := "repo\source\symlink1.link";
     GetPathStringWithoutTypePrefix := "repo\source\symlink1.link" |}.

End Scenario.

(** The status a report carries. *)
Definition reported_status (e : Event) : option FileAccessStatus :=
  match e with
  | EvReportFileAccess _ status _ _ => Some status
  | _ => None
  end.

(** The warnings in a list of events. *)
Definition is_warning (e : Event) : bool :=
  match e with EvWarning _ _ => true | _ => false end.

Definition warnings (evs : list Event) : list Event :=
  filter (fun e => is_warning e = true) evs.

(** The last key of a chain that its type map tags FullyResolved. *)
Definition last_FullyResolved (table : ResolvedPathMap) (order : list string) : option string :=
  fold_left
    (fun found key =>
       if bool_decide (map_at table key = Some FullyResolved) then Some key else found)
    order None.

(** The keys of a chain that its type map does not tag FullyResolved. *)
Definition Intermediate_hops (table : ResolvedPathMap) (order : list string) : list string :=
  filter (fun key => map_at table key <> Some FullyResolved) order.

(** The result of a chain enforcement without what is behind
    [resolvedPath]. *)
Definition without_resolvedPath (r : bool * option NTSTATUS * option string * World)
  : bool * option NTSTATUS * World :=
  let '(ok, pNtStatus, _, w) := r in (ok, pNtStatus, w).

(* ===================================================================== *)
(** * Properties *)
(* ===================================================================== *)

(* ===================================================================== *)
(** ** The merge rule of access checks *)
(* ===================================================================== *)

Lemma Combine_Access (l r : AccessCheckResult) :
  Access (Combine l r) = Z.lor (Access l) (Access r).
Proof. reflexivity. Qed.

(** C9. [Combine] is the most restrictive merge, componentwise: the action
    is Deny if either operand is Deny, else Warn if either is Warn, else
    Allow; the report level is ReportExplicit if either is, else Report if
    either is, else Ignore; the validity is Invalid if either is, else
    PathComponentNotFound if either is, else Valid. *)
Theorem Combine_most_restrictive (left right : AccessCheckResult) :
  Result (Combine left right) = most_restrictive_action (Result left) (Result right)
  /\ Level (Combine left right) = highest_report_level (Level left) (Level right)
  /\ Validity (Combine left right) = worst_path_validity (Validity left) (Validity right).
Proof.
  destruct left as [la lr ll lv], right as [ra rr rl rv].
  repeat split; cbn [Combine Result Level Validity];
    [ destruct lr, rr | destruct ll, rl | destruct lv, rv ]; reflexivity.
Qed.


(* ===================================================================== *)
(** ** The simple relative-target composer *)
(* ===================================================================== *)

(** The fuel the model gives the loops of [SplitPathsReverse] and of the
    simple composer is never used up: more fuel changes nothing. *)
Lemma SplitPathsReverse_skip_fuel dir rootLength :
  0 <= rootLength ->
  forall fuel i extra,
    (Z.to_nat i < fuel)%nat ->
    SplitPathsReverse_skip (fuel + extra) dir rootLength i
    = SplitPathsReverse_skip fuel dir rootLength i.
Proof.
  intros Hroot. induction fuel as [|fuel IH]; intros i extra Hfuel; [lia|].
  cbn [Nat.add SplitPathsReverse_skip].
  destruct (i >? rootLength) eqn:Hgt; cbn [andb]; [|reflexivity].
  destruct (negb (IsDirectorySeparator (WString.at_ dir i))); [|reflexivity].
  destruct fuel as [|fuel'].
  - exfalso. apply Z.gtb_lt in Hgt. lia.
  - apply IH. apply Z.gtb_lt in Hgt. lia.
Qed.

Lemma SplitPathsReverse_skip_range dir rootLength fuel :
  forall i, rootLength <= i ->
    rootLength <= SplitPathsReverse_skip fuel dir rootLength i <= i.
Proof.
  induction fuel as [|fuel IH]; intros i Hi; cbn [SplitPathsReverse_skip]; [lia|].
  destruct (i >? rootLength) eqn:Hgt; cbn [andb]; [|lia].
  destruct (negb (IsDirectorySeparator (WString.at_ dir i))); [|lia].
  apply Z.gtb_lt in Hgt. specialize (IH (i - 1)). lia.
Qed.

Lemma SplitPathsReverse_loop_fuel rootLength :
  0 <= rootLength ->
  forall fuel i dir atoms extra,
    (Z.to_nat i < fuel)%nat ->
    SplitPathsReverse_loop (fuel + extra) rootLength i dir atoms
    = SplitPathsReverse_loop fuel rootLength i dir atoms.
Proof.
  intros Hroot. induction fuel as [|fuel IH]; intros i dir atoms extra Hfuel; [lia|].
  cbn [Nat.add SplitPathsReverse_loop].
  destruct (i >=? rootLength) eqn:Hge; [|reflexivity].
  apply Z.geb_le in Hge.
  pose proof (SplitPathsReverse_skip_range dir rootLength (S (Z.to_nat i)) i Hge) as Hr.
  destruct (SplitPathsReverse_skip (S (Z.to_nat i)) dir rootLength i =? 0) eqn:Hz;
    [reflexivity|].
  apply Z.eqb_neq in Hz. apply IH. lia.
Qed.

Lemma TryResolveRelativeTarget_dots_fuel result relativeTarget :
  forall fuel pos length lastSeparator processed extra,
    (Z.to_nat length <= fuel)%nat ->
    TryResolveRelativeTarget_dots (fuel + extra) result relativeTarget
                                  pos length lastSeparator processed
    = TryResolveRelativeTarget_dots fuel result relativeTarget
                                    pos length lastSeparator processed.
Proof.
  induction fuel as [|fuel IH]; intros pos length lastSeparator processed extra Hfuel.
  - assert (Hlen : length <= 0) by lia.
    destruct extra as [|extra]; [reflexivity|].
    cbn [Nat.add TryResolveRelativeTarget_dots].
    unfold startWithDotDotSlash, startWithDotSlash.
    replace (length >=? 3) with false by (symmetry; rewrite Z.geb_leb; apply Z.leb_gt; lia).
    replace (length >=? 2) with false by (symmetry; rewrite Z.geb_leb; apply Z.leb_gt; lia).
    reflexivity.
  - cbn [Nat.add TryResolveRelativeTarget_dots].
    destruct (startWithDotSlash relativeTarget pos length) eqn:Hds.
    + destruct ((startWithDotDotSlash relativeTarget pos length || true)
                && negb (lastSeparator =? npos)); [|reflexivity].
      apply IH. unfold startWithDotSlash in Hds.
      destruct (length >=? 2) eqn:Hl; [|discriminate Hds].
      rewrite Z.geb_leb in Hl. apply Z.leb_le in Hl. lia.
    + destruct (startWithDotDotSlash relativeTarget pos length) eqn:Hdds;
        cbn [orb andb]; [|reflexivity].
      destruct (negb (lastSeparator =? npos)); [|reflexivity].
      apply IH. unfold startWithDotDotSlash in Hdds.
      destruct (length >=? 3) eqn:Hl; [|discriminate Hdds].
      rewrite Z.geb_leb in Hl. apply Z.leb_le in Hl. lia.
Qed.

(** The index arithmetic behind C4: stepping back from a separator at
    index 0 wraps around to [npos], and the search starts again from the
    end of the string. *)
Lemma find_last_of_wraps_at_zero :
  size_sub 0 1 = npos
  /\ WString.find_last_of "\\server\share\dir\link" WString.backslash (size_sub 0 1) = 18.
Proof. split; vm_compute; reflexivity. Qed.

(** C4 (the code at the failing input). The prefix has five separators,
    the target six leading [..\]: the composer does not fail, it returns a
    path under the prefix. *)
Theorem TryResolveRelativeTarget_simple_escapes_root (GetRootLength : string -> size_t) :
  TryResolveRelativeTarget_simple GetRootLength
    "\\server\share\dir\link" "..\..\..\..\..\..\x" None None
  = (true, "\\server\share\x", None, None).
Proof. vm_compute. reflexivity. Qed.

(** The same input reached through [TryGetNextPath]: the link
    [\\server\share\dir\link] with that target resolves, to a path on the
    share. *)
Lemma TryGetNextPath_unc_escapes_root :
  fst <$> TryGetNextPath Example.unc_share (Example.globals false false Example.report_all)
            Example.unc_root_length 8 "\\server\share\dir\link" INVALID_HANDLE_VALUE ""
            (Example.policy true "\\server\share\dir\link") (Example.fresh_world 0)
  = Some (true, "\\server\share\x").
Proof. vm_compute. reflexivity. Qed.

(** With a prefix that has no separator at index 0 the same target is
    refused. *)
Lemma TryResolveRelativeTarget_simple_refuses (GetRootLength : string -> size_t) :
  fst (fst (fst (TryResolveRelativeTarget_simple GetRootLength
                   "C:\share\dir\link" "..\..\..\..\..\..\x" None None))) = false.
Proof. vm_compute. reflexivity. Qed.

(* ===================================================================== *)
(** ** The reparse target reader: last error and cache *)
(* ===================================================================== *)

Section ReaderProperties.

Variable os : OS.
Variable g : Globals.

Lemma IsReparsePoint_lastError path h w :
  lastError (snd (IsReparsePoint os path h w)) = lastError w.
Proof.
  unfold IsReparsePoint, GetFileInformationByHandle, GetFileAttributesW.
  case_bool_decide; [destruct (os_GetFileInformationByHandle os h)|]; reflexivity.
Qed.

Lemma IsReparsePoint_cache path h w :
  cache (snd (IsReparsePoint os path h w)) = cache w.
Proof.
  unfold IsReparsePoint, GetFileInformationByHandle, GetFileAttributesW.
  case_bool_decide; [destruct (os_GetFileInformationByHandle os h)|]; reflexivity.
Qed.

Lemma IsReparsePoint_no_DeviceIoControl path h w :
  DeviceIoControl_calls (snd (IsReparsePoint os path h w)) = DeviceIoControl_calls w.
Proof.
  unfold IsReparsePoint, GetFileInformationByHandle, GetFileAttributesW, DeviceIoControl_calls.
  case_bool_decide; [destruct (os_GetFileInformationByHandle os h)|];
    cbn; rewrite ?filter_app; cbn; rewrite ?app_nil_r; reflexivity.
Qed.

(** The answer of [IsReparsePoint] depends on the file system alone. *)
Lemma IsReparsePoint_answer path h w w' :
  fst (IsReparsePoint os path h w) = fst (IsReparsePoint os path h w').
Proof.
  unfold IsReparsePoint, GetFileInformationByHandle, GetFileAttributesW.
  case_bool_decide; [destruct (os_GetFileInformationByHandle os h)|]; reflexivity.
Qed.

Lemma Epilogue_lastError hFile hInput e w :
  lastError (TryGetReparsePointTarget_Epilogue os hFile hInput e w) = e.
Proof. reflexivity. Qed.

Lemma Error_lastError path target hFile hInput e pr w :
  lastError (TryGetReparsePointTarget_Error os g path target hFile hInput e pr w) = e.
Proof. reflexivity. Qed.

Lemma InsertResolvingCheckResult_lastError path b pr w :
  lastError (PathCache_InsertResolvingCheckResult g path b pr w) = lastError w.
Proof. unfold PathCache_InsertResolvingCheckResult. destruct (PathCache_bypassed g pr); reflexivity. Qed.

Lemma InsertResolvingCheckResult_trace path b pr w :
  trace (PathCache_InsertResolvingCheckResult g path b pr w) = trace w.
Proof. unfold PathCache_InsertResolvingCheckResult. destruct (PathCache_bypassed g pr); reflexivity. Qed.

Lemma resolving_check_lastError path h pr w :
  lastError (snd (resolving_check os g path h pr w)) = lastError w.
Proof.
  unfold resolving_check.
  destruct (PathCache_GetResolvingCheckResult g path pr w); [reflexivity|].
  pose proof (IsReparsePoint_lastError path h w) as H.
  destruct (IsReparsePoint os path h w) as [b w1]; cbn in *.
  rewrite InsertResolvingCheckResult_lastError. exact H.
Qed.

Lemma TryGetReparsePointTarget_unfold fuel path hInput target pr w :
  TryGetReparsePointTarget os g fuel path hInput target pr w =
  let '(isReparsePoint, w) := resolving_check os g path hInput pr w in
  if negb isReparsePoint then Some (false, target, w)
  else
    let lastError := GetLastError w in
    match PathCache_GetResolvedPathAndType g path pr w with
    | Some (first, second) =>
        if second =? 0
        then Some (false, first,
                   TryGetReparsePointTarget_Epilogue os INVALID_HANDLE_VALUE hInput lastError w)
        else Some (true, first,
                   TryGetReparsePointTarget_Epilogue os INVALID_HANDLE_VALUE hInput lastError w)
    | None =>
        let '(hFile, w) :=
          if bool_decide (hInput <> INVALID_HANDLE_VALUE)
          then (hInput, w)
          else CreateFileW os path GENERIC_READ
                 (Z.lor FILE_SHARE_READ (Z.lor FILE_SHARE_DELETE FILE_SHARE_WRITE))
                 OPEN_EXISTING
                 (Z.lor FILE_FLAG_OPEN_REPARSE_POINT FILE_FLAG_BACKUP_SEMANTICS) w in
        if bool_decide (hFile = INVALID_HANDLE_VALUE)
        then Some (false, target,
                   TryGetReparsePointTarget_Error os g path target hFile hInput lastError pr w)
        else
          match QueryReparsePoint os fuel hFile
                  INITIAL_REPARSE_DATA_BUILDXL_DETOURS_BUFFER_SIZE_FOR_FILE_NAMES
                  ERROR_INSUFFICIENT_BUFFER empty_buffer w with
          | None => None
          | Some (errorCode, buffer, w) =>
              if negb (errorCode =? ERROR_SUCCESS)
              then Some (false, target,
                         TryGetReparsePointTarget_Error os g path target hFile hInput
                                                        lastError pr w)
              else
                if negb (IsActionableReparsePointType (ReparseTag buffer))
                then Some (false, target,
                           TryGetReparsePointTarget_Error os g path target hFile hInput
                                                          lastError pr w)
                else
                  Some (true, GetTargetNameFromReparseData buffer (ReparseTag buffer) target,
                        TryGetReparsePointTarget_Epilogue os hFile hInput lastError
                          (PathCache_InsertResolvedPathWithType g path
                             (GetTargetNameFromReparseData buffer (ReparseTag buffer) target)
                             (ReparseTag buffer) pr w))
          end
    end.
Proof.
  unfold TryGetReparsePointTarget, resolving_check.
  destruct (PathCache_GetResolvingCheckResult g path pr w);
    [|destruct (IsReparsePoint os path hInput w)]; reflexivity.
Qed.

Lemma TryGetReparsePointTarget_lastError fuel path hInput target pr w status target' w' :
  TryGetReparsePointTarget os g fuel path hInput target pr w = Some (status, target', w') ->
  lastError w' = lastError w.
Proof.
  rewrite TryGetReparsePointTarget_unfold.
  pose proof (resolving_check_lastError path hInput pr w) as Hle.
  destruct (resolving_check os g path hInput pr w) as [b w1]; cbn in Hle.
  intros H. unfold GetLastError in H.
  repeat case_match; simplify_eq; cbn; try exact Hle.
Qed.

Lemma QueryReparsePoint_cache fuel :
  forall hFile bufferSize errorCode buffer w errorCode' buffer' w',
    QueryReparsePoint os fuel hFile bufferSize errorCode buffer w
    = Some (errorCode', buffer', w') ->
    cache w' = cache w.
Proof.
  induction fuel as [|fuel IH]; intros hFile bufferSize errorCode buffer w e' b' w' H;
    cbn [QueryReparsePoint] in H;
    destruct ((errorCode =? ERROR_MORE_DATA) || (errorCode =? ERROR_INSUFFICIENT_BUFFER));
    try discriminate; try (injection H as <- <- <-; reflexivity).
  unfold DeviceIoControl in H.
  destruct (os_DeviceIoControl os hFile bufferSize) as [success buf].
  destruct success; apply IH in H; exact H.
Qed.

(** With the cache in use, the memo of the reparse-point test holds the
    answer after the first block. *)
Lemma resolving_check_memo path h pr w b wa :
  PathCache_bypassed g pr = false ->
  resolving_check os g path h pr w = (b, wa) ->
  ResolvedPathCacheOps.GetResolvingCheckResult path (cache wa) = Some b.
Proof.
  intros Hc. unfold resolving_check, PathCache_GetResolvingCheckResult,
    PathCache_InsertResolvingCheckResult. rewrite Hc.
  destruct (ResolvedPathCacheOps.GetResolvingCheckResult path (cache w)) eqn:Hm.
  - intros [= <- <-]. exact Hm.
  - destruct (IsReparsePoint os path h w) as [b0 w0]. intros [= <- <-].
    unfold ResolvedPathCacheOps.GetResolvingCheckResult; cbn.
    apply lookup_insert_eq.
Qed.

Lemma resolving_check_targets path h pr w :
  resolvedTargets (cache (snd (resolving_check os g path h pr w))) = resolvedTargets (cache w).
Proof.
  unfold resolving_check.
  destruct (PathCache_GetResolvingCheckResult g path pr w); [reflexivity|].
  pose proof (IsReparsePoint_cache path h w) as H.
  destruct (IsReparsePoint os path h w) as [b w0]; cbn in *.
  unfold PathCache_InsertResolvingCheckResult.
  destruct (PathCache_bypassed g pr); cbn; rewrite H; reflexivity.
Qed.

(** A later call that finds the negative memo of the test returns at
    once. *)
Lemma TryGetReparsePointTarget_memo_false fuel path h target pr w :
  PathCache_bypassed g pr = false ->
  ResolvedPathCacheOps.GetResolvingCheckResult path (cache w) = Some false ->
  TryGetReparsePointTarget os g fuel path h target pr w = Some (false, target, w).
Proof.
  intros Hc Hm. unfold TryGetReparsePointTarget, PathCache_GetResolvingCheckResult.
  rewrite Hc, Hm. reflexivity.
Qed.

(** A later call that finds the type-0 memo returns without a call to
    the operating system. *)
Lemma TryGetReparsePointTarget_memo_type0 fuel path h target pr w t :
  PathCache_bypassed g pr = false ->
  ResolvedPathCacheOps.GetResolvingCheckResult path (cache w) = Some true ->
  ResolvedPathCacheOps.GetResolvedPathAndType path (cache w) = Some (t, 0) ->
  TryGetReparsePointTarget os g fuel path h target pr w
  = Some (false, t, SetLastError (lastError w) w).
Proof.
  intros Hc Hm Ht.
  unfold TryGetReparsePointTarget, PathCache_GetResolvingCheckResult,
    PathCache_GetResolvedPathAndType.
  rewrite Hc, Hm. cbn. rewrite Ht. reflexivity.
Qed.

(** What a call that answers false leaves in the cache, when the cache
    is in use. *)
Lemma TryGetReparsePointTarget_false_memo fuel path hInput target pr w target1 w1 :
  PathCache_bypassed g pr = false ->
  TryGetReparsePointTarget os g fuel path hInput target pr w = Some (false, target1, w1) ->
  ResolvedPathCacheOps.GetResolvingCheckResult path (cache w1) = Some false
  \/ (ResolvedPathCacheOps.GetResolvingCheckResult path (cache w1) = Some true
      /\ exists t, ResolvedPathCacheOps.GetResolvedPathAndType path (cache w1) = Some (t, 0)).
Proof.
  intros Hc. rewrite TryGetReparsePointTarget_unfold.
  destruct (resolving_check os g path hInput pr w) as [b wa] eqn:Hrc.
  pose proof (resolving_check_memo _ _ _ _ _ _ Hc Hrc) as Hmemo.
  destruct b; cbn [negb].
  2:{ intros [= <- <-]. left. exact Hmemo. }
  intros H. right.
  unfold PathCache_GetResolvedPathAndType in H. rewrite Hc in H.
  destruct (ResolvedPathCacheOps.GetResolvedPathAndType path (cache wa))
    as [[first second]|] eqn:Ht.
  - destruct (second =? 0) eqn:Hz; [|discriminate].
    injection H as <- <-. apply Z.eqb_eq in Hz. subst second.
    split; [exact Hmemo|]. exists first. exact Ht.
  - assert (Herr : forall hFile e wq,
               cache wq = cache wa ->
               let w' := TryGetReparsePointTarget_Error os g path target hFile hInput e pr wq in
               ResolvedPathCacheOps.GetResolvingCheckResult path (cache w') = Some true
               /\ exists t, ResolvedPathCacheOps.GetResolvedPathAndType path (cache w')
                            = Some (t, 0)).
    { intros hFile e wq Hq. cbn zeta.
      unfold TryGetReparsePointTarget_Error, PathCache_InsertResolvedPathWithType.
      rewrite Hc.
      assert (Hcache : forall wx,
                cache (TryGetReparsePointTarget_Epilogue os hFile hInput e wx) = cache wx).
      { intros wx. unfold TryGetReparsePointTarget_Epilogue.
        destruct (_ && _); reflexivity. }
      rewrite Hcache. cbn. rewrite Hq. split; [exact Hmemo|].
      exists target. unfold ResolvedPathCacheOps.GetResolvedPathAndType; cbn.
      apply lookup_insert_eq. }
    revert H.
    match goal with |- context [if ?c then (hInput, wa) else ?e] =>
      destruct (if c then (hInput, wa) else e) as [hFile w2] eqn:Hopen end.
    assert (Hw2 : cache w2 = cache wa).
    { revert Hopen. case_bool_decide; intros [= <- <-]; reflexivity. }
    destruct (bool_decide (hFile = INVALID_HANDLE_VALUE)).
    + intros [= <- <-]. apply Herr. exact Hw2.
    + destruct (QueryReparsePoint os fuel hFile _ _ _ w2) as [[[e b'] w3]|] eqn:Hq;
        [|discriminate].
      apply QueryReparsePoint_cache in Hq.
      repeat case_match; intros [= <- <-]; apply Herr; congruence.
Qed.

(** Enough fuel for the growing-buffer loop: with [n] doublings left
    before the buffer reaches 32 KiB, [n + 1] rounds settle it. *)
Lemma QueryReparsePoint_settles (Hb : reparse_buffer_bounded os) n :
  forall fuel hFile bufferSize errorCode buffer w,
    (n < fuel)%nat ->
    0 < bufferSize ->
    32768 <= bufferSize * 2 ^ Z.of_nat n < DWORD_modulus ->
    is_Some (QueryReparsePoint os fuel hFile bufferSize errorCode buffer w).
Proof.
  induction n as [|n IH]; intros fuel hFile bufferSize errorCode buffer w Hfuel Hsz Hn;
    (destruct fuel as [|fuel]; [lia|]); cbn [QueryReparsePoint];
    (destruct ((errorCode =? ERROR_MORE_DATA) || (errorCode =? ERROR_INSUFFICIENT_BUFFER));
       [|eauto]);
    unfold DeviceIoControl;
    destruct (os_DeviceIoControl os hFile bufferSize) as [success buf] eqn:Hio;
    (destruct success; [destruct fuel; cbn; eauto|]).
  - destruct (Hb hFile bufferSize (lastError w)) as [H1 H2];
      [ change (2 ^ Z.of_nat 0) with 1 in Hn; lia | rewrite Hio; reflexivity | ].
    destruct fuel; cbn [QueryReparsePoint];
      unfold GetLastError, os_call; cbn [lastError];
      apply Z.eqb_neq in H1, H2; rewrite H1, H2; cbn; eauto.
  - assert (Hpow : 2 ^ Z.of_nat (S n) = 2 * 2 ^ Z.of_nat n)
      by (rewrite Nat2Z.inj_succ, Z.pow_succ_r; lia).
    assert (Hpos : 0 < 2 ^ Z.of_nat n) by (apply Z.pow_pos_nonneg; lia).
    rewrite Hpow in Hn.
    assert (Hmul : dword_mul bufferSize 2 = bufferSize * 2).
    { unfold dword_mul. apply Z.mod_small. nia. }
    rewrite Hmul. apply IH; [lia|lia|lia].
Qed.

(** With the bound on the device query, six rounds of the loop are
    enough for [TryGetReparsePointTarget] to return. *)
Lemma TryGetReparsePointTarget_returns (Hb : reparse_buffer_bounded os)
    fuel path hInput target pr w :
  (6 <= fuel)%nat ->
  is_Some (TryGetReparsePointTarget os g fuel path hInput target pr w).
Proof.
  intros Hfuel. rewrite TryGetReparsePointTarget_unfold.
  destruct (resolving_check os g path hInput pr w) as [b w1].
  destruct (negb b); [eauto|].
  destruct (PathCache_GetResolvedPathAndType g path pr w1) as [[first second]|];
    [destruct (second =? 0); eauto|].
  match goal with |- context [if ?c then (hInput, w1) else ?e] =>
    destruct (if c then (hInput, w1) else e) as [hFile w2] end.
  case_bool_decide; [eauto|].
  destruct (QueryReparsePoint_settles Hb 5 fuel hFile
              INITIAL_REPARSE_DATA_BUILDXL_DETOURS_BUFFER_SIZE_FOR_FILE_NAMES
              ERROR_INSUFFICIENT_BUFFER empty_buffer w2) as [[[e b'] w3] Hq];
    [lia | reflexivity | vm_compute; split; [discriminate|reflexivity] | ].
  rewrite Hq. repeat case_match; eauto.
Qed.

End ReaderProperties.

(** A call on a path that the file system does not flag as a reparse
    point, with no memo of the test: the answer and the state it leaves. *)
Lemma TryGetReparsePointTarget_not_flagged (os : OS) (g : Globals)
    fuel path hInput target pr w :
  (forall w0, fst (IsReparsePoint os path hInput w0) = false) ->
  PathCache_GetResolvingCheckResult g path pr w = None ->
  TryGetReparsePointTarget os g fuel path hInput target pr w
  = Some (false, target,
          PathCache_InsertResolvingCheckResult g path false pr
            (snd (IsReparsePoint os path hInput w))).
Proof.
  intros Hnot Hmiss. unfold TryGetReparsePointTarget. rewrite Hmiss.
  specialize (Hnot w). destruct (IsReparsePoint os path hInput w) as [b w0].
  cbn in Hnot. subst b. reflexivity.
Qed.

(** C3 (amended). A path that is not flagged as a reparse point: the call
    answers false, issues no device-level reparse query, leaves the target
    memo as it was and, with the cache in use, memoizes the negative test;
    a second call answers false without a device-level query. And whenever
    a call answers false with the cache in use, a negative memo is in the
    cache afterwards (the memo of the test, or the type-0 target memo of a
    flagged path whose query failed or was not actionable) and any later
    call answers false without a single call to the operating system. *)
Theorem TryGetReparsePointTarget_negative_caching (os : OS) (g : Globals) :
  (forall fuel path hInput target pr w,
      (forall w0, fst (IsReparsePoint os path hInput w0) = false) ->
      PathCache_GetResolvingCheckResult g path pr w = None ->
      exists w1,
        TryGetReparsePointTarget os g fuel path hInput target pr w = Some (false, target, w1)
        /\ DeviceIoControl_calls w1 = DeviceIoControl_calls w
        /\ resolvedTargets (cache w1) = resolvedTargets (cache w)
        /\ (PathCache_bypassed g pr = false ->
            ResolvedPathCacheOps.GetResolvingCheckResult path (cache w1) = Some false)
        /\ forall fuel2 target2, exists w2,
             TryGetReparsePointTarget os g fuel2 path hInput target2 pr w1
             = Some (false, target2, w2)
             /\ DeviceIoControl_calls w2 = DeviceIoControl_calls w1)
  /\ (forall fuel path hInput target pr w target1 w1,
        PathCache_bypassed g pr = false ->
        TryGetReparsePointTarget os g fuel path hInput target pr w = Some (false, target1, w1) ->
        (ResolvedPathCacheOps.GetResolvingCheckResult path (cache w1) = Some false
         \/ exists t, ResolvedPathCacheOps.GetResolvedPathAndType path (cache w1) = Some (t, 0))
        /\ forall fuel2 hInput2 target2, exists target3 w2,
             TryGetReparsePointTarget os g fuel2 path hInput2 target2 pr w1
             = Some (false, target3, w2)
             /\ trace w2 = trace w1).
Proof.
  split.
  - intros fuel path hInput target pr w Hnot Hmiss.
    eexists. split; [apply TryGetReparsePointTarget_not_flagged; assumption|].
    assert (Hio : forall wx,
              DeviceIoControl_calls
                (PathCache_InsertResolvingCheckResult g path false pr
                   (snd (IsReparsePoint os path hInput wx)))
              = DeviceIoControl_calls wx).
    { intros wx. unfold DeviceIoControl_calls.
      rewrite InsertResolvingCheckResult_trace.
      apply (IsReparsePoint_no_DeviceIoControl os). }
    split; [apply Hio|]. split; [|split].
    + unfold PathCache_InsertResolvingCheckResult.
      destruct (PathCache_bypassed g pr); cbn; rewrite IsReparsePoint_cache; reflexivity.
    + intros Hc. unfold PathCache_InsertResolvingCheckResult. rewrite Hc.
      unfold ResolvedPathCacheOps.GetResolvingCheckResult; cbn. apply lookup_insert_eq.
    + intros fuel2 target2.
      destruct (PathCache_bypassed g pr) eqn:Hc.
      * eexists. split.
        -- apply TryGetReparsePointTarget_not_flagged; [assumption|].
           unfold PathCache_GetResolvingCheckResult. rewrite Hc. reflexivity.
        -- apply Hio.
      * eexists. split; [|reflexivity].
        apply TryGetReparsePointTarget_memo_false; [assumption|].
        unfold PathCache_InsertResolvingCheckResult. rewrite Hc.
        unfold ResolvedPathCacheOps.GetResolvingCheckResult; cbn. apply lookup_insert_eq.
  - intros fuel path hInput target pr w target1 w1 Hc H.
    destruct (TryGetReparsePointTarget_false_memo os g _ _ _ _ _ _ _ _ Hc H)
      as [Hm | [Hm [t Ht]]].
    + split; [left; exact Hm|]. intros fuel2 hInput2 target2.
      exists target2, w1. split; [|reflexivity].
      apply TryGetReparsePointTarget_memo_false; assumption.
    + split; [right; exists t; exact Ht|]. intros fuel2 hInput2 target2.
      exists t, (SetLastError (lastError w1) w1). split; [|reflexivity].
      apply TryGetReparsePointTarget_memo_type0; assumption.
Qed.

(** C10. Probing a path for reparse information leaves the thread's last
    error as it found it: [IsReparsePoint] on both its paths, and
    [TryGetReparsePointTarget] on every path on which it returns, whatever
    the calls to the operating system did to the last error in between;
    and with the bound on the device query it does return. *)
Theorem TryGetReparsePointTarget_preserves_last_error (os : OS) (g : Globals) :
  (forall path hFile w,
      lastError (snd (IsReparsePoint os path hFile w)) = lastError w)
  /\ (forall fuel path hInput target pr w status target' w',
        TryGetReparsePointTarget os g fuel path hInput target pr w = Some (status, target', w') ->
        lastError w' = lastError w)
  /\ (reparse_buffer_bounded os ->
      forall fuel path hInput target pr w,
        (6 <= fuel)%nat ->
        exists status target' w',
          TryGetReparsePointTarget os g fuel path hInput target pr w
          = Some (status, target', w')
          /\ lastError w' = lastError w).
Proof.
  split; [|split].
  - apply IsReparsePoint_lastError.
  - apply TryGetReparsePointTarget_lastError.
  - intros Hb fuel path hInput target pr w Hfuel.
    destruct (TryGetReparsePointTarget_returns os g Hb fuel path hInput target pr w Hfuel)
      as [[[status target'] w'] H].
    exists status, target', w'. split; [exact H|].
    eapply TryGetReparsePointTarget_lastError. exact H.
Qed.

(* ===================================================================== *)
(** ** The reader on concrete file systems *)
(* ===================================================================== *)

(** The file systems of [Example] answer a device query that fails on a
    large buffer with an error other than a request for more room. *)
Lemma Example_file_system_bounded (nodes : list Example.Node) :
  Forall (fun n => match Example.node_data n with
                   | Some d => Example.buffer_need d <= 32768
                   | None => True
                   end) nodes ->
  reparse_buffer_bounded (Example.file_system nodes).
Proof.
  intros Hall h size e Hsize Hfail. cbn in *.
  unfold Example.ioctl, Example.last_error in *.
  destruct (Example.node_of_handle nodes h) as [n|] eqn:Hn.
  - assert (Hin : In n nodes).
    { unfold Example.node_of_handle in Hn. destruct (1 <=? h); [|discriminate].
      eapply nth_error_In. exact Hn. }
    rewrite List.Forall_forall in Hall. specialize (Hall n Hin).
    destruct n as [p a [d|]]; cbn in *.
    + destruct (Z.leb_spec (Example.buffer_need d) size); [discriminate Hfail | lia].
    + split; discriminate.
  - split; discriminate.
Qed.

Lemma chain_ABC_bounded : reparse_buffer_bounded Example.chain_ABC.
Proof.
  apply Example_file_system_bounded.
  repeat constructor; vm_compute; discriminate.
Qed.

Lemma TryGetReparsePointTarget_preserves_last_error_witness :
  let g := Example.globals false false Example.report_all in
  let pr := Example.policy true "C:\A" in
  lastError (snd (IsReparsePoint Example.chain_ABC "C:\A" INVALID_HANDLE_VALUE
                                 (Example.fresh_world 87))) = 87
  /\ (exists status target' w',
        TryGetReparsePointTarget Example.chain_ABC g 6 "C:\A" INVALID_HANDLE_VALUE ""
                                 pr (Example.fresh_world 87)
        = Some (status, target', w')
        /\ lastError w' = 87).
Proof.
  intros g pr.
  destruct (TryGetReparsePointTarget_preserves_last_error Example.chain_ABC g)
    as [H1 [H2 H3]].
  split.
  - exact (H1 "C:\A" INVALID_HANDLE_VALUE (Example.fresh_world 87)).
  - destruct (H3 chain_ABC_bounded 6%nat "C:\A" INVALID_HANDLE_VALUE "" pr
                 (Example.fresh_world 87) (le_n 6)) as (status & target' & w' & Hr & Hle).
    exists status, target', w'. split; [exact Hr|].
    exact (H2 _ _ _ _ _ _ _ _ _ Hr).
Defined.

(** C3 (counterexample). For a plain file the call answers false and the
    cache holds the negative memo of the test, but no type-0 target memo. *)
Lemma TryGetReparsePointTarget_plain_file_no_type0_memo :
  let g := Example.globals false false Example.report_all in
  let pr := Example.policy true "C:\file.txt" in
  exists w1,
    TryGetReparsePointTarget Example.plain_file g 6 "C:\file.txt" INVALID_HANDLE_VALUE ""
                             pr (Example.fresh_world 0)
    = Some (false, "", w1)
    /\ ResolvedPathCacheOps.GetResolvingCheckResult "C:\file.txt" (cache w1) = Some false
    /\ ResolvedPathCacheOps.GetResolvedPathAndType "C:\file.txt" (cache w1) = None.
Proof.
  intros g pr.
  exists (PathCache_InsertResolvingCheckResult g "C:\file.txt" false pr
            (snd (IsReparsePoint Example.plain_file "C:\file.txt" INVALID_HANDLE_VALUE
                                 (Example.fresh_world 0)))).
  repeat split; vm_compute; reflexivity.
Qed.

Lemma TryGetReparsePointTarget_negative_caching_witness :
  let g := Example.globals false false Example.report_all in
  (exists w1,
      TryGetReparsePointTarget Example.plain_file g 6 "C:\file.txt" INVALID_HANDLE_VALUE ""
                               (Example.policy true "C:\file.txt") (Example.fresh_world 0)
      = Some (false, "", w1)
      /\ DeviceIoControl_calls w1 = []
      /\ forall fuel2 target2, exists w2,
           TryGetReparsePointTarget Example.plain_file g fuel2 "C:\file.txt"
             INVALID_HANDLE_VALUE target2 (Example.policy true "C:\file.txt") w1
           = Some (false, target2, w2)
           /\ DeviceIoControl_calls w2 = DeviceIoControl_calls w1)
  /\ (exists target1 w1,
        TryGetReparsePointTarget Example.app_link g 6 "C:\app.exe" INVALID_HANDLE_VALUE ""
                                 (Example.policy true "C:\app.exe") (Example.fresh_world 0)
        = Some (false, target1, w1)
        /\ (exists t, ResolvedPathCacheOps.GetResolvedPathAndType "C:\app.exe" (cache w1)
                      = Some (t, 0))
        /\ forall fuel2 hInput2 target2, exists target3 w2,
             TryGetReparsePointTarget Example.app_link g fuel2 "C:\app.exe" hInput2 target2
                                      (Example.policy true "C:\app.exe") w1
             = Some (false, target3, w2)
             /\ trace w2 = trace w1).
Proof.
  intros g. split.
  - destruct (proj1 (TryGetReparsePointTarget_negative_caching Example.plain_file g)
                6%nat "C:\file.txt" INVALID_HANDLE_VALUE ""
                (Example.policy true "C:\file.txt") (Example.fresh_world 0))
      as (w1 & Hr & Hio & _ & _ & Hsecond).
    + intros w0. reflexivity.
    + vm_compute. reflexivity.
    + exists w1. split; [exact Hr|]. split; [rewrite Hio; reflexivity|exact Hsecond].
  - destruct (TryGetReparsePointTarget Example.app_link g 6 "C:\app.exe"
                INVALID_HANDLE_VALUE "" (Example.policy true "C:\app.exe")
                (Example.fresh_world 0)) as [[[status target1] w1]|] eqn:Hr.
    2:{ vm_compute in Hr. discriminate Hr. }
    assert (Hs : status = false).
    { pose proof Hr as Hr'. vm_compute in Hr'. injection Hr' as <- _ _. reflexivity. }
    subst status.
    assert (Ht : exists t, ResolvedPathCacheOps.GetResolvedPathAndType "C:\app.exe" (cache w1)
                           = Some (t, 0)).
    { pose proof Hr as Hr'. vm_compute in Hr'. injection Hr' as _ <-.
      eexists. vm_compute. reflexivity. }
    destruct (proj2 (TryGetReparsePointTarget_negative_caching Example.app_link g)
                6%nat "C:\app.exe" INVALID_HANDLE_VALUE ""
                (Example.policy true "C:\app.exe") (Example.fresh_world 0) target1 w1
                eq_refl Hr) as [_ Hsecond].
    exists target1, w1. split; [reflexivity|]. split; [exact Ht|exact Hsecond].
Defined.

(* ===================================================================== *)
(** ** The relative target resolver on the [repo] layout *)
(* ===================================================================== *)

Section RootLengthExtensionality.

Variable os : OS.
Variable g : Globals.
Variables rl1 rl2 : string -> size_t.
Hypothesis Hrl : forall s, rl1 s = rl2 s.

Lemma SplitPathsReverse_ext path atoms :
  SplitPathsReverse rl1 path atoms = SplitPathsReverse rl2 path atoms.
Proof. unfold SplitPathsReverse. rewrite Hrl. reflexivity. Qed.

Lemma TryResolveRelativeTarget_simple_ext result relativeTarget processed needToBeProcessed :
  TryResolveRelativeTarget_simple rl1 result relativeTarget processed needToBeProcessed
  = TryResolveRelativeTarget_simple rl2 result relativeTarget processed needToBeProcessed.
Proof.
  unfold TryResolveRelativeTarget_simple.
  repeat case_match; rewrite ?SplitPathsReverse_ext; reflexivity.
Qed.

Lemma TryResolveRelativeTarget_loop_ext fuel qfuel :
  forall needToBeProcessed processed result pr w,
    TryResolveRelativeTarget_loop os g rl1 fuel qfuel needToBeProcessed processed result pr w
    = TryResolveRelativeTarget_loop os g rl2 fuel qfuel needToBeProcessed processed result pr w.
Proof.
  induction fuel as [|fuel IH]; intros; [reflexivity|].
  cbn [TryResolveRelativeTarget_loop].
  repeat (case_match; try reflexivity);
    rewrite <- ?Hrl, ?TryResolveRelativeTarget_simple_ext, ?SplitPathsReverse_ext in *;
    simplify_eq; try apply IH; try reflexivity; try congruence.
Qed.

Lemma TryResolveRelativeTarget_ext fuel path relativeTarget result pr w :
  TryResolveRelativeTarget os g rl1 fuel path relativeTarget result pr w
  = TryResolveRelativeTarget os g rl2 fuel path relativeTarget result pr w.
Proof.
  unfold TryResolveRelativeTarget.
  rewrite SplitPathsReverse_ext, TryResolveRelativeTarget_loop_ext.
  repeat case_match; rewrite ?TryResolveRelativeTarget_simple_ext in *;
    simplify_eq; try reflexivity; congruence.
Qed.

Lemma TryGetNextPath_ext fuel path hInput result pr w :
  TryGetNextPath os g rl1 fuel path hInput result pr w
  = TryGetNextPath os g rl2 fuel path hInput result pr w.
Proof.
  unfold TryGetNextPath.
  repeat case_match; rewrite <- ?Hrl, ?TryResolveRelativeTarget_ext in *;
    simplify_eq; try reflexivity; congruence.
Qed.

End RootLengthExtensionality.

Lemma root_length_on_agrees (table : list (string * size_t)) (rl : string -> size_t) :
  (forall k v, In (k, v) table -> rl k = v) ->
  forall s, root_length_on table rl s = rl s.
Proof.
  intros H s. unfold root_length_on.
  destruct (List.find (fun kv => String.eqb (fst kv) s) table) as [[k v]|] eqn:Hf;
    [|reflexivity].
  apply List.find_some in Hf as [Hin Heq]. cbn in *.
  apply String.eqb_eq in Heq. subst k. symmetry. apply H. exact Hin.
Qed.

(** C1. On the [repo] layout, with [repo\source] a directory symlink to
    [intermediate\current], [repo\source\symlink1.link] (target
    [..\..\target\file1.txt]) resolves to [repo\target\file1.txt]: the
    prefix is replaced by its target first. With [repo\source] a junction,
    [repo\source\symlink2.link] (target [..\target\file2.txt]) resolves to
    [repo\target\file2.txt]: the prefix stays as it is. This holds for
    every root-length function that finds the paths involved unrooted,
    every configuration and policy, from an empty cache. *)
Theorem TryGetNextPath_directory_symlink_and_junction
    (GetRootLength : string -> size_t) (g : Globals) (pr : PolicyResult) (e : DWORD) :
  Forall (fun kv => GetRootLength (fst kv) = snd kv) repo_relative_paths ->
  (fst <$> TryGetNextPath Example.repo_with_directory_symlink g GetRootLength 8
             "repo\source\symlink1.link" INVALID_HANDLE_VALUE "" pr (Example.fresh_world e)
   = Some (true, "repo\target\file1.txt"))
  /\ (fst <$> TryResolveRelativeTarget Example.repo_with_directory_symlink g GetRootLength 8
                "repo\source\symlink1.link" "..\..\target\file1.txt" "" pr
                (Example.fresh_world e)
      = Some (true, "repo\target\file1.txt"))
  /\ (fst <$> TryGetNextPath Example.repo_with_junction g GetRootLength 8
                "repo\source\symlink2.link" INVALID_HANDLE_VALUE "" pr (Example.fresh_world e)
      = Some (true, "repo\target\file2.txt"))
  /\ (fst <$> TryResolveRelativeTarget Example.repo_with_junction g GetRootLength 8
                "repo\source\symlink2.link" "..\target\file2.txt" "" pr
                (Example.fresh_world e)
      = Some (true, "repo\target\file2.txt")).
Proof.
  intros Hroot.
  assert (Hrl : forall s, root_length_on repo_relative_paths GetRootLength s = GetRootLength s).
  { apply root_length_on_agrees. intros k v Hin.
    rewrite List.Forall_forall in Hroot. exact (Hroot (k, v) Hin). }
  assert (Hsym : forall s, GetRootLength s = root_length_on repo_relative_paths GetRootLength s)
    by (intros s; symmetry; apply Hrl).
  rewrite !(TryGetNextPath_ext _ _ _ _ Hsym), !(TryResolveRelativeTarget_ext _ _ _ _ Hsym).
  destruct g as [irp ifr mnt pds fua erd raa], pr as [pp efp tds ar arn aw acd ra rae ran].
  destruct irp, ifr, efp; repeat split; vm_compute; reflexivity.
Qed.

Lemma TryGetNextPath_directory_symlink_and_junction_witness :
  (fst <$> TryGetNextPath Example.repo_with_directory_symlink
             (Example.globals false false Example.report_all) Example.relative_root_length 8
             "repo\source\symlink1.link" INVALID_HANDLE_VALUE ""
             (Example.policy true "repo\source\symlink1.link") (Example.fresh_world 0)
   = Some (true, "repo\target\file1.txt"))
  /\ (fst <$> TryGetNextPath Example.repo_with_junction
                (Example.globals false false Example.report_all) Example.relative_root_length 8
                "repo\source\symlink2.link" INVALID_HANDLE_VALUE ""
                (Example.policy true "repo\source\symlink1.link") (Example.fresh_world 0)
      = Some (true, "repo\target\file2.txt")).
Proof.
  destruct (TryGetNextPath_directory_symlink_and_junction
              Example.relative_root_length
              (Example.globals false false Example.report_all)
              (Example.policy true "repo\source\symlink1.link") 0) as (H1 & _ & H3 & _).
  - repeat constructor.
  - split; [exact H1 | exact H3].
Defined.

(* ===================================================================== *)
(** ** The chain walker *)
(* ===================================================================== *)

Lemma emplace_present path t (m : ResolvedPathMap) v :
  m !! path_key path = Some v -> emplace path t m = m.
Proof. intros H. unfold emplace. rewrite H. reflexivity. Qed.

Lemma emplace_absent path t (m : ResolvedPathMap) :
  m !! path_key path = None -> emplace path t m = <[path_key path := t]> m.
Proof. intros H. unfold emplace. rewrite H. reflexivity. Qed.

Lemma map_at_emplace_old path t (m : ResolvedPathMap) q v :
  map_at m q = Some v -> map_at (emplace path t m) q = Some v.
Proof.
  unfold map_at, emplace. intros H.
  destruct (m !! path_key path) eqn:Hp; [exact H|].
  rewrite lookup_insert_ne; [exact H|]. intros Heq. rewrite Heq in Hp. congruence.
Qed.

Lemma all_Intermediate_empty : all_Intermediate ∅ [].
Proof.
  split.
  - intros q Hq. apply elem_of_nil in Hq. contradiction.
  - intros k v H. rewrite lookup_empty in H. discriminate.
Qed.

Lemma all_Intermediate_step (m : ResolvedPathMap) visited p :
  all_Intermediate m visited ->
  all_Intermediate (emplace p Intermediate m) (visited ++ [p]).
Proof.
  intros [Hv Hk]. split.
  - intros q Hq. apply elem_of_app in Hq as [Hq|Hq].
    + apply map_at_emplace_old. apply Hv. exact Hq.
    + apply list_elem_of_singleton in Hq. subst q. unfold map_at, emplace.
      destruct (m !! path_key p) as [v|] eqn:Hp.
      * destruct (Hk _ _ Hp) as [-> _]. exact Hp.
      * apply lookup_insert_eq.
  - intros k v H. rewrite map_app. unfold emplace in H.
    destruct (m !! path_key p) as [v0|] eqn:Hp.
    + destruct (Hk _ _ H) as [-> Hin]. split; [reflexivity|].
      apply elem_of_app. left. exact Hin.
    + destruct (decide (k = path_key p)) as [->|Hne].
      * rewrite lookup_insert_eq in H. injection H as <-. split; [reflexivity|].
        apply elem_of_app. right. cbn. apply list_elem_of_singleton. reflexivity.
      * rewrite lookup_insert_ne in H by congruence.
        destruct (Hk _ _ H) as [-> Hin]. split; [reflexivity|].
        apply elem_of_app. left. exact Hin.
Qed.

Section WalkerProperties.

Variable next : string -> HANDLE -> string -> World -> option (bool * string * World).
Variable canon : string -> string.

(** What every chain the walker returns looks like. *)
Lemma DetourGetFinalPaths_loop_shape fuel :
  forall path handle cur visited (m : ResolvedPathMap) w order m' w',
    all_Intermediate m visited ->
    DetourGetFinalPaths_loop next canon fuel path handle cur visited m w
    = Some (order, m', w') ->
    exists init l,
      order = (init ++ [l])%list
      /\ (forall q, q ∈ init -> map_at m' q = Some Intermediate)
      /\ ((exists h wl r,
             next l h "" wl = Some (false, r, w')
             /\ (path_key l ∉ map path_key init -> map_at m' l = Some FullyResolved))
          \/ (exists h wl raw w'',
                next l h "" wl = Some (true, raw, w'')
                /\ canon raw ∈ order
                /\ map_at m' l = Some Intermediate
                /\ forall k v, m' !! k = Some v -> v = Intermediate)).
Proof.
  induction fuel as [|fuel IH]; intros path handle cur visited m w order m' w' Hinv H;
    [discriminate|].
  cbn [DetourGetFinalPaths_loop] in H. unfold vector_push_back in H.
  destruct (next cur handle "" w) as [[[ok raw] w1]|] eqn:Hnext; [|discriminate].
  destruct ok.
  - case_bool_decide as Hcycle.
    + injection H as <- <- <-.
      pose proof (all_Intermediate_step _ _ cur Hinv) as [Hv Hk].
      exists visited, cur. split; [reflexivity|]. split.
      * intros q Hq. apply Hv. apply elem_of_app. left. exact Hq.
      * right. exists handle, w, raw, w1. repeat split; try assumption.
        -- apply Hv. apply elem_of_app. right. apply list_elem_of_singleton. reflexivity.
        -- intros k v Hkv. exact (proj1 (Hk _ _ Hkv)).
    + eapply IH; [|exact H]. apply all_Intermediate_step. exact Hinv.
  - injection H as <- <- <-.
    destruct Hinv as [Hv Hk].
    exists visited, cur. split; [reflexivity|]. split.
    + intros q Hq. apply map_at_emplace_old. apply Hv. exact Hq.
    + left. exists handle, w, raw. split; [exact Hnext|].
      intros Hfresh. unfold map_at.
      destruct (m !! path_key cur) as [v|] eqn:Hp.
      * destruct (Hk _ _ Hp) as [_ Hin]. contradiction.
      * rewrite emplace_absent by exact Hp. apply lookup_insert_eq.
Qed.


End WalkerProperties.

(** C2 (amended). In every chain the walker returns, all entries before
    the last are tagged Intermediate. The last entry is tagged
    FullyResolved when the walk ended because that path has no next path
    (and its key, up to case, is not that of an earlier entry); when the
    walk ended on a cycle the last entry is tagged Intermediate like all
    the others, and no entry is FullyResolved. *)
Theorem DetourGetFinalPaths_tags
    (next : string -> HANDLE -> string -> World -> option (bool * string * World))
    (canon : string -> string) (fuel : nat) (path : string) (hInput : HANDLE) (w : World)
    (order : list string) (m : ResolvedPathMap) (w' : World) :
  DetourGetFinalPaths next canon fuel path hInput [] ∅ w = Some (order, m, w') ->
  exists init l,
    order = (init ++ [l])%list
    /\ (forall q, q ∈ init -> map_at m q = Some Intermediate)
    /\ ((exists h wl r,
           next l h "" wl = Some (false, r, w')
           /\ (path_key l ∉ map path_key init -> map_at m l = Some FullyResolved))
        \/ (exists h wl raw w'',
              next l h "" wl = Some (true, raw, w'')
              /\ canon raw ∈ order
              /\ map_at m l = Some Intermediate
              /\ forall k v, m !! k = Some v -> v = Intermediate)).
Proof.
  unfold DetourGetFinalPaths. intros H.
  eapply DetourGetFinalPaths_loop_shape; [apply all_Intermediate_empty | exact H].
Qed.


(** C6. For an acyclic chain of three hops, A resolving to B, B to C and C
    having no next path, the walker returns the ordered chain [A; B; C]
    with A and B tagged Intermediate and C tagged FullyResolved. *)
Theorem DetourGetFinalPaths_three_hops
    (next : string -> HANDLE -> string -> World -> option (bool * string * World))
    (canon : string -> string) (hInput : HANDLE) (A B C : string) :
  resolves_to next canon A hInput B ->
  resolves_to next canon B INVALID_HANDLE_VALUE C ->
  has_no_next next C INVALID_HANDLE_VALUE ->
  path_key A <> path_key B -> path_key A <> path_key C -> path_key B <> path_key C ->
  forall fuel w,
    (3 <= fuel)%nat ->
    exists m w',
      DetourGetFinalPaths next canon fuel A hInput [] ∅ w = Some ([A; B; C], m, w')
      /\ map_at m A = Some Intermediate
      /\ map_at m B = Some Intermediate
      /\ map_at m C = Some FullyResolved.
Proof.
  intros HA HB HC Hab Hac Hbc fuel w Hfuel.
  destruct fuel as [|[|[|fuel]]]; try lia.
  unfold DetourGetFinalPaths. cbn [DetourGetFinalPaths_loop]. unfold vector_push_back. cbn [app].
  destruct (HA w) as (rawB & w1 & -> & ->).
  rewrite bool_decide_eq_false_2.
  2:{ rewrite list_elem_of_singleton. intros ->. congruence. }
  destruct (HB w1) as (rawC & w2 & -> & ->).
  rewrite bool_decide_eq_false_2.
  2:{ rewrite !elem_of_cons, elem_of_nil. intros [->|[->|[]]]; congruence. }
  destruct (HC w2) as (r & w3 & ->).
  eexists _, w3. split; [reflexivity|].
  unfold map_at, emplace.
  rewrite lookup_empty. rewrite (lookup_insert_ne _ (path_key A) (path_key B)) by exact Hab.
  rewrite lookup_empty.
  rewrite !(lookup_insert_ne _ _ (path_key C)) by congruence. rewrite lookup_empty.
  repeat split.
  - rewrite !(lookup_insert_ne _ _ (path_key A)) by congruence. apply lookup_insert_eq.
  - rewrite (lookup_insert_ne _ (path_key C) (path_key B)) by congruence.
    apply lookup_insert_eq.
  - apply lookup_insert_eq.
Qed.

(* ===================================================================== *)
(** ** The walker on concrete file systems *)
(* ===================================================================== *)

Lemma chain_ABC_A_to_B :
  resolves_to (Example.next_path Example.chain_ABC) Example.already_canonical
              "C:\A" INVALID_HANDLE_VALUE "C:\B".
Proof.
  intros [e c t]. eexists _, _. split; [vm_compute; reflexivity | reflexivity].
Qed.

Lemma chain_ABC_B_to_C :
  resolves_to (Example.next_path Example.chain_ABC) Example.already_canonical
              "C:\B" INVALID_HANDLE_VALUE "C:\C".
Proof.
  intros [e c t]. eexists _, _. split; [vm_compute; reflexivity | reflexivity].
Qed.

Lemma chain_ABC_C_last :
  has_no_next (Example.next_path Example.chain_ABC) "C:\C" INVALID_HANDLE_VALUE.
Proof. intros [e c t]. eexists _, _. vm_compute. reflexivity. Qed.



Lemma DetourGetFinalPaths_three_hops_witness :
  exists m w',
    DetourGetFinalPaths (Example.next_path Example.chain_ABC) Example.already_canonical 3
                        "C:\A" INVALID_HANDLE_VALUE [] ∅ (Example.fresh_world 0)
    = Some (["C:\A"; "C:\B"; "C:\C"], m, w')
    /\ map_at m "C:\A" = Some Intermediate
    /\ map_at m "C:\B" = Some Intermediate
    /\ map_at m "C:\C" = Some FullyResolved.
Proof.
  apply (DetourGetFinalPaths_three_hops
           (Example.next_path Example.chain_ABC) Example.already_canonical
           INVALID_HANDLE_VALUE "C:\A" "C:\B" "C:\C"
           chain_ABC_A_to_B chain_ABC_B_to_C chain_ABC_C_last).
  - vm_compute. discriminate.
  - vm_compute. discriminate.
  - vm_compute. discriminate.
  - lia.
Defined.



(** C2 (counterexample). On the cycle A -> B -> A the walk ends at B, and
    B is tagged Intermediate: no entry of the chain is FullyResolved. *)
Lemma DetourGetFinalPaths_cycle_last_Intermediate :
  exists m w',
    DetourGetFinalPaths (Example.next_path Example.cycle_AB) Example.already_canonical 5
                        "C:\A" INVALID_HANDLE_VALUE [] ∅ (Example.fresh_world 0)
    = Some (["C:\A"; "C:\B"], m, w')
    /\ map_at m "C:\B" = Some Intermediate
    /\ map_at m "C:\B" <> Some FullyResolved
    /\ map_at m "C:\A" = Some Intermediate.
Proof.
  eexists _, _. split; [vm_compute; reflexivity|].
  split; [vm_compute; reflexivity|].
  split; [vm_compute; discriminate | vm_compute; reflexivity].
Qed.

Lemma DetourGetFinalPaths_tags_witness :
  exists order m w',
    DetourGetFinalPaths (Example.next_path Example.chain_ABC) Example.already_canonical 5
                        "C:\A" INVALID_HANDLE_VALUE [] ∅ (Example.fresh_world 0)
    = Some (order, m, w')
    /\ exists init l,
         order = (init ++ [l])%list
         /\ (forall q, q ∈ init -> map_at m q = Some Intermediate)
         /\ ((exists h wl r,
                Example.next_path Example.chain_ABC l h "" wl = Some (false, r, w')
                /\ (path_key l ∉ map path_key init -> map_at m l = Some FullyResolved))
             \/ (exists h wl raw w'',
                   Example.next_path Example.chain_ABC l h "" wl = Some (true, raw, w'')
                   /\ Example.already_canonical raw ∈ order
                   /\ map_at m l = Some Intermediate
                   /\ forall k v, m !! k = Some v -> v = Intermediate)).
Proof.
  destruct (DetourGetFinalPaths (Example.next_path Example.chain_ABC)
              Example.already_canonical 5 "C:\A" INVALID_HANDLE_VALUE [] ∅
              (Example.fresh_world 0)) as [[[order m] w']|] eqn:H.
  - exists order, m, w'. split; [reflexivity|].
    exact (DetourGetFinalPaths_tags _ _ _ _ _ _ _ _ _ H).
  - vm_compute in H. discriminate H.
Defined.

(* ===================================================================== *)
(** ** Enforcement along a chain *)
(* ===================================================================== *)




Lemma quiet_same_trace w w1 : trace w1 = trace w -> quiet w w1.
Proof. intros H. exists []. split; [rewrite app_nil_r; exact H | reflexivity]. Qed.



Section EnforcerProperties.

Variable os : OS.
Variable g : Globals.
Variable init : string -> option PolicyResult.
Variable ierr : DWORD.

Hypothesis report_any : forall accessDenied, ReportAnyAccess g accessDenied = true.







End EnforcerProperties.

(* ===================================================================== *)
(** ** The operation context of a hop *)
(* ===================================================================== *)












(** How [EnforceChainOfReparsePointAccesses] reaches the loop: with a
    cached chain, or with the chain of the walker when resolving is
    ignored for the path. *)
Lemma EnforceChainOfReparsePointAccesses_cached
    os g init ierr resolveAll GetRootLength canon fuel path handle da sm cd fa isNtCreate pr
    pNt enforceAccess icd rp eafrp preserveLast w entries :
  IgnoreReparsePoints g || (isNtCreate && negb (MonitorNtCreateFile g)) = false ->
  PathCache_GetResolvedPaths g (GetPathStringWithoutTypePrefix path) preserveLast pr w
  = Some entries ->
  EnforceChainOfReparsePointAccesses os g init ierr resolveAll GetRootLength canon fuel path
    handle da sm cd fa isNtCreate pr pNt enforceAccess icd rp eafrp preserveLast w
  = EnforceChainOfReparsePointAccesses_loop os g init ierr (fst entries) (snd entries)
      da sm cd fa pr pNt enforceAccess icd rp eafrp "ReparsePointTargetCached" true w.
Proof.
  intros Hgate Hhit. unfold EnforceChainOfReparsePointAccesses.
  rewrite Hgate, Hhit. reflexivity.
Qed.

Lemma EnforceChainOfReparsePointAccesses_walked
    os g init ierr resolveAll GetRootLength canon fuel path handle da sm cd fa isNtCreate pr
    pNt enforceAccess icd rp eafrp preserveLast w order table w1 :
  IgnoreReparsePoints g || (isNtCreate && negb (MonitorNtCreateFile g)) = false ->
  IgnoreFullReparsePointResolvingForPath g pr = true ->
  DetourGetFinalPaths
    (fun p h r w => TryGetNextPath os g GetRootLength fuel p h r pr w)
    canon fuel (GetPathString path) handle [] ∅ w
  = Some (order, table, w1) ->
  EnforceChainOfReparsePointAccesses os g init ierr resolveAll GetRootLength canon fuel path
    handle da sm cd fa isNtCreate pr pNt enforceAccess icd rp eafrp preserveLast w
  = EnforceChainOfReparsePointAccesses_loop os g init ierr order table
      da sm cd fa pr pNt enforceAccess icd rp eafrp "ReparsePointTarget" true w1.
Proof.
  intros Hgate Hignore Hwalk. unfold EnforceChainOfReparsePointAccesses.
  rewrite Hgate. unfold PathCache_GetResolvedPaths, PathCache_bypassed.
  rewrite Hignore, orb_true_r, Hwalk. reflexivity.
Qed.

(** The chain A -> B -> C with B denied and every access reported: three
    reports, in order, and failure. *)
Lemma EnforceChainOfReparsePointAccesses_B_denied_all_reported :
  (fun r => (fst (fst (fst r)), map reported_path (reports (trace (snd r)))))
    <$> EnforceChainOfReparsePointAccesses Example.chain_ABC Example.walker_globals
          Example.manifest_denying_B ERROR_ACCESS_DENIED Example.no_full_resolution
          Example.drive_root_length Example.already_canonical 4 Example.path_A
          INVALID_HANDLE_VALUE GENERIC_READ FILE_SHARE_READ OPEN_EXISTING 0 false
          (Example.policy true "C:\A") None true false None true false
          (Example.fresh_world 0)
  = Some (false, [Some "C:\A"; Some "C:\B"; Some "C:\C"]).
Proof. vm_compute. reflexivity. Qed.



(* ===================================================================== *)
(** * Further properties *)
(* ===================================================================== *)

(* ===================================================================== *)
(** ** The algebra of access checks *)
(* ===================================================================== *)

Lemma Combine_components (l r : AccessCheckResult) :
  Combine l r
  = mkAccessCheckResult (Z.lor (Access l) (Access r))
      (most_restrictive_action (Result l) (Result r))
      (highest_report_level (Level l) (Level r))
      (worst_path_validity (Validity l) (Validity r)).
Proof.
  destruct l as [la lr ll lv], r as [ra rr rl rv].
  unfold Combine; cbn [Access Result Level Validity].
  f_equal; [destruct lr, rr | destruct ll, rl | destruct lv, rv]; reflexivity.
Qed.

(** X1. [Combine] makes access checks a commutative, idempotent monoid:
    the order and the grouping of the operands do not matter, combining a
    check with itself changes nothing, and the check the enforcer starts
    from (no access requested, Allow, Ignore) is neutral on both sides. *)
Theorem Combine_commutative_monoid :
  (forall l r, Combine l r = Combine r l)
  /\ (forall a b c, Combine a (Combine b c) = Combine (Combine a b) c)
  /\ (forall x, Combine x x = x)
  /\ (forall x,
        Combine (AccessCheckResult3 RequestedAccess_None Allow Ignore) x = x
        /\ Combine x (AccessCheckResult3 RequestedAccess_None Allow Ignore) = x).
Proof.
  split; [|split; [|split]].
  - intros l r. rewrite !Combine_components. f_equal.
    + apply Z.lor_comm.
    + destruct (Result l), (Result r); reflexivity.
    + destruct (Level l), (Level r); reflexivity.
    + destruct (Validity l), (Validity r); reflexivity.
  - intros a b c. rewrite !Combine_components. cbn [Access Result Level Validity]. f_equal.
    + apply Z.lor_assoc.
    + destruct (Result a), (Result b), (Result c); reflexivity.
    + destruct (Level a), (Level b), (Level c); reflexivity.
    + destruct (Validity a), (Validity b), (Validity c); reflexivity.
  - intros [a r l v]. rewrite Combine_components. cbn [Access Result Level Validity].
    f_equal; [apply Z.lor_diag | destruct r | destruct l | destruct v]; reflexivity.
  - intros [a r l v]. rewrite !Combine_components.
    cbn [Access Result Level Validity AccessCheckResult3].
    split; f_equal; try (destruct r; reflexivity); try (destruct l; reflexivity);
      try (destruct v; reflexivity); try reflexivity.
    apply Z.lor_0_r.
Qed.

(** X2. What a combined check decides: it denies exactly when one of the
    two checks denies, it asks for a report exactly when one of them does,
    and it counts as an allowed access only when both do. *)
Theorem Combine_decisions (l r : AccessCheckResult) :
  ShouldDenyAccess (Combine l r) = ShouldDenyAccess l || ShouldDenyAccess r
  /\ ShouldReport (Combine l r) = ShouldReport l || ShouldReport r
  /\ (GetFileAccessStatus (Combine l r) = FileAccessStatus_Allowed
      <-> GetFileAccessStatus l = FileAccessStatus_Allowed
          /\ GetFileAccessStatus r = FileAccessStatus_Allowed).
Proof.
  rewrite Combine_components.
  unfold ShouldDenyAccess, ShouldReport, GetFileAccessStatus.
  cbn [Result Level].
  destruct (Result l), (Result r), (Level l), (Level r); cbn;
    repeat split; try reflexivity; try tauto; try discriminate;
    intros [? ?]; try discriminate; reflexivity.
Qed.

(* ===================================================================== *)
(** ** What a probe leaves behind: last error, handles, memos *)
(* ===================================================================== *)

Lemma balanced_nil os : balanced os [].
Proof. split; reflexivity. Qed.

Lemma balanced_app os evs evs' :
  balanced os evs -> balanced os evs' -> balanced os (evs ++ evs').
Proof.
  unfold balanced, handles_closed, handles_opened, searches_closed, searches_opened.
  intros [H1 H2] [H3 H4]. rewrite !flat_map_app, !length_app. split; congruence.
Qed.

Lemma memos_kept_refl c : memos_kept c c.
Proof. repeat split; reflexivity. Qed.

Lemma memos_kept_trans c1 c2 c3 :
  memos_kept c1 c2 -> memos_kept c2 c3 -> memos_kept c1 c3.
Proof.
  intros (A1 & A2 & A3) (B1 & B2 & B3). repeat split.
  - etrans; eassumption.
  - etrans; eassumption.
  - congruence.
Qed.

Lemma settled_refl os w : settled os w w.
Proof.
  split; [reflexivity|]. split; [apply memos_kept_refl|].
  exists []. rewrite app_nil_r. split; [reflexivity|apply balanced_nil].
Qed.

Lemma settled_trans os w1 w2 w3 :
  settled os w1 w2 -> settled os w2 w3 -> settled os w1 w3.
Proof.
  intros (A1 & A2 & evs & A3 & A4) (B1 & B2 & evs' & B3 & B4).
  split; [congruence|]. split; [eapply memos_kept_trans; eassumption|].
  exists (evs ++ evs')%list. split; [|apply balanced_app; assumption].
  rewrite B3, A3, app_assoc. reflexivity.
Qed.

Lemma settled_warning os message path w :
  settled os w (log (EvWarning message path) w).
Proof.
  split; [reflexivity|]. split; [apply memos_kept_refl|].
  exists [EvWarning message path]. split; [reflexivity|]. split; reflexivity.
Qed.

Lemma IsReparsePoint_settled os path h w :
  settled os w (snd (IsReparsePoint os path h w)).
Proof.
  destruct w as [e c t].
  unfold IsReparsePoint, GetFileInformationByHandle, GetFileAttributesW, settled,
    SetLastError, GetLastError, os_call.
  case_bool_decide; [destruct (os_GetFileInformationByHandle os h)|]; cbn;
    (split; [reflexivity|]; split; [apply memos_kept_refl|]);
    eexists; (split; [rewrite <- ?app_assoc; reflexivity|]); split; reflexivity.
Qed.

Lemma GetReparsePointType_settled os path h w :
  settled os w (snd (GetReparsePointType os path h w)).
Proof.
  unfold GetReparsePointType.
  pose proof (IsReparsePoint_settled os path h w) as (H1 & H2 & evs & H3 & H4).
  destruct (IsReparsePoint os path h w) as [b [e1 c1 t1]]. cbn [snd lastError cache trace] in *.
  subst t1.
  destruct b.
  - unfold FindFirstFileW, FindClose, settled, SetLastError, GetLastError, os_call.
    destruct (os_FindFirstFileW os path) as [tag|] eqn:Hf; cbn;
      (split; [reflexivity|]; split; [exact H2|]).
    + exists (evs ++ [EvOs (CallFindFirstFileW path); EvOs CallFindClose])%list.
      split; [rewrite <- !app_assoc; reflexivity|].
      apply balanced_app; [exact H4|].
      split; [reflexivity|]. unfold searches_closed, searches_opened; cbn.
      rewrite Hf. reflexivity.
    + exists (evs ++ [EvOs (CallFindFirstFileW path)])%list.
      split; [rewrite <- !app_assoc; reflexivity|].
      apply balanced_app; [exact H4|].
      split; [reflexivity|]. unfold searches_closed, searches_opened; cbn.
      rewrite Hf. reflexivity.
  - cbn. split; [reflexivity|]. split; [exact H2|]. exists evs. split; [reflexivity|assumption].
Qed.

Lemma QueryReparsePoint_trace os fuel :
  forall hFile bufferSize errorCode buffer w errorCode' buffer' w',
    QueryReparsePoint os fuel hFile bufferSize errorCode buffer w
    = Some (errorCode', buffer', w') ->
    exists evs, trace w' = (trace w ++ evs)%list
                /\ Forall (fun e => is_DeviceIoControl e = true) evs.
Proof.
  induction fuel as [|fuel IH]; intros hFile bufferSize errorCode buffer w e' b' w' H;
    cbn [QueryReparsePoint] in H;
    destruct ((errorCode =? ERROR_MORE_DATA) || (errorCode =? ERROR_INSUFFICIENT_BUFFER));
    try discriminate;
    try (injection H as <- <- <-; exists []; rewrite app_nil_r; split; [reflexivity|constructor]).
  unfold DeviceIoControl in H.
  destruct (os_DeviceIoControl os hFile bufferSize) as [success buf].
  destruct success; apply IH in H; destruct H as (evs & H & Hall);
    exists (EvOs (CallDeviceIoControl hFile bufferSize) :: evs);
    (split; [rewrite H; cbn; rewrite <- app_assoc; reflexivity|]);
    constructor; [reflexivity|exact Hall|reflexivity|exact Hall].
Qed.

Lemma queries_balanced os evs :
  Forall (fun e => is_DeviceIoControl e = true) evs ->
  handles_closed evs = [] /\ handles_opened os evs = []
  /\ searches_closed evs = O /\ searches_opened os evs = O.
Proof.
  unfold handles_closed, handles_opened, searches_closed, searches_opened.
  induction 1 as [|e evs He _ IH]; [repeat split|].
  destruct e as [[]| | |]; try discriminate. cbn. exact IH.
Qed.

Lemma resolving_check_settled os g path h pr w :
  settled os w (snd (resolving_check os g path h pr w)).
Proof.
  unfold resolving_check, PathCache_GetResolvingCheckResult,
    PathCache_InsertResolvingCheckResult.
  destruct (PathCache_bypassed g pr).
  - pose proof (IsReparsePoint_settled os path h w) as H.
    destruct (IsReparsePoint os path h w) as [b w1]. exact H.
  - destruct (ResolvedPathCacheOps.GetResolvingCheckResult path (cache w)) eqn:Hm;
      [apply settled_refl|].
    pose proof (IsReparsePoint_settled os path h w) as (H1 & H2 & H3).
    pose proof (IsReparsePoint_cache os path h w) as Hc.
    destruct (IsReparsePoint os path h w) as [b w1]. cbn [snd] in *.
    split; [exact H1|]. split; [|exact H3].
    cbn. rewrite Hc. repeat split; try reflexivity.
    apply insert_subseteq. exact Hm.
Qed.

Lemma InsertResolvedPathWithType_memos_kept g path target type pr w :
  PathCache_GetResolvedPathAndType g path pr w = None ->
  memos_kept (cache w) (cache (PathCache_InsertResolvedPathWithType g path target type pr w)).
Proof.
  unfold PathCache_GetResolvedPathAndType, PathCache_InsertResolvedPathWithType.
  destruct (PathCache_bypassed g pr); [intros _; apply memos_kept_refl|].
  intros Hm. repeat split; try reflexivity.
  apply insert_subseteq. exact Hm.
Qed.

Lemma GetResolvedPathAndType_cache g path pr w w' :
  cache w' = cache w ->
  PathCache_GetResolvedPathAndType g path pr w' = PathCache_GetResolvedPathAndType g path pr w.
Proof.
  intros H. unfold PathCache_GetResolvedPathAndType. rewrite H. reflexivity.
Qed.

Lemma InsertResolvedPathWithType_trace g path target type pr w :
  trace (PathCache_InsertResolvedPathWithType g path target type pr w) = trace w.
Proof.
  unfold PathCache_InsertResolvedPathWithType. destruct (PathCache_bypassed g pr); reflexivity.
Qed.

(** The second half of [TryGetReparsePointTarget], from the lookup of the
    target memo on: what it appends to the log. *)
Lemma TryGetReparsePointTarget_settled os g fuel path hInput target pr w status target' w' :
  TryGetReparsePointTarget os g fuel path hInput target pr w = Some (status, target', w') ->
  settled os w w'
  /\ (hInput <> INVALID_HANDLE_VALUE ->
      exists evs, trace w' = (trace w ++ evs)%list
                  /\ handles_opened os evs = [] /\ handles_closed evs = []).
Proof.
  rewrite TryGetReparsePointTarget_unfold.
  pose proof (resolving_check_settled os g path hInput pr w) as Hrc.
  assert (Hrc' : hInput <> INVALID_HANDLE_VALUE ->
                 exists evs, trace (snd (resolving_check os g path hInput pr w))
                             = (trace w ++ evs)%list
                             /\ handles_opened os evs = [] /\ handles_closed evs = []).
  { intros Hh. unfold resolving_check.
    destruct (PathCache_GetResolvingCheckResult g path pr w).
    - exists []. rewrite app_nil_r. repeat split.
    - destruct w as [e c t].
      unfold IsReparsePoint, GetFileInformationByHandle, GetFileAttributesW,
        SetLastError, GetLastError, os_call.
      rewrite bool_decide_eq_true_2 by exact Hh.
      destruct (os_GetFileInformationByHandle os hInput); cbn;
        rewrite InsertResolvingCheckResult_trace; cbn;
        eexists; (split; [rewrite <- ?app_assoc; reflexivity|]); split; reflexivity. }
  destruct (resolving_check os g path hInput pr w) as [b w1]. cbn [snd] in *.
  destruct b; cbn [negb].
  2:{ intros [= <- <- <-]. split; assumption. }
  unfold GetLastError.
  destruct (PathCache_GetResolvedPathAndType g path pr w1) as [[first second]|] eqn:Hmemo.
  { assert (Hs : settled os w
                   (TryGetReparsePointTarget_Epilogue os INVALID_HANDLE_VALUE hInput
                      (lastError w1) w1)).
    { eapply settled_trans; [exact Hrc|]. destruct w1 as [e1 c1 t1].
      unfold TryGetReparsePointTarget_Epilogue. rewrite bool_decide_eq_false_2 by tauto.
      apply settled_refl. }
    assert (Ht : trace (TryGetReparsePointTarget_Epilogue os INVALID_HANDLE_VALUE hInput
                          (lastError w1) w1) = trace w1).
    { unfold TryGetReparsePointTarget_Epilogue. rewrite bool_decide_eq_false_2 by tauto.
      reflexivity. }
    destruct (second =? 0); intros [= <- <- <-]; (split; [exact Hs|]);
      rewrite Ht; exact Hrc'. }
  (* the exits through Error and through Epilogue, after the events [evs] *)
  assert (Hexit : forall hFile evs wq t ty,
            cache wq = cache w1 ->
            trace wq = (trace w1 ++ evs)%list ->
            balanced os
              (evs ++ (if bool_decide (hFile <> INVALID_HANDLE_VALUE)
                          && bool_decide (hFile <> hInput)
                       then [EvOs (CallCloseHandle hFile)] else []))%list ->
            settled os w
              (TryGetReparsePointTarget_Epilogue os hFile hInput (lastError w1)
                 (PathCache_InsertResolvedPathWithType g path t ty pr wq))).
  { intros hFile evs wq t ty Hc Ht Hbal.
    eapply settled_trans; [exact Hrc|].
    assert (Hk : memos_kept (cache w1)
                   (cache (PathCache_InsertResolvedPathWithType g path t ty pr wq))).
    { rewrite <- Hc. apply InsertResolvedPathWithType_memos_kept.
      rewrite (GetResolvedPathAndType_cache g path pr w1 wq Hc). exact Hmemo. }
    pose proof (InsertResolvedPathWithType_trace g path t ty pr wq) as Htr.
    destruct (PathCache_InsertResolvedPathWithType g path t ty pr wq) as [e2 c2 t2].
    cbn [cache trace] in *. subst t2.
    unfold TryGetReparsePointTarget_Epilogue, CloseHandle, SetLastError, os_call, settled.
    destruct (bool_decide (hFile <> INVALID_HANDLE_VALUE) && bool_decide (hFile <> hInput));
      cbn [lastError cache trace];
      (split; [reflexivity|]; split; [exact Hk|]); eexists; (split; [|exact Hbal]).
    - rewrite Ht, <- app_assoc. reflexivity.
    - rewrite Ht, app_nil_r. reflexivity. }
  assert (Hexit' : forall hFile evs wq t ty,
            hInput <> INVALID_HANDLE_VALUE -> hFile = hInput ->
            trace wq = (trace w1 ++ evs)%list ->
            handles_opened os evs = [] /\ handles_closed evs = [] ->
            exists evs', trace (TryGetReparsePointTarget_Epilogue os hFile hInput (lastError w1)
                                  (PathCache_InsertResolvedPathWithType g path t ty pr wq))
                         = (trace w ++ evs')%list
                         /\ handles_opened os evs' = [] /\ handles_closed evs' = []).
  { intros hFile evs wq t ty Hh -> Ht [Ho Hcl].
    destruct (Hrc' Hh) as (evs0 & Ht0 & Ho0 & Hcl0).
    unfold TryGetReparsePointTarget_Epilogue.
    rewrite (bool_decide_eq_false_2 (hInput <> hInput)) by tauto.
    rewrite andb_false_r. cbn [trace SetLastError].
    rewrite InsertResolvedPathWithType_trace, Ht, Ht0, <- app_assoc.
    exists (evs0 ++ evs)%list. split; [reflexivity|].
    unfold handles_opened, handles_closed in *. rewrite !flat_map_app.
    rewrite Ho, Ho0, Hcl, Hcl0. split; reflexivity. }
  unfold TryGetReparsePointTarget_Error.
  destruct (bool_decide (hInput <> INVALID_HANDLE_VALUE)) eqn:Hin.
  - (* the caller's handle *)
    apply bool_decide_eq_true_1 in Hin.
    rewrite (bool_decide_eq_false_2 (hInput = INVALID_HANDLE_VALUE)) by exact Hin.
    destruct (QueryReparsePoint os fuel hInput _ _ _ w1) as [[[e b'] w3]|] eqn:Hq;
      [|discriminate].
    pose proof (QueryReparsePoint_cache os _ _ _ _ _ _ _ _ _ Hq) as Hc.
    destruct (QueryReparsePoint_trace os _ _ _ _ _ _ _ _ _ Hq) as (evs & Ht & Hall).
    destruct (queries_balanced os evs Hall) as (Q1 & Q2 & Q3 & Q4).
    assert (Hbal : balanced os
              (evs ++ (if bool_decide (hInput <> INVALID_HANDLE_VALUE)
                          && bool_decide (hInput <> hInput)
                       then [EvOs (CallCloseHandle hInput)] else []))%list).
    { rewrite (bool_decide_eq_false_2 (hInput <> hInput)) by tauto.
      rewrite andb_false_r, app_nil_r. split; congruence. }
    destruct (negb (e =? ERROR_SUCCESS));
      [|destruct (negb (IsActionableReparsePointType (ReparseTag b')))];
      intros [= <- <- <-];
      (split; [eapply (Hexit hInput evs w3); eassumption
              | intros _; eapply Hexit'; eauto]).
  - (* a handle of the function's own *)
    apply bool_decide_eq_false_1 in Hin.
    assert (Hh : hInput = INVALID_HANDLE_VALUE).
    { destruct (decide (hInput = INVALID_HANDLE_VALUE)); [assumption|contradiction]. }
    unfold CreateFileW.
    set (open := EvOs (CallCreateFileW path GENERIC_READ
                   (Z.lor FILE_SHARE_READ (Z.lor FILE_SHARE_DELETE FILE_SHARE_WRITE))
                   OPEN_EXISTING
                   (Z.lor FILE_FLAG_OPEN_REPARSE_POINT FILE_FLAG_BACKUP_SEMANTICS))).
    destruct (bool_decide (os_CreateFileW os path = INVALID_HANDLE_VALUE)) eqn:Hopen.
    + apply bool_decide_eq_true_1 in Hopen.
      intros [= <- <- <-]. split; [|intros Hne; contradiction].
      eapply (Hexit _ [open] _); [reflexivity|reflexivity|].
      rewrite (bool_decide_eq_false_2 (os_CreateFileW os path <> INVALID_HANDLE_VALUE))
        by (intros Hne; apply Hne; exact Hopen).
      cbn. split; [|reflexivity].
      unfold handles_closed, handles_opened; cbn.
      rewrite bool_decide_eq_true_2 by exact Hopen. reflexivity.
    + apply bool_decide_eq_false_1 in Hopen.
      match goal with |- context [QueryReparsePoint os fuel ?h ?s ?e ?b ?wx] =>
        destruct (QueryReparsePoint os fuel h s e b wx) as [[[e' b'] w3]|] eqn:Hq end;
        [|discriminate].
      pose proof (QueryReparsePoint_cache os _ _ _ _ _ _ _ _ _ Hq) as Hc.
      destruct (QueryReparsePoint_trace os _ _ _ _ _ _ _ _ _ Hq) as (evs & Ht & Hall).
      destruct (queries_balanced os evs Hall) as (Q1 & Q2 & Q3 & Q4).
      cbn [cache trace os_call] in Hc, Ht.
      assert (Hbal : balanced os
                ((open :: evs)
                 ++ (if bool_decide (os_CreateFileW os path <> INVALID_HANDLE_VALUE)
                        && bool_decide (os_CreateFileW os path <> hInput)
                     then [EvOs (CallCloseHandle (os_CreateFileW os path))] else []))%list).
      { rewrite !bool_decide_eq_true_2 by congruence. cbn [andb].
        unfold balanced, handles_closed, handles_opened, searches_closed, searches_opened in *.
        rewrite !flat_map_app, !length_app. cbn.
        rewrite bool_decide_eq_false_2 by exact Hopen.
        rewrite Q1, Q2, Q3, Q4. split; reflexivity. }
      destruct (negb (e' =? ERROR_SUCCESS));
        [|destruct (negb (IsActionableReparsePointType (ReparseTag b')))];
        intros [= <- <- <-];
        (split; [eapply (Hexit _ (open :: evs) w3);
                   [exact Hc | rewrite Ht, <- app_assoc; reflexivity | exact Hbal]
                | intros Hne; contradiction]).
Qed.

Lemma TryResolveRelativeTarget_loop_settled os g GetRootLength fuel :
  forall qfuel needToBeProcessed processed result pr w b r w',
    TryResolveRelativeTarget_loop os g GetRootLength fuel qfuel needToBeProcessed processed
                                  result pr w = Some (b, r, w') ->
    settled os w w'.
Proof.
  induction fuel as [|fuel IH]; intros qfuel ntp processed result pr w b r w' H;
    [discriminate|].
  cbn [TryResolveRelativeTarget_loop] in H.
  destruct (vector_empty ntp); [injection H as <- <- <-; apply settled_refl|].
  destruct (vector_empty (vector_pop_back ntp));
    [injection H as <- <- <-; apply settled_refl|].
  match type of H with context [GetReparsePointType os ?p ?h w] =>
    pose proof (GetReparsePointType_settled os p h w) as Hty;
    destruct (GetReparsePointType os p h w) as [ty w1] end.
  cbn [snd] in Hty.
  destruct (ty =? IO_REPARSE_TAG_SYMLINK).
  - match type of H with context [TryGetReparsePointTarget os g qfuel ?p ?h ?t pr w1] =>
      destruct (TryGetReparsePointTarget os g qfuel p h t pr w1) as [[[ok target] w2]|] eqn:Hq end;
      [|discriminate].
    apply TryGetReparsePointTarget_settled in Hq. destruct Hq as [Hq _].
    assert (H02 : settled os w w2) by (eapply settled_trans; eassumption).
    destruct ok; [|injection H as <- <- <-; exact H02].
    destruct (GetRootLength target >? 0).
    + apply IH in H. eapply settled_trans; eassumption.
    + match type of H with context [TryResolveRelativeTarget_simple GetRootLength ?a ?b ?c ?d] =>
        destruct (TryResolveRelativeTarget_simple GetRootLength a b c d) as [[[ok r'] p'] n'] end.
      destruct ok, p', n'; try (injection H as <- <- <-; exact H02).
      apply IH in H. eapply settled_trans; eassumption.
  - apply IH in H. eapply settled_trans; eassumption.
Qed.

Lemma TryResolveRelativeTarget_settled os g GetRootLength fuel path relativeTarget result
    pr w b r w' :
  TryResolveRelativeTarget os g GetRootLength fuel path relativeTarget result pr w
  = Some (b, r, w') ->
  settled os w w'.
Proof.
  unfold TryResolveRelativeTarget.
  destruct (TryResolveRelativeTarget_loop os g GetRootLength fuel fuel _ _ result pr w)
    as [[[ok r1] w1]|] eqn:Hl; [|discriminate].
  apply TryResolveRelativeTarget_loop_settled in Hl.
  destruct ok.
  - destruct (TryResolveRelativeTarget_simple GetRootLength r1 relativeTarget None None) as [[[ok r'] p'] n'].
    intros [= <- <- <-]. exact Hl.
  - intros [= <- <- <-]. exact Hl.
Qed.

Lemma TryGetNextPath_settled os g GetRootLength fuel path hInput result pr w b r w' :
  TryGetNextPath os g GetRootLength fuel path hInput result pr w = Some (b, r, w') ->
  settled os w w'.
Proof.
  unfold TryGetNextPath.
  destruct (TryGetReparsePointTarget os g fuel path hInput "" pr w)
    as [[[ok target] w1]|] eqn:Hq; [|discriminate].
  apply TryGetReparsePointTarget_settled in Hq. destruct Hq as [Hq _].
  destruct ok; [|intros [= <- <- <-]; exact Hq].
  destruct (GetRootLength target >? 0); [intros [= <- <- <-]; exact Hq|].
  intros H. apply TryResolveRelativeTarget_settled in H.
  eapply settled_trans; eassumption.
Qed.

Lemma DetourGetFinalPaths_loop_settled os next canon
    (Hnext : forall p h r w b q w', next p h r w = Some (b, q, w') -> settled os w w') fuel :
  forall path handle currentPath order finalPaths w order' finalPaths' w',
    DetourGetFinalPaths_loop next canon fuel path handle currentPath order finalPaths w
    = Some (order', finalPaths', w') ->
    settled os w w'.
Proof.
  induction fuel as [|fuel IH]; intros path handle cur order fp w order' fp' w' H;
    [discriminate|].
  cbn [DetourGetFinalPaths_loop] in H.
  destruct (next cur handle "" w) as [[[ok q] w1]|] eqn:Hn; [|discriminate].
  apply Hnext in Hn.
  destruct ok; [|injection H as <- <- <-; exact Hn].
  case_bool_decide.
  - injection H as <- <- <-. eapply settled_trans; [exact Hn|apply settled_warning].
  - apply IH in H. eapply settled_trans; eassumption.
Qed.

(** X3. Probing leaves the thread as it found it. Computing the next path
    of a path, and walking a whole chain of reparse points with it, return
    with the last error of the caller, however the calls to the operating
    system changed it in between; every handle opened with [CreateFileW] is
    closed again and every successful [FindFirstFileW] is followed by its
    [FindClose], on the error paths as on the others; and no memo that was
    in the path cache is lost or changed. *)
Theorem DetourGetFinalPaths_leaves_thread_settled (os : OS) (g : Globals)
    (GetRootLength : string -> size_t) (Canonicalize : string -> string) :
  (forall fuel path hInput result pr w b r w',
      TryGetNextPath os g GetRootLength fuel path hInput result pr w = Some (b, r, w') ->
      settled os w w')
  /\ (forall qfuel fuel path hInput order finalPaths pr w order' finalPaths' w',
        DetourGetFinalPaths
          (fun p h r w => TryGetNextPath os g GetRootLength qfuel p h r pr w)
          Canonicalize fuel path hInput order finalPaths w
        = Some (order', finalPaths', w') ->
        settled os w w').
Proof.
  split.
  - intros *. apply TryGetNextPath_settled.
  - intros qfuel fuel path hInput order fp pr w order' fp' w'. unfold DetourGetFinalPaths.
    apply DetourGetFinalPaths_loop_settled.
    intros p h r w0 b q w0'. apply TryGetNextPath_settled.
Qed.

Lemma DetourGetFinalPaths_leaves_thread_settled_witness :
  exists order m w',
    DetourGetFinalPaths
      (fun p h r w =>
         TryGetNextPath Example.chain_ABC Example.walker_globals Example.drive_root_length 4
                        p h r (Example.policy true "C:\A") w)
      Example.already_canonical 4 "C:\A" INVALID_HANDLE_VALUE [] ∅ (Example.fresh_world 87)
    = Some (order, m, w')
    /\ settled Example.chain_ABC (Example.fresh_world 87) w'.
Proof.
  destruct (DetourGetFinalPaths
              (fun p h r w =>
                 TryGetNextPath Example.chain_ABC Example.walker_globals
                                Example.drive_root_length 4 p h r
                                (Example.policy true "C:\A") w)
              Example.already_canonical 4 "C:\A" INVALID_HANDLE_VALUE [] ∅
              (Example.fresh_world 87)) as [[[order m] w']|] eqn:H.
  - exists order, m, w'. split; [reflexivity|].
    exact (proj2 (DetourGetFinalPaths_leaves_thread_settled
                    Example.chain_ABC Example.walker_globals Example.drive_root_length
                    Example.already_canonical)
             4%nat 4%nat "C:\A" INVALID_HANDLE_VALUE [] ∅ (Example.policy true "C:\A")
             (Example.fresh_world 87) order m w' H).
  - vm_compute in H. discriminate.
Defined.

(* ===================================================================== *)
(** ** Positive caching *)
(* ===================================================================== *)

Lemma Epilogue_cache os hFile hInput e w :
  cache (TryGetReparsePointTarget_Epilogue os hFile hInput e w) = cache w.
Proof. unfold TryGetReparsePointTarget_Epilogue. destruct (_ && _); reflexivity. Qed.

Lemma IsActionableReparsePointType_nonzero ty :
  IsActionableReparsePointType ty = true -> ty <> 0.
Proof.
  unfold IsActionableReparsePointType. intros H ->. vm_compute in H. discriminate.
Qed.

(** What a call that answers true leaves in the cache, when the cache is
    in use. *)
Lemma TryGetReparsePointTarget_true_memo os g fuel path hInput target pr w target1 w1 :
  PathCache_bypassed g pr = false ->
  TryGetReparsePointTarget os g fuel path hInput target pr w = Some (true, target1, w1) ->
  ResolvedPathCacheOps.GetResolvingCheckResult path (cache w1) = Some true
  /\ exists ty, ty <> 0
       /\ ResolvedPathCacheOps.GetResolvedPathAndType path (cache w1) = Some (target1, ty).
Proof.
  intros Hc. rewrite TryGetReparsePointTarget_unfold.
  destruct (resolving_check os g path hInput pr w) as [b wa] eqn:Hrc.
  pose proof (resolving_check_memo os g _ _ _ _ _ _ Hc Hrc) as Hmemo.
  destruct b; cbn [negb]; [|discriminate].
  unfold PathCache_GetResolvedPathAndType. rewrite Hc.
  destruct (ResolvedPathCacheOps.GetResolvedPathAndType path (cache wa))
    as [[first second]|] eqn:Ht.
  - destruct (second =? 0) eqn:Hz; [discriminate|].
    intros [= <- <-]. rewrite Epilogue_cache. split; [exact Hmemo|].
    exists second. split; [apply Z.eqb_neq; exact Hz|exact Ht].
  - match goal with |- context [if ?c then (hInput, wa) else ?e] =>
      destruct (if c then (hInput, wa) else e) as [hFile w2] eqn:Hopen end.
    assert (Hw2 : cache w2 = cache wa).
    { revert Hopen. case_bool_decide; intros [= <- <-]; reflexivity. }
    destruct (bool_decide (hFile = INVALID_HANDLE_VALUE)); [discriminate|].
    destruct (QueryReparsePoint os fuel hFile _ _ _ w2) as [[[e b'] w3]|] eqn:Hq;
      [|discriminate].
    apply QueryReparsePoint_cache in Hq.
    destruct (negb (e =? ERROR_SUCCESS)); [discriminate|].
    destruct (IsActionableReparsePointType (ReparseTag b')) eqn:Hact; cbn [negb];
      [|discriminate].
    intros [= <- <-]. rewrite Epilogue_cache.
    unfold PathCache_InsertResolvedPathWithType. rewrite Hc. cbn.
    rewrite Hq, Hw2. split; [exact Hmemo|].
    exists (ReparseTag b'). split; [apply IsActionableReparsePointType_nonzero; exact Hact|].
    unfold ResolvedPathCacheOps.GetResolvedPathAndType; cbn. apply lookup_insert_eq.
Qed.

(** X4. Positive caching. Once [TryGetReparsePointTarget] has answered true
    with a target for a path, with the cache in use, every later call for
    that path, in whatever letter case, through whatever handle and under
    any policy that uses the cache, answers true with the same target and
    leaves the state exactly as it is: no call to the operating system, no
    change of the cache. *)
Theorem TryGetReparsePointTarget_positive_caching (os : OS) (g : Globals)
    fuel path hInput target pr w target1 w1 :
  PathCache_bypassed g pr = false ->
  TryGetReparsePointTarget os g fuel path hInput target pr w = Some (true, target1, w1) ->
  forall fuel2 path2 hInput2 target2 pr2,
    path_key path2 = path_key path ->
    PathCache_bypassed g pr2 = false ->
    TryGetReparsePointTarget os g fuel2 path2 hInput2 target2 pr2 w1
    = Some (true, target1, w1).
Proof.
  intros Hc H fuel2 path2 hInput2 target2 pr2 Hkey Hc2.
  destruct (TryGetReparsePointTarget_true_memo os g _ _ _ _ _ _ _ _ Hc H)
    as (Hm & ty & Hty & Ht).
  unfold TryGetReparsePointTarget, PathCache_GetResolvingCheckResult,
    PathCache_GetResolvedPathAndType.
  unfold ResolvedPathCacheOps.GetResolvingCheckResult,
    ResolvedPathCacheOps.GetResolvedPathAndType in *.
  rewrite Hc2, Hkey, Hm. cbn [negb]. rewrite Ht.
  apply Z.eqb_neq in Hty. rewrite Hty.
  unfold TryGetReparsePointTarget_Epilogue.
  rewrite bool_decide_eq_false_2 by tauto. cbn [andb].
  destruct w1; reflexivity.
Qed.

Lemma TryGetReparsePointTarget_positive_caching_witness :
  let g := Example.globals false false Example.report_all in
  let pr := Example.policy true "C:\A" in
  exists w1,
    TryGetReparsePointTarget Example.chain_ABC g 6 "C:\A" INVALID_HANDLE_VALUE "" pr
                             (Example.fresh_world 0) = Some (true, "C:\B", w1)
    /\ TryGetReparsePointTarget Example.chain_ABC g 0 "c:\a" 7 "" pr w1
       = Some (true, "C:\B", w1).
Proof.
  intros g pr. eexists. split; [vm_compute; reflexivity|].
  apply (TryGetReparsePointTarget_positive_caching Example.chain_ABC g
           6 "C:\A" INVALID_HANDLE_VALUE "" pr (Example.fresh_world 0));
    [reflexivity | vm_compute; reflexivity | reflexivity | reflexivity].
Defined.

(* ===================================================================== *)
(** ** The growing-buffer loop *)
(* ===================================================================== *)

Lemma offered_S size i : offered (dword_mul size 2) i = offered size (S i).
Proof.
  unfold offered. symmetry.
  exact (Nat.iter_succ_r i (fun s => dword_mul s 2) size).
Qed.

Lemma queries_cons h size n :
  EvOs (CallDeviceIoControl h size) :: queries h (dword_mul size 2) 0 n
  = queries h size 0 (S n).
Proof.
  unfold queries. cbn [seq map]. f_equal.
  rewrite <- seq_shift, map_map. apply map_ext. intros i. rewrite offered_S. reflexivity.
Qed.

Lemma QueryReparsePoint_first_fit os h n :
  forall size fuel errorCode buffer w,
    (n < fuel)%nat ->
    errorCode = ERROR_MORE_DATA \/ errorCode = ERROR_INSUFFICIENT_BUFFER ->
    (forall i, (i < n)%nat -> asks_for_more os h (offered size i)) ->
    settles os h (offered size n) ->
    exists code w',
      QueryReparsePoint os fuel h size errorCode buffer w
      = Some (code, snd (os_DeviceIoControl os h (offered size n)), w')
      /\ trace w' = (trace w ++ queries h size 0 (S n))%list
      /\ cache w' = cache w
      /\ code = (if fst (os_DeviceIoControl os h (offered size n)) then ERROR_SUCCESS
                 else lastError w').
Proof.
  induction n as [|n IH]; intros size fuel errorCode buffer w Hfuel Hcode Hmore Hfit;
    (destruct fuel as [|fuel]; [lia|]); cbn [QueryReparsePoint];
    (replace ((errorCode =? ERROR_MORE_DATA) || (errorCode =? ERROR_INSUFFICIENT_BUFFER))
       with true by (destruct Hcode as [-> | ->]; reflexivity));
    unfold DeviceIoControl.
  - change (offered size 0) with size in *. unfold settles in Hfit.
    destruct (os_DeviceIoControl os h size) as [success buf] eqn:Hio. cbn [fst snd] in *.
    destruct success.
    + exists ERROR_SUCCESS. eexists. split; [destruct fuel; reflexivity|].
      repeat split.
    + destruct Hfit as [Hfit|Hfit]; [discriminate|].
      destruct (Hfit (lastError w)) as [H1 H2].
      eexists _, _. split.
      * destruct fuel; cbn [QueryReparsePoint]; unfold GetLastError, os_call; cbn [lastError];
          apply Z.eqb_neq in H1, H2; rewrite H1, H2; reflexivity.
      * repeat split.
  - destruct (Hmore O ltac:(lia)) as [Hfail Herr]. change (offered size 0) with size in *.
    destruct (os_DeviceIoControl os h size) as [success buf] eqn:Hio. cbn [fst] in Hfail.
    subst success.
    destruct (IH (dword_mul size 2) fuel
                 (GetLastError (os_call os (CallDeviceIoControl h size) w)) buf
                 (os_call os (CallDeviceIoControl h size) w))
      as (code & w' & Hq & Ht & Hc & Hcd).
    + lia.
    + apply Herr.
    + intros i Hi. rewrite offered_S. apply Hmore. lia.
    + rewrite offered_S. exact Hfit.
    + rewrite offered_S in Hq, Hcd. exists code, w'. split; [exact Hq|].
      split; [|split; [exact Hc|exact Hcd]].
      rewrite Ht. cbn [trace os_call]. rewrite <- app_assoc. cbn [app].
      rewrite queries_cons. reflexivity.
Qed.

Lemma QueryReparsePoint_insatiable os h :
  (forall size, asks_for_more os h size) ->
  forall fuel size errorCode buffer w,
    errorCode = ERROR_MORE_DATA \/ errorCode = ERROR_INSUFFICIENT_BUFFER ->
    QueryReparsePoint os fuel h size errorCode buffer w = None.
Proof.
  intros Hmore. induction fuel as [|fuel IH]; intros size errorCode buffer w Hcode;
    cbn [QueryReparsePoint];
    (replace ((errorCode =? ERROR_MORE_DATA) || (errorCode =? ERROR_INSUFFICIENT_BUFFER))
       with true by (destruct Hcode as [-> | ->]; reflexivity)); [reflexivity|].
  unfold DeviceIoControl. destruct (Hmore size) as [Hfail Herr].
  destruct (os_DeviceIoControl os h size) as [success buf]. cbn [fst] in Hfail. subst success.
  apply IH. apply Herr.
Qed.

Lemma offered_initial_wraps i :
  (22 <= i)%nat ->
  offered INITIAL_REPARSE_DATA_BUILDXL_DETOURS_BUFFER_SIZE_FOR_FILE_NAMES i = 0.
Proof.
  intros Hi. replace i with ((i - 22) + 22)%nat by lia.
  induction (i - 22)%nat as [|k IH]; [vm_compute; reflexivity|].
  change (S k + 22)%nat with (S (k + 22)). unfold offered in *.
  rewrite Nat.iter_succ, IH. reflexivity.
Qed.

Lemma DeviceIoControl_calls_queries h size from count :
  filter (fun e => is_DeviceIoControl e = true) (queries h size from count)
  = queries h size from count.
Proof.
  unfold queries. induction (seq from count) as [|i l IH]; [reflexivity|].
  cbn [map]. rewrite filter_cons_True by reflexivity. rewrite IH. reflexivity.
Qed.

Lemma resolving_check_flagged os g path hInput pr w b :
  (forall w0, fst (IsReparsePoint os path hInput w0) = b) ->
  PathCache_GetResolvingCheckResult g path pr w = None ->
  exists w1, resolving_check os g path hInput pr w = (b, w1)
             /\ lastError w1 = lastError w
             /\ DeviceIoControl_calls w1 = DeviceIoControl_calls w
             /\ PathCache_GetResolvedPathAndType g path pr w1
                = PathCache_GetResolvedPathAndType g path pr w.
Proof.
  intros Hflag Hmiss.
  pose proof (resolving_check_lastError os g path hInput pr w) as Hle.
  pose proof (resolving_check_targets os g path hInput pr w) as Htg.
  unfold resolving_check in *. rewrite Hmiss in *.
  specialize (Hflag w).
  pose proof (IsReparsePoint_no_DeviceIoControl os path hInput w) as Hio.
  destruct (IsReparsePoint os path hInput w) as [b' w0]. cbn [fst snd] in *. subst b'.
  eexists. split; [reflexivity|]. split; [exact Hle|]. split.
  - unfold DeviceIoControl_calls in *. rewrite InsertResolvingCheckResult_trace. exact Hio.
  - unfold PathCache_GetResolvedPathAndType, ResolvedPathCacheOps.GetResolvedPathAndType.
    rewrite Htg. reflexivity.
Qed.

(** X5. The growing-buffer loop stops at the first fit. Reading, through
    the caller's handle, a reparse point for which nothing is memoized: if
    the device asks for more room for the buffers of the first [n] rounds
    (1024 bytes, doubled each round) and hands out actionable reparse data
    for the next one, the call answers true with the name read from that
    data, and it has queried the device exactly [n + 1] times, with those
    sizes in that order. *)
Theorem TryGetReparsePointTarget_first_fit (os : OS) (g : Globals)
    fuel path hInput target pr w n d :
  hInput <> INVALID_HANDLE_VALUE ->
  (forall w0, fst (IsReparsePoint os path hInput w0) = true) ->
  PathCache_GetResolvingCheckResult g path pr w = None ->
  PathCache_GetResolvedPathAndType g path pr w = None ->
  (n < fuel)%nat ->
  (forall i, (i < n)%nat ->
     asks_for_more os hInput
       (offered INITIAL_REPARSE_DATA_BUILDXL_DETOURS_BUFFER_SIZE_FOR_FILE_NAMES i)) ->
  os_DeviceIoControl os hInput
    (offered INITIAL_REPARSE_DATA_BUILDXL_DETOURS_BUFFER_SIZE_FOR_FILE_NAMES n) = (true, d) ->
  IsActionableReparsePointType (ReparseTag d) = true ->
  exists w',
    TryGetReparsePointTarget os g fuel path hInput target pr w
    = Some (true, GetTargetNameFromReparseData d (ReparseTag d) target, w')
    /\ DeviceIoControl_calls w'
       = (DeviceIoControl_calls w
          ++ queries hInput INITIAL_REPARSE_DATA_BUILDXL_DETOURS_BUFFER_SIZE_FOR_FILE_NAMES
                     0 (S n))%list.
Proof.
  intros Hh Hflag Hmiss Hmiss2 Hfuel Hmore Hfit Hact.
  rewrite TryGetReparsePointTarget_unfold.
  destruct (resolving_check_flagged os g path hInput pr w true Hflag Hmiss)
    as (w1 & -> & Hle & Hio & Htg).
  cbn [negb]. rewrite Htg, Hmiss2.
  rewrite (bool_decide_eq_true_2 (hInput <> INVALID_HANDLE_VALUE)) by exact Hh.
  rewrite (bool_decide_eq_false_2 (hInput = INVALID_HANDLE_VALUE)) by exact Hh.
  destruct (QueryReparsePoint_first_fit os hInput n
              INITIAL_REPARSE_DATA_BUILDXL_DETOURS_BUFFER_SIZE_FOR_FILE_NAMES fuel
              ERROR_INSUFFICIENT_BUFFER empty_buffer w1 Hfuel)
    as (code & w2 & Hq & Ht & Hc & Hcd).
  { right. reflexivity. }
  { exact Hmore. }
  { left. rewrite Hfit. reflexivity. }
  rewrite Hq, Hfit in *. cbn [fst snd] in *. subst code.
  cbn [Z.eqb negb ERROR_SUCCESS]. change (ERROR_SUCCESS =? ERROR_SUCCESS) with true.
  cbn [negb]. rewrite Hact. cbn [negb].
  eexists. split; [reflexivity|].
  unfold DeviceIoControl_calls in *. unfold TryGetReparsePointTarget_Epilogue.
  rewrite (bool_decide_eq_false_2 (hInput <> hInput)) by tauto.
  rewrite andb_false_r. cbn [trace SetLastError].
  rewrite InsertResolvedPathWithType_trace, Ht, filter_app, Hio.
  rewrite DeviceIoControl_calls_queries. reflexivity.
Qed.

Lemma TryGetReparsePointTarget_first_fit_witness :
  let g := Example.globals false false Example.report_all in
  let pr := Example.policy true "C:\link" in
  exists w',
    TryGetReparsePointTarget Scenario.deep_link g 3 "C:\link" 1 "" pr (Example.fresh_world 0)
    = Some (true, String.append "C:\" Scenario.deep_target, w')
    /\ DeviceIoControl_calls w'
       = [ EvOs (CallDeviceIoControl 1 1024); EvOs (CallDeviceIoControl 1 2048);
           EvOs (CallDeviceIoControl 1 4096) ].
Proof.
  intros g pr.
  apply (TryGetReparsePointTarget_first_fit Scenario.deep_link g 3 "C:\link" 1 "" pr
           (Example.fresh_world 0) 2
           {| ReparseTag := IO_REPARSE_TAG_SYMLINK;
              PrintName := String.append "C:\" Scenario.deep_target;
              SubstituteName := String.append "C:\" Scenario.deep_target |}).
  - discriminate.
  - intros [e c t]. vm_compute. reflexivity.
  - reflexivity.
  - reflexivity.
  - lia.
  - intros i Hi. destruct i as [|[|i]]; [| |lia];
      (split; [vm_compute; reflexivity|intros e; left; vm_compute; reflexivity]).
  - vm_compute. reflexivity.
  - reflexivity.
Defined.

(** X6. The growing-buffer loop has no bound of its own. When the device
    answers every query on the handle with a request for more room, no
    number of rounds makes a fresh read of a flagged path return; and from
    the 23rd round on the buffer size offered, doubled as a [DWORD], is
    0. *)
Theorem TryGetReparsePointTarget_insatiable_device (os : OS) (g : Globals)
    path hInput target pr w :
  hInput <> INVALID_HANDLE_VALUE ->
  (forall w0, fst (IsReparsePoint os path hInput w0) = true) ->
  PathCache_GetResolvingCheckResult g path pr w = None ->
  PathCache_GetResolvedPathAndType g path pr w = None ->
  (forall size, asks_for_more os hInput size) ->
  (forall fuel, TryGetReparsePointTarget os g fuel path hInput target pr w = None)
  /\ (forall i, (22 <= i)%nat ->
        offered INITIAL_REPARSE_DATA_BUILDXL_DETOURS_BUFFER_SIZE_FOR_FILE_NAMES i = 0).
Proof.
  intros Hh Hflag Hmiss Hmiss2 Hmore. split; [|apply offered_initial_wraps].
  intros fuel. rewrite TryGetReparsePointTarget_unfold.
  destruct (resolving_check_flagged os g path hInput pr w true Hflag Hmiss)
    as (w1 & -> & Hle & Hio & Htg).
  cbn [negb]. rewrite Htg, Hmiss2.
  rewrite (bool_decide_eq_true_2 (hInput <> INVALID_HANDLE_VALUE)) by exact Hh.
  rewrite (bool_decide_eq_false_2 (hInput = INVALID_HANDLE_VALUE)) by exact Hh.
  rewrite (QueryReparsePoint_insatiable os hInput Hmore); [reflexivity|].
  right. reflexivity.
Qed.

Lemma TryGetReparsePointTarget_insatiable_device_witness :
  let g := Example.globals false false Example.report_all in
  (forall fuel,
      TryGetReparsePointTarget Scenario.insatiable_device g fuel "C:\link" 1 ""
                               (Example.policy true "C:\link") (Example.fresh_world 0) = None)
  /\ (forall i, (22 <= i)%nat ->
        offered INITIAL_REPARSE_DATA_BUILDXL_DETOURS_BUFFER_SIZE_FOR_FILE_NAMES i = 0).
Proof.
  intros g.
  apply (TryGetReparsePointTarget_insatiable_device Scenario.insatiable_device g).
  - discriminate.
  - intros [e c t]. reflexivity.
  - reflexivity.
  - reflexivity.
  - intros size. split; [reflexivity|]. intros e. left. reflexivity.
Defined.

(* ===================================================================== *)
(** ** The policy checks *)
(* ===================================================================== *)

(** X7. The read check and its exclusions. The check carries the kind of
    access asked for. An invalid path is allowed and never reported,
    whatever the policy, and so is every opened directory and every
    enumeration-induced probe allowed. An allowed check leaves the state
    as it is; a refused one is refused the way the configuration says
    (denied when unexpected accesses fail, a warning otherwise), logs one
    warning for the path of the policy and never blames the path: a denial
    of a read is always [ERROR_ACCESS_DENIED]. An opened directory is not
    reported explicitly unless directory probes are. *)
Theorem CheckReadAccess_exclusions (g : Globals) (pol : PolicyResult)
    (kind : RequestedReadAccess) (ctx : FileReadContext) (w : World) :
  let '(c, w') := CheckReadAccess g pol kind ctx w in
  Access c = RequestedReadAccess_value kind
  /\ (Existence ctx = InvalidPath ->
      c = mkAccessCheckResult (RequestedReadAccess_value kind) Allow Ignore Invalid /\ w' = w)
  /\ (Existence ctx <> InvalidPath ->
      OpenedDirectory ctx = true \/ kind = RRA_EnumerationProbe -> Result c = Allow)
  /\ (Result c = Allow -> w' = w)
  /\ (Result c <> Allow ->
      Result c = DenyOrWarn g /\ Validity c = Valid
      /\ w' = log (EvWarning "Read access to file path is denied" (PolicyPath pol)) w)
  /\ (ShouldDenyAccess c = true ->
      DenialError c = ERROR_ACCESS_DENIED /\ FailUnexpectedFileAccesses g = true)
  /\ (OpenedDirectory ctx = true -> ExplicitlyReportDirectoryProbes g = false ->
      Level c <> ReportExplicit).
Proof.
  unfold CheckReadAccess, WriteWarningOrErrorF.
  destruct ctx as [existence opened]. cbn [Existence OpenedDirectory].
  destruct existence; [| | cbn; repeat split; try congruence; discriminate];
    (match goal with |- context [if ?a then Allow else DenyOrWarn g] =>
       set (allow := a);
       assert (Hallow : opened = true \/ kind = RRA_EnumerationProbe -> allow = true)
         by (subst allow; intros [-> | ->]; cbn; rewrite ?orb_true_r; reflexivity);
       clearbody allow end);
    (match goal with |- context [if ?e then ReportExplicit else _] =>
       set (explicit := e);
       assert (Hexplicit : opened = true -> ExplicitlyReportDirectoryProbes g = false ->
                           explicit = false)
         by (subst explicit; intros -> ->; reflexivity);
       clearbody explicit end);
    unfold ShouldDenyAccess, DenialError, DenyOrWarn;
    destruct allow; cbn [Access Result Level Validity];
    try (rewrite (bool_decide_eq_false_2 (Allow <> Allow)) by (intros H; apply H; reflexivity));
    try (destruct (FailUnexpectedFileAccesses g);
         rewrite !bool_decide_eq_true_2 by discriminate);
    repeat split; try congruence; try discriminate; try (intros _; reflexivity);
    try (intros H; exfalso; apply H; reflexivity);
    try (intros _ H; specialize (Hallow H); discriminate);
    try (intros H1 H2; rewrite (Hexplicit H1 H2);
         match goal with |- context [ReportAnyAccess g ?b] =>
           destruct (ReportAnyAccess g b) end; discriminate).
Qed.

(** X8. The write check touches the disk only to explain a refusal. A
    write that the policy allows is answered without a call to the
    operating system, with the state untouched and the path taken as
    valid. A refused write probes the path of the policy once, with
    [GetFileAttributesW]; when the probe fails with [ERROR_INVALID_NAME]
    the refusal is not reported and no warning is logged, otherwise one
    warning follows the probe and the report level is the one the policy
    and the configuration ask for. The probe leaves its own last error
    behind. *)
Theorem CreateAccessCheckResult_probes_on_refusal (os : OS) (g : Globals)
    (pol : PolicyResult) (isAllowed : bool) (w : World) :
  let '(c, w') := CreateAccessCheckResult os g pol isAllowed w in
  let probe := CallGetFileAttributesW (PolicyPath pol) in
  let level :=
    if ReportAccess pol then ReportExplicit
    else if ReportAnyAccess g (negb isAllowed) then Report else Ignore in
  Access c = RequestedAccess_Write
  /\ Result c = (if isAllowed then Allow else DenyOrWarn g)
  /\ cache w' = cache w
  /\ (isAllowed = true -> w' = w /\ Validity c = Valid /\ Level c = level)
  /\ (isAllowed = false ->
      lastError w' = os_LastError os probe (lastError w)
      /\ (Validity c = Invalid ->
          Level c = Ignore /\ trace w' = (trace w ++ [EvOs probe])%list)
      /\ (Validity c <> Invalid ->
          Level c = level
          /\ trace w'
             = (trace w ++ [EvOs probe;
                            EvWarning "Write access to file path is denied" (PolicyPath pol)])%list)
      /\ (Validity c <> Valid ->
          os_GetFileAttributesW os (PolicyPath pol) = INVALID_FILE_ATTRIBUTES
          /\ lastError w' = DenialError c)).
Proof.
  destruct w as [e ca t].
  unfold CreateAccessCheckResult, CreateAccessCheckResult2, ProbePathForValidity,
    GetFileAttributesW, WriteWarningOrErrorF, GetLastError, os_call, log, DenialError.
  destruct isAllowed; cbn [negb].
  - rewrite !(bool_decide_eq_false_2 (Allow <> Allow)) by (intros H; apply H; reflexivity).
    cbn [Access Result Level Validity cache].
    split; [reflexivity|]. split; [reflexivity|]. split; [reflexivity|].
    split; [|discriminate]. intros _. repeat split.
  - assert (Hne : DenyOrWarn g <> Allow)
      by (unfold DenyOrWarn; destruct (FailUnexpectedFileAccesses g); discriminate).
    rewrite !(bool_decide_eq_true_2 _ Hne). cbn [lastError cache trace].
    set (err := os_LastError os (CallGetFileAttributesW (PolicyPath pol)) e).
    destruct (os_GetFileAttributesW os (PolicyPath pol) =? INVALID_FILE_ATTRIBUTES) eqn:Hinv;
      cbn [negb].
    + apply Z.eqb_eq in Hinv.
      destruct (err =? ERROR_PATH_NOT_FOUND) eqn:H3;
        [|destruct (err =? ERROR_INVALID_NAME) eqn:H123];
        cbn [Access Result Level Validity cache lastError trace];
        rewrite <- ?app_assoc; cbn [app];
        (split; [reflexivity|]); (split; [reflexivity|]); (split; [reflexivity|]);
        (split; [discriminate|]); intros _; (split; [reflexivity|]);
        (split; [try discriminate; intros _; split; reflexivity|]);
        (split; [try (intros H; exfalso; apply H; reflexivity); intros _; split; reflexivity|]);
        try (intros H; exfalso; apply H; reflexivity);
        intros _; (split; [exact Hinv|]).
      * apply Z.eqb_eq in H3. exact H3.
      * apply Z.eqb_eq in H123. exact H123.
    + cbn [Access Result Level Validity cache lastError trace];
        rewrite <- ?app_assoc; cbn [app].
      split; [reflexivity|]. split; [reflexivity|]. split; [reflexivity|].
      split; [discriminate|]. intros _. split; [reflexivity|].
      split; [discriminate|]. split; [intros _; split; reflexivity|].
      intros H; exfalso; apply H; reflexivity.
Qed.

(* ===================================================================== *)
(** ** The enforcer of one hop *)
(* ===================================================================== *)

Lemma CheckReadAccess_result g pol kind ctx w :
  cache (snd (CheckReadAccess g pol kind ctx w)) = cache w
  /\ (Result (fst (CheckReadAccess g pol kind ctx w)) = Allow
      \/ Result (fst (CheckReadAccess g pol kind ctx w)) = DenyOrWarn g).
Proof.
  unfold CheckReadAccess, WriteWarningOrErrorF.
  destruct (Existence ctx); cbn [fst snd Result];
    try (split; [reflexivity | left; reflexivity]);
    match goal with |- context [if ?c then Allow else DenyOrWarn g] => destruct c end;
    (split; [try reflexivity | auto]);
    case_bool_decide; reflexivity.
Qed.

Lemma CreateAccessCheckResult_result os g pol isAllowed w :
  cache (snd (CreateAccessCheckResult os g pol isAllowed w)) = cache w
  /\ (Result (fst (CreateAccessCheckResult os g pol isAllowed w)) = Allow
      \/ Result (fst (CreateAccessCheckResult os g pol isAllowed w)) = DenyOrWarn g).
Proof.
  unfold CreateAccessCheckResult, CreateAccessCheckResult2, ProbePathForValidity,
    GetFileAttributesW, WriteWarningOrErrorF.
  destruct isAllowed.
  - rewrite bool_decide_eq_false_2 by (intros H; apply H; reflexivity).
    split; [reflexivity | left; reflexivity].
  - case_bool_decide; [|split; [reflexivity | right; reflexivity]].
    repeat case_match; simplify_eq; cbn [fst snd Result cache log os_call];
      (split; [reflexivity | right; reflexivity]).
Qed.

Lemma Combine_Allow_or (r : ResultAction) (a b : AccessCheckResult) :
  Result a = Allow \/ Result a = r ->
  Result b = Allow \/ Result b = r ->
  Result (Combine a b) = Allow \/ Result (Combine a b) = r.
Proof.
  rewrite Combine_components. cbn [Result].
  intros [-> | ->] [-> | ->]; destruct r; cbn; auto.
Qed.

Lemma IsHandleOrPathToDirectory_cache os g h path da fa pol w :
  cache (snd (IsHandleOrPathToDirectory os g h path da fa pol w)) = cache w.
Proof.
  unfold IsHandleOrPathToDirectory, GetFileAttributesByHandle, GetFileAttributesByPath,
    GetFileInformationByHandle, GetFileAttributesW.
  case_bool_decide; [destruct (os_GetFileInformationByHandle os h)|]; reflexivity.
Qed.

Lemma EnforceReparsePointAccess_check_result os g key ctx pol icd ac w :
  Result ac = Allow \/ Result ac = DenyOrWarn g ->
  let '(ac', ctx', w1) := EnforceReparsePointAccess_check os g key ctx pol icd ac w in
  cache w1 = cache w /\ (Result ac' = Allow \/ Result ac' = DenyOrWarn g).
Proof.
  intros Hac. unfold EnforceReparsePointAccess_check.
  set (first := if WantsWriteAccess (DesiredAccess ctx)
                then if icd then CheckCreateDirectoryAccess os g pol w
                     else CheckWriteAccess os g pol w
                else (ac, w)).
  assert (H1 : cache (snd first) = cache w
               /\ (Result (fst first) = Allow \/ Result (fst first) = DenyOrWarn g)).
  { subst first. unfold CheckCreateDirectoryAccess, CheckWriteAccess.
    destruct (WantsWriteAccess (DesiredAccess ctx)); [|split; [reflexivity|exact Hac]].
    destruct icd; apply CreateAccessCheckResult_result. }
  destruct first as [ac1 w1]. cbn [fst snd] in H1. destruct H1 as [Hc1 Hr1].
  destruct (WantsReadAccess (DesiredAccess ctx) || WantsProbeOnlyAccess (DesiredAccess ctx));
    [|split; assumption].
  pose proof (IsHandleOrPathToDirectory_cache os g INVALID_HANDLE_VALUE key (DesiredAccess ctx)
                (FlagsAndAttributes ctx) pol w1) as Hc2.
  destruct (IsHandleOrPathToDirectory os g INVALID_HANDLE_VALUE key (DesiredAccess ctx)
              (FlagsAndAttributes ctx) pol w1) as [[od attrs] w2]. cbn [snd] in Hc2.
  unfold GetFileAttributesW. cbn [DesiredAccess with_OpenedFileOrDirectoryAttributes].
  match goal with |- context [CheckReadAccess g pol ?k ?c ?wx] =>
    pose proof (CheckReadAccess_result g pol k c wx) as [Hc3 Hr3];
    destruct (CheckReadAccess g pol k c wx) as [rc w3] end.
  cbn [fst snd cache os_call] in *. split; [congruence|].
  apply Combine_Allow_or; assumption.
Qed.

(** X9. The error contract of enforcing one hop. The call never touches
    the path cache. When it answers true, the last error and the status
    behind [pNtStatus] are the caller's. It answers false in two cases
    only: the policy of the path cannot be determined, and then the last
    error is still the caller's, the one set while reporting the
    indeterminate policy being overwritten; or access is enforced, the
    configuration makes unexpected accesses fail and a check denies, and
    then the last error is the denial error of the check (access denied,
    path not found or invalid name) and the matching status is written
    through [pNtStatus] when the pointer is not null. *)
Theorem EnforceReparsePointAccess_error_contract (os : OS) (g : Globals)
    (init : string -> option PolicyResult) (ierr : DWORD)
    key da sm cd fa pNt enforceAccess icd fully name w :
  let '(ret, pNt', w') :=
    EnforceReparsePointAccess os g init ierr key da sm cd fa pNt enforceAccess icd fully
                              name w in
  cache w' = cache w
  /\ (ret = true -> lastError w' = lastError w /\ pNt' = pNt)
  /\ (ret = false ->
      (init key = None /\ lastError w' = lastError w /\ pNt' = pNt)
      \/ (is_Some (init key) /\ enforceAccess = true /\ FailUnexpectedFileAccesses g = true
          /\ (lastError w' = ERROR_ACCESS_DENIED /\ pNt' = option_map (fun _ => 0xC0000022) pNt
              \/ lastError w' = ERROR_PATH_NOT_FOUND
                 /\ pNt' = option_map (fun _ => 0xC000003A) pNt
              \/ lastError w' = ERROR_INVALID_NAME
                 /\ pNt' = option_map (fun _ => 0xC0000033) pNt))).
Proof.
  unfold EnforceReparsePointAccess.
  destruct (init key) as [pol|].
  2:{ cbn. repeat split; try discriminate. intros _. left. repeat split. }
  assert (Hrep : forall ac ctx e wx, cache (SetLastError e (ReportIfNeeded ac ctx e wx)) = cache wx
                                     /\ lastError (SetLastError e (ReportIfNeeded ac ctx e wx)) = e).
  { intros ac ctx e wx. unfold ReportIfNeeded. destruct (negb (ShouldReport ac)); split; reflexivity. }
  destruct enforceAccess.
  2:{ destruct (Hrep (AccessCheckResult3 RequestedAccess_None Allow Ignore)
                  (EnforceReparsePointAccess_opContext key da sm cd fa fully name)
                  (GetLastError w) w) as [Hc He].
      split; [exact Hc|]. split; [intros _; split; [exact He|reflexivity]|discriminate]. }
  pose proof (EnforceReparsePointAccess_check_result os g key
                (EnforceReparsePointAccess_opContext key da sm cd fa fully name) pol icd
                (AccessCheckResult3 RequestedAccess_None Allow Ignore) w
                (or_introl eq_refl)) as Hck.
  destruct (EnforceReparsePointAccess_check os g key _ pol icd _ w) as [[ac' ctx'] w1].
  destruct Hck as [Hc1 Hres].
  destruct (ShouldDenyAccess ac') eqn:Hd.
  - destruct (Hrep ac' ctx' (DenialError ac') w1) as [Hc He].
    split; [congruence|]. split; [discriminate|]. intros _. right.
    split; [eauto|]. split; [reflexivity|].
    unfold ShouldDenyAccess in Hd. apply bool_decide_eq_true_1 in Hd.
    split.
    + destruct Hres as [Hres|Hres]; [congruence|].
      rewrite Hd in Hres. unfold DenyOrWarn in Hres.
      destruct (FailUnexpectedFileAccesses g); [reflexivity|discriminate].
    + rewrite He. unfold DenialError, DenialNtStatus.
      destruct (Validity ac'); auto.
  - destruct (Hrep ac' ctx' (GetLastError w) w1) as [Hc He].
    split; [congruence|]. split; [intros _; split; [exact He|reflexivity]|discriminate].
Qed.

(** X10. Directories are always allowed, through the enforcer. A hop whose
    path is a plain directory on disk and which is not policed for a write
    (an intermediate hop never is) is allowed whatever the policy of the
    path says: the call answers true, logs no warning, leaves the last
    error alone, and a report, if one is sent, carries the status
    Allowed. *)
Theorem EnforceReparsePointAccess_directory_allowed (os : OS) (g : Globals)
    (init : string -> option PolicyResult) (ierr : DWORD)
    key da sm cd fa pNt icd fully name w :
  is_Some (init key) ->
  os_GetFileAttributesW os key <> INVALID_FILE_ATTRIBUTES ->
  has_any (os_GetFileAttributesW os key) FILE_ATTRIBUTE_DIRECTORY = true ->
  has_any (os_GetFileAttributesW os key) FILE_ATTRIBUTE_REPARSE_POINT = false ->
  (fully = true -> WantsWriteAccess da = false) ->
  exists w' evs,
    EnforceReparsePointAccess os g init ierr key da sm cd fa pNt true icd fully name w
    = (true, pNt, w')
    /\ lastError w' = lastError w
    /\ trace w' = (trace w ++ evs)%list
    /\ warnings evs = []
    /\ Forall (fun e => reported_status e = Some FileAccessStatus_Allowed) (reports evs).
Proof.
  intros [pol Hpol] Hvalid Hdir Hnot Hwrite.
  destruct w as [e c t].
  unfold EnforceReparsePointAccess. rewrite Hpol.
  unfold EnforceReparsePointAccess_check.
  set (ctx := EnforceReparsePointAccess_opContext key da sm cd fa fully name).
  assert (Hw : WantsWriteAccess (DesiredAccess ctx) = false).
  { subst ctx. destruct fully; [apply Hwrite; reflexivity | reflexivity]. }
  rewrite Hw.
  destruct (WantsReadAccess (DesiredAccess ctx) || WantsProbeOnlyAccess (DesiredAccess ctx)).
  2:{ cbn. eexists _, []. rewrite app_nil_r. repeat split. constructor. }
  unfold IsHandleOrPathToDirectory, GetFileAttributesByPath, GetFileAttributesW,
    IsDirectoryFromAttributes.
  rewrite bool_decide_eq_false_2 by (intros H; apply H; reflexivity).
  cbn [negb]. apply Z.eqb_neq in Hvalid. rewrite Hvalid, Hdir, Hnot. cbn [negb andb].
  rewrite orb_true_r.
  unfold CheckReadAccess. cbn [Existence OpenedDirectory orb].
  rewrite bool_decide_eq_false_2 by (intros H; apply H; reflexivity).
  match goal with |- context [Combine ?a ?b] => set (check := Combine a b) end.
  assert (Hres : Result check = Allow) by (subst check; rewrite Combine_components; reflexivity).
  clearbody check. unfold ShouldDenyAccess. rewrite Hres.
  rewrite bool_decide_eq_false_2 by discriminate.
  unfold ReportIfNeeded, ReportFileAccess, GetFileAccessStatus. rewrite Hres.
  rewrite bool_decide_eq_false_2 by (intros H; apply H; reflexivity).
  unfold SetLastError, os_call, GetLastError, log.
  destruct (negb (ShouldReport check)); cbn [lastError cache trace];
    rewrite <- ?app_assoc; cbn [app];
    eexists _, _; (split; [reflexivity|]); (split; [reflexivity|]);
    (split; [reflexivity|]); (split; [reflexivity|]); repeat constructor.
Qed.

Lemma EnforceReparsePointAccess_directory_allowed_witness :
  exists w' evs,
    EnforceReparsePointAccess Example.repo_with_junction Example.walker_globals
      (fun p => Some (Example.policy false p)) ERROR_ACCESS_DENIED
      "repo\target" GENERIC_READ FILE_SHARE_READ OPEN_EXISTING 0 None true false true
      "ReparsePointTarget" (Example.fresh_world 0)
    = (true, None, w')
    /\ lastError w' = lastError (Example.fresh_world 0)
    /\ trace w' = (trace (Example.fresh_world 0) ++ evs)%list
    /\ warnings evs = []
    /\ Forall (fun e => reported_status e = Some FileAccessStatus_Allowed) (reports evs).
Proof.
  apply (EnforceReparsePointAccess_directory_allowed Example.repo_with_junction
           Example.walker_globals (fun p => Some (Example.policy false p))).
  - eexists. reflexivity.
  - vm_compute. discriminate.
  - vm_compute. reflexivity.
  - vm_compute. reflexivity.
  - intros _. reflexivity.
Defined.

(* ===================================================================== *)
(** ** The chain loop: the resolved path and the skipped hops *)
(* ===================================================================== *)

Lemma last_FullyResolved_from table order found :
  fold_left
    (fun found key =>
       if bool_decide (map_at table key = Some FullyResolved) then Some key else found)
    order found
  = match last_FullyResolved table order with Some k => Some k | None => found end.
Proof.
  unfold last_FullyResolved. revert found.
  induction order as [|key rest IH]; intros found; [reflexivity|].
  cbn [fold_left].
  rewrite (IH (if bool_decide (map_at table key = Some FullyResolved)
               then Some key else found)).
  rewrite (IH (if bool_decide (map_at table key = Some FullyResolved)
               then Some key else None)).
  destruct (fold_left _ rest None); [reflexivity|].
  case_bool_decide; reflexivity.
Qed.

Lemma last_FullyResolved_cons table key rest :
  last_FullyResolved table (key :: rest)
  = match last_FullyResolved table rest with
    | Some k => Some k
    | None => if bool_decide (map_at table key = Some FullyResolved) then Some key else None
    end.
Proof.
  unfold last_FullyResolved at 1. cbn [fold_left]. apply last_FullyResolved_from.
Qed.

(** What the loop leaves behind [resolvedPath]. *)
Lemma EnforceChainOfReparsePointAccesses_loop_resolvedPath
    os g init ierr table da sm cd fa pr enforceAccess icd eafrp name :
  forall cachedOrder pNt rp success w ok pNt' rp' w',
    EnforceChainOfReparsePointAccesses_loop os g init ierr cachedOrder table
      da sm cd fa pr pNt enforceAccess icd rp eafrp name success w
    = Some (ok, pNt', rp', w') ->
    rp' = if IgnoreFullReparsePointResolvingForPath g pr then rp
          else match last_FullyResolved table cachedOrder with
               | Some k => option_map (fun _ => k) rp
               | None => rp
               end.
Proof.
  induction cachedOrder as [|key rest IH]; intros pNt rp success w ok pNt' rp' w' H.
  - cbn in H. injection H as <- <- <- <-.
    destruct (IgnoreFullReparsePointResolvingForPath g pr); reflexivity.
  - cbn [EnforceChainOfReparsePointAccesses_loop] in H.
    rewrite last_FullyResolved_cons.
    destruct (map_at table key) as [type|] eqn:Hty; [|discriminate].
    set (rp1 := if negb (IgnoreFullReparsePointResolvingForPath g pr)
                   && bool_decide (type = FullyResolved)
                then option_map (fun _ => key) rp else rp) in H.
    assert (Hrp1 : rp' = if IgnoreFullReparsePointResolvingForPath g pr then rp1
                         else match last_FullyResolved table rest with
                              | Some k => option_map (fun _ => k) rp1
                              | None => rp1
                              end).
    { destruct (negb (IgnoreFullReparsePointResolvingForPath g pr)
                && bool_decide (type = FullyResolved) && negb eafrp).
      - eapply IH. exact H.
      - destruct (EnforceReparsePointAccess os g init ierr key da sm cd fa pNt enforceAccess
                    icd (bool_decide (type = FullyResolved)) name w) as [[ok1 pNt1] w1].
        eapply IH. exact H. }
    rewrite Hrp1. subst rp1. clear.
    destruct (IgnoreFullReparsePointResolvingForPath g pr); cbn [negb andb]; [reflexivity|].
    destruct type.
    + rewrite (bool_decide_eq_false_2 (Intermediate = FullyResolved)) by discriminate.
      rewrite (bool_decide_eq_false_2 (Some Intermediate = Some FullyResolved)) by discriminate.
      destruct (last_FullyResolved table rest); reflexivity.
    + rewrite (bool_decide_eq_true_2 (FullyResolved = FullyResolved)) by reflexivity.
      rewrite (bool_decide_eq_true_2 (Some FullyResolved = Some FullyResolved)) by reflexivity.
      destruct (last_FullyResolved table rest); destruct rp; reflexivity.
Qed.

(** X11. What the caller gets back through [resolvedPath]. Enforcing a
    chain under a policy for which full reparse point resolving is ignored
    never writes the resolved path; otherwise it is, when the pointer is
    not null, the last key of the chain tagged FullyResolved, and the
    caller's value when the chain has none, whether or not the resolved
    hop is enforced. *)
Theorem EnforceChainOfReparsePointAccesses_resolved_path
    (os : OS) (g : Globals) (init : string -> option PolicyResult) (ierr : DWORD)
    table da sm cd fa pr pNt enforceAccess icd rp eafrp name success w cachedOrder
    ok pNt' rp' w' :
  EnforceChainOfReparsePointAccesses_loop os g init ierr cachedOrder table
    da sm cd fa pr pNt enforceAccess icd rp eafrp name success w
  = Some (ok, pNt', rp', w') ->
  (IgnoreFullReparsePointResolvingForPath g pr = true -> rp' = rp)
  /\ (IgnoreFullReparsePointResolvingForPath g pr = false ->
      rp' = match last_FullyResolved table cachedOrder with
            | Some k => option_map (fun _ => k) rp
            | None => rp
            end).
Proof.
  intros H. apply EnforceChainOfReparsePointAccesses_loop_resolvedPath in H.
  split; intros Hi; rewrite Hi in H; exact H.
Qed.

Lemma EnforceChainOfReparsePointAccesses_resolved_path_witness :
  let g := Example.globals false false Example.report_all in
  exists ok pNt' w',
    EnforceChainOfReparsePointAccesses_loop Example.chain_ABC g
      Example.manifest_denying_B ERROR_ACCESS_DENIED ["C:\A"; "C:\B"; "C:\C"]
      Example.table_ABC GENERIC_READ FILE_SHARE_READ OPEN_EXISTING 0
      (Example.policy true "C:\A") None true false (Some "") false
      "ReparsePointTargetCached" true (Example.fresh_world 0)
    = Some (ok, pNt', Some "C:\C", w').
Proof.
  intros g.
  destruct (EnforceChainOfReparsePointAccesses_loop Example.chain_ABC g
      Example.manifest_denying_B ERROR_ACCESS_DENIED ["C:\A"; "C:\B"; "C:\C"]
      Example.table_ABC GENERIC_READ FILE_SHARE_READ OPEN_EXISTING 0
      (Example.policy true "C:\A") None true false (Some "") false
      "ReparsePointTargetCached" true (Example.fresh_world 0))
    as [[[[ok pNt'] rp'] w']|] eqn:H.
  - exists ok, pNt', w'.
    destruct (EnforceChainOfReparsePointAccesses_resolved_path _ _ _ _ _ _ _ _ _ _ _ _ _ _ _ _
                _ _ _ _ _ _ _ H) as [_ Hrp].
    rewrite (Hrp eq_refl). reflexivity.
  - vm_compute in H. discriminate.
Defined.

(** X12. A resolved hop that is not to be enforced leaves no trace. When
    full reparse point resolving applies to the path and
    [enforceAccessForResolvedPath] is false, enforcing a chain does, apart
    from what it writes behind [resolvedPath], exactly what enforcing its
    hops that are not tagged FullyResolved does: the same policy lookups,
    calls to the operating system, reports and last error, and the same
    answer. *)
Theorem EnforceChainOfReparsePointAccesses_skips_resolved_hops
    (os : OS) (g : Globals) (init : string -> option PolicyResult) (ierr : DWORD)
    table da sm cd fa pr enforceAccess icd name eafrp :
  IgnoreFullReparsePointResolvingForPath g pr = false ->
  forall cachedOrder pNt rp rp0 success w,
    without_resolvedPath
      <$> EnforceChainOfReparsePointAccesses_loop os g init ierr cachedOrder table
            da sm cd fa pr pNt enforceAccess icd rp false name success w
    = without_resolvedPath
        <$> EnforceChainOfReparsePointAccesses_loop os g init ierr
              (Intermediate_hops table cachedOrder) table
              da sm cd fa pr pNt enforceAccess icd rp0 eafrp name success w.
Proof.
  intros Hfull.
  induction cachedOrder as [|key rest IH]; intros pNt rp rp0 success w; [reflexivity|].
  unfold Intermediate_hops in *. cbn [EnforceChainOfReparsePointAccesses_loop].
  rewrite Hfull. cbn [negb andb].
  destruct (map_at table key) as [[]|] eqn:Hty.
  - rewrite filter_cons_True by (rewrite Hty; discriminate).
    cbn [EnforceChainOfReparsePointAccesses_loop]. rewrite Hty, Hfull.
    rewrite !bool_decide_eq_false_2 by discriminate. cbn [negb andb].
    destruct (EnforceReparsePointAccess os g init ierr key da sm cd fa pNt enforceAccess icd
                false name w) as [[ok1 pNt1] w1].
    apply IH.
  - rewrite filter_cons_False by (rewrite Hty; intros H; apply H; reflexivity).
    rewrite !bool_decide_eq_true_2 by reflexivity. cbn [negb andb].
    apply IH.
  - rewrite filter_cons_True by (rewrite Hty; discriminate).
    cbn [EnforceChainOfReparsePointAccesses_loop]. rewrite Hty. reflexivity.
Qed.

Lemma EnforceChainOfReparsePointAccesses_skips_resolved_hops_witness :
  let g := Example.globals false false Example.report_all in
  without_resolvedPath
    <$> EnforceChainOfReparsePointAccesses_loop Example.chain_ABC g
          Example.manifest_denying_B ERROR_ACCESS_DENIED ["C:\A"; "C:\B"; "C:\C"]
          Example.table_ABC GENERIC_READ FILE_SHARE_READ OPEN_EXISTING 0
          (Example.policy true "C:\A") None true false (Some "") false
          "ReparsePointTargetCached" true (Example.fresh_world 0)
  = without_resolvedPath
      <$> EnforceChainOfReparsePointAccesses_loop Example.chain_ABC g
            Example.manifest_denying_B ERROR_ACCESS_DENIED ["C:\A"; "C:\B"]
            Example.table_ABC GENERIC_READ FILE_SHARE_READ OPEN_EXISTING 0
            (Example.policy true "C:\A") None true false None true
            "ReparsePointTargetCached" true (Example.fresh_world 0).
Proof.
  intros g.
  exact (EnforceChainOfReparsePointAccesses_skips_resolved_hops Example.chain_ABC g
           Example.manifest_denying_B ERROR_ACCESS_DENIED Example.table_ABC
           GENERIC_READ FILE_SHARE_READ OPEN_EXISTING 0 (Example.policy true "C:\A")
           true false "ReparsePointTargetCached" true eq_refl
           ["C:\A"; "C:\B"; "C:\C"] None (Some "") None true (Example.fresh_world 0)).
Defined.

Lemma EnforceReparsePointAccess_unenforced os g init ierr key da sm cd fa pNt icd fully name
    pol w :
  init key = Some pol ->
  EnforceReparsePointAccess os g init ierr key da sm cd fa pNt false icd fully name w
  = (true, pNt, w).
Proof.
  intros Hpol. unfold EnforceReparsePointAccess. rewrite Hpol.
  destruct w; reflexivity.
Qed.

(** X13. Without [enforceAccess] nothing is checked and nothing reported.
    A hop whose policy can be determined is answered true with the state
    exactly as it was: no call to the operating system, no report, no
    warning; a hop whose policy cannot be determined is answered false
    after the one report of the indeterminate policy, with the caller's
    last error. So a chain whose hops all have a type and a policy is
    answered with the running result it started from, and only the
    resolved path may have been written. *)
Theorem EnforceChainOfReparsePointAccesses_unenforced
    (os : OS) (g : Globals) (init : string -> option PolicyResult) (ierr : DWORD)
    da sm cd fa icd name :
  (forall key pNt fully w,
      EnforceReparsePointAccess os g init ierr key da sm cd fa pNt false icd fully name w
      = match init key with
        | Some _ => (true, pNt, w)
        | None =>
            (false, pNt,
             log (EvReportIndeterminatePolicy
                    (EnforceReparsePointAccess_opContext key da sm cd fa fully name)) w)
        end)
  /\ (forall table pr eafrp cachedOrder pNt rp success w,
        (forall key, key ∈ cachedOrder -> is_Some (map_at table key) /\ is_Some (init key)) ->
        exists rp',
          EnforceChainOfReparsePointAccesses_loop os g init ierr cachedOrder table
            da sm cd fa pr pNt false icd rp eafrp name success w
          = Some (success, pNt, rp', w)).
Proof.
  split.
  - intros key pNt fully w. destruct (init key) as [pol|] eqn:Hpol.
    + eapply EnforceReparsePointAccess_unenforced. exact Hpol.
    + unfold EnforceReparsePointAccess. rewrite Hpol. destruct w; reflexivity.
  - intros table pr eafrp.
    induction cachedOrder as [|key rest IH]; intros pNt rp success w Hall.
    + exists rp. reflexivity.
    + cbn [EnforceChainOfReparsePointAccesses_loop].
      destruct (Hall key) as [[type Hty] [pol Hpol]]; [left|].
      rewrite Hty.
      assert (Hrest : forall key, key ∈ rest -> is_Some (map_at table key) /\ is_Some (init key)).
      { intros k Hk. apply Hall. right. exact Hk. }
      destruct (negb (IgnoreFullReparsePointResolvingForPath g pr)
                && bool_decide (type = FullyResolved) && negb eafrp).
      * apply IH. exact Hrest.
      * rewrite (EnforceReparsePointAccess_unenforced os g init ierr key da sm cd fa pNt icd
                   _ name pol w Hpol).
        rewrite andb_true_r. apply IH. exact Hrest.
Qed.

Lemma Combine_neutral_l x :
  Combine (AccessCheckResult3 RequestedAccess_None Allow Ignore) x = x.
Proof.
  destruct x as [a r l v]. rewrite Combine_components.
  cbn [Access Result Level Validity AccessCheckResult3].
  f_equal; [destruct r | destruct l | destruct v]; reflexivity.
Qed.

Lemma CheckReadAccess_refusal g pol kind ctx w :
  let '(c, w') := CheckReadAccess g pol kind ctx w in
  Access c = RequestedReadAccess_value kind
  /\ (Result c = Allow -> w' = w)
  /\ (Result c <> Allow ->
      w' = log (EvWarning "Read access to file path is denied" (PolicyPath pol)) w).
Proof.
  unfold CheckReadAccess, WriteWarningOrErrorF.
  destruct (Existence ctx); cbn [Access Result];
    try (repeat split; congruence);
    match goal with |- context [if ?c then Allow else DenyOrWarn g] => destruct c end;
    try (rewrite bool_decide_eq_false_2 by (intros H; apply H; reflexivity);
         repeat split; congruence);
    unfold DenyOrWarn; destruct (FailUnexpectedFileAccesses g);
    rewrite !bool_decide_eq_true_2 by discriminate; repeat split; congruence.
Qed.

(** ** Splitting a path into atoms *)
(* ===================================================================== *)

Lemma substring_0_0 s : String.substring 0 0 s = "".
Proof. destruct s; reflexivity. Qed.

Lemma append_String c s t : String.append (String c s) t = String c (String.append s t).
Proof. reflexivity. Qed.

Lemma substring_split s : forall a b c,
  String.append (String.substring a b s) (String.substring (a + b) c s)
  = String.substring a (b + c) s.
Proof.
  induction s as [|ch s IH]; intros a b c.
  - destruct a, b, c; reflexivity.
  - destruct a as [|a].
    + destruct b as [|b]; cbn [Nat.add].
      * reflexivity.
      * cbn [String.substring]. rewrite append_String. f_equal. apply (IH O b c).
    + cbn [Nat.add String.substring]. apply IH.
Qed.

Lemma substring_length s : forall a b,
  String.length (String.substring a b s) = Nat.min b (String.length s - a).
Proof.
  induction s as [|ch s IH]; intros a b.
  - destruct a, b; reflexivity.
  - destruct a as [|a]; [destruct b as [|b]|]; cbn [String.substring String.length].
    + reflexivity.
    + rewrite IH. cbn. rewrite Nat.sub_0_r. reflexivity.
    + rewrite IH. reflexivity.
Qed.

Lemma substring_all s : String.substring 0 (String.length s) s = s.
Proof. induction s as [|ch s IH]; [reflexivity|]. cbn. rewrite IH. reflexivity. Qed.

Lemma substring_prefix s : forall a b c,
  (a + b <= c)%nat ->
  String.substring a b (String.substring 0 c s) = String.substring a b s.
Proof.
  induction s as [|ch s IH]; intros a b c H.
  - destruct c; cbn; destruct a, b; reflexivity.
  - destruct c as [|c].
    + assert (a = O) by lia. assert (b = O) by lia. subst. reflexivity.
    + cbn [String.substring]. destruct a as [|a].
      * destruct b as [|b]; [reflexivity|]. cbn [String.substring]. f_equal.
        apply (IH O b c). lia.
      * cbn [String.substring]. apply IH. lia.
Qed.


Lemma append_nil_r s : String.append s "" = s.
Proof. induction s as [|c s IH]; [reflexivity|]. rewrite append_String, IH. reflexivity. Qed.

Lemma append_assoc s t u :
  String.append (String.append s t) u = String.append s (String.append t u).
Proof. induction s as [|c s IH]; [reflexivity|]. rewrite !append_String, IH. reflexivity. Qed.

Lemma join_app l1 l2 : join (l1 ++ l2) = String.append (join l1) (join l2).
Proof.
  induction l1 as [|a l1 IH]; [reflexivity|].
  cbn [app join fold_right]. fold (join (l1 ++ l2)). fold (join l1).
  rewrite IH, append_assoc. reflexivity.
Qed.

Lemma substr_substring s p n :
  0 <= p -> 0 <= n -> p + n <= WString.length s ->
  WString.substr s p n = String.substring (Z.to_nat p) (Z.to_nat n) s.
Proof.
  intros Hp Hn Hl. unfold WString.substr. f_equal. f_equal. lia.
Qed.

Lemma substr_from_substring s a :
  0 <= a <= WString.length s ->
  WString.substr_from s a = String.substring (Z.to_nat a) (Z.to_nat (WString.length s - a)) s.
Proof.
  intros Ha. unfold WString.substr_from, WString.substr. f_equal. f_equal. lia.
Qed.

Lemma length_substr_0 s b :
  0 <= b <= WString.length s -> WString.length (WString.substr s 0 b) = b.
Proof.
  intros Hb. rewrite substr_substring by lia. unfold WString.length in *.
  rewrite substring_length. lia.
Qed.

Lemma substr_0_substr_0 s a b :
  0 <= a <= b -> b <= WString.length s ->
  WString.substr (WString.substr s 0 b) 0 a = WString.substr s 0 a.
Proof.
  intros Ha Hb.
  rewrite (substr_substring (WString.substr s 0 b)) by (rewrite ?length_substr_0; lia).
  rewrite !(substr_substring s) by lia.
  apply substring_prefix. lia.
Qed.

Lemma substr_from_prefix s a b :
  0 <= a <= b -> b <= WString.length s ->
  String.append (WString.substr_from (WString.substr s 0 b) a) (WString.substr_from s b)
  = WString.substr_from s a.
Proof.
  intros Ha Hb.
  rewrite (substr_from_substring (WString.substr s 0 b)) by (rewrite length_substr_0; lia).
  rewrite length_substr_0 by lia.
  rewrite (substr_substring s 0 b) by lia.
  rewrite substring_prefix by lia.
  rewrite !(substr_from_substring s) by lia.
  replace (Z.to_nat b) with (Z.to_nat a + Z.to_nat (b - a))%nat at 1 by lia.
  rewrite substring_split. f_equal. lia.
Qed.

Lemma substr_from_nonempty s a :
  0 <= a < WString.length s -> WString.substr_from s a <> "".
Proof.
  intros Ha H. apply (f_equal String.length) in H.
  rewrite substr_from_substring, substring_length in H by lia.
  unfold WString.length in *. cbn in H. lia.
Qed.

Lemma substr_0_substr_from s a :
  0 <= a <= WString.length s ->
  String.append (WString.substr s 0 a) (WString.substr_from s a) = s.
Proof.
  intros Ha. rewrite substr_substring, substr_from_substring by lia.
  change (Z.to_nat 0) with O.
  replace (Z.to_nat a) with (0 + Z.to_nat a)%nat at 2 by lia.
  rewrite substring_split.
  replace (Z.to_nat a + Z.to_nat (WString.length s - a))%nat with (String.length s)
    by (unfold WString.length in *; lia).
  apply substring_all.
Qed.

Lemma substr_from_0 s : WString.substr_from s 0 = s.
Proof.
  rewrite substr_from_substring by (unfold WString.length; lia).
  rewrite Z.sub_0_r. unfold WString.length. rewrite Nat2Z.id. apply substring_all.
Qed.

Lemma substr_0_0 s : WString.substr s 0 0 = "".
Proof.
  rewrite substr_substring by (unfold WString.length; lia). apply substring_0_0.
Qed.

(** The loop of [SplitPathsReverse], run to its end: [dir] is cut back to
    its root and the atoms pushed, written in reverse, are the rest. *)
Lemma SplitPathsReverse_loop_atoms r :
  0 <= r ->
  forall fuel i dir atoms,
    r <= i < WString.length dir ->
    (Z.to_nat i < fuel)%nat ->
    exists new,
      SplitPathsReverse_loop fuel r i dir atoms = (WString.substr dir 0 r, (atoms ++ new)%list)
      /\ new <> []
      /\ Forall (fun a => a <> "") new
      /\ join (rev new) = WString.substr_from dir r.
Proof.
  intros Hr. induction fuel as [|fuel IH]; intros i dir atoms Hi Hfuel; [lia|].
  cbn [SplitPathsReverse_loop].
  replace (i >=? r) with true by (symmetry; rewrite Z.geb_leb; apply Z.leb_le; lia).
  pose proof (SplitPathsReverse_skip_range dir r (S (Z.to_nat i)) i ltac:(lia)) as Hk.
  set (k := SplitPathsReverse_skip (S (Z.to_nat i)) dir r i) in *. clearbody k.
  replace (k >=? r) with true by (symmetry; rewrite Z.geb_leb; apply Z.leb_le; lia).
  unfold vector_push_back.
  assert (Hatom : WString.substr_from dir k <> "") by (apply substr_from_nonempty; lia).
  destruct (k =? 0) eqn:Hk0.
  - apply Z.eqb_eq in Hk0. assert (r = 0) by lia. subst r. rewrite Hk0 in *.
    exists [WString.substr_from dir 0]. split; [reflexivity|]. split; [discriminate|].
    split; [repeat constructor; exact Hatom|]. cbn. apply append_nil_r.
  - apply Z.eqb_neq in Hk0.
    destruct (Z.eq_dec k r) as [Hkr|Hkr].
    + (* the atom that starts at the root boundary: the loop ends *)
      exists [WString.substr_from dir k]. split.
      * rewrite Hkr. destruct fuel as [|fuel]; [reflexivity|].
        cbn [SplitPathsReverse_loop].
        replace (r - 1 >=? r) with false
          by (symmetry; rewrite Z.geb_leb; apply Z.leb_gt; lia).
        reflexivity.
      * split; [discriminate|]. split; [repeat constructor; exact Hatom|].
        cbn. rewrite append_nil_r, Hkr. reflexivity.
    + destruct (IH (k - 1) (WString.substr dir 0 k) (atoms ++ [WString.substr_from dir k])%list)
        as (new & Hloop & Hne & Hall & Hjoin).
      * rewrite length_substr_0 by lia. lia.
      * lia.
      * exists (WString.substr_from dir k :: new). rewrite Hloop. split.
        -- rewrite substr_0_substr_0 by lia. rewrite <- app_assoc. reflexivity.
        -- split; [discriminate|]. split; [constructor; assumption|].
           cbn [rev]. rewrite join_app, Hjoin. cbn [join fold_right].
           rewrite append_nil_r. apply substr_from_prefix; lia.
Qed.

Lemma SplitPathsReverse_unfold GetRootLength path atoms :
  SplitPathsReverse GetRootLength path atoms
  = let len := length_without_trailing_separator path in
    let r := GetRootLength path in
    if len <=? r then atoms
    else
      let '(dir, atoms) := SplitPathsReverse_loop (S (Z.to_nat (len - 1))) r (len - 1) path atoms in
      if negb (WString.length dir =? 0) then vector_push_back atoms dir else atoms.
Proof. reflexivity. Qed.

(** X14. Splitting a path loses nothing. [SplitPathsReverse] only appends
    to [atoms], and never an empty atom. A path that is no longer than its
    root, a closing separator not counted, adds no atom. Any other path
    adds atoms that, written one after the other from the last to the
    first, give back the path as it was, closing separator included; and
    the root, when the path has one, is the last atom added, in one
    piece. *)
Theorem SplitPathsReverse_atoms (GetRootLength : string -> size_t) (path : string)
    (atoms : list string) :
  0 <= GetRootLength path ->
  exists new,
    SplitPathsReverse GetRootLength path atoms = (atoms ++ new)%list
    /\ Forall (fun a => a <> "") new
    /\ (length_without_trailing_separator path <= GetRootLength path -> new = [])
    /\ (GetRootLength path < length_without_trailing_separator path ->
        join (rev new) = path
        /\ (0 < GetRootLength path ->
            List.last new "" = WString.substr path 0 (GetRootLength path))).
Proof.
  intros Hr. rewrite SplitPathsReverse_unfold. cbv zeta.
  assert (Hlen : length_without_trailing_separator path <= WString.length path).
  { unfold length_without_trailing_separator. cbv zeta. destruct (_ && _); lia. }
  set (len := length_without_trailing_separator path) in *. clearbody len.
  set (r := GetRootLength path) in *. clearbody r.
  destruct (len <=? r) eqn:Hle.
  - apply Z.leb_le in Hle. exists []. rewrite app_nil_r.
    split; [reflexivity|]. split; [constructor|]. split; [reflexivity|intros H; lia].
  - apply Z.leb_gt in Hle.
    destruct (SplitPathsReverse_loop_atoms r Hr (S (Z.to_nat (len - 1))) (len - 1) path atoms)
      as (new & Hloop & Hne & Hall & Hjoin); [lia|lia|].
    rewrite Hloop. rewrite length_substr_0 by lia.
    pose proof (substr_0_substr_from path r ltac:(lia)) as Hsplit.
    destruct (r =? 0) eqn:Hr0; cbn [negb].
    + apply Z.eqb_eq in Hr0. exists new. split; [reflexivity|]. split; [exact Hall|].
      split; [intros H; lia|]. intros _. split; [|intros H; lia].
      rewrite Hjoin, Hr0. apply substr_from_0.
    + apply Z.eqb_neq in Hr0. unfold vector_push_back.
      exists (new ++ [WString.substr path 0 r])%list. rewrite app_assoc.
      split; [reflexivity|]. split.
      * apply Forall_app. split; [exact Hall|]. repeat constructor.
        intros H. apply (f_equal WString.length) in H.
        rewrite length_substr_0 in H by lia. change (WString.length "") with 0 in H. lia.
      * split; [intros H; lia|]. intros _. split.
        -- rewrite rev_app_distr. cbn [rev app]. cbn [join fold_right]. fold (join (rev new)).
           rewrite Hjoin. exact Hsplit.
        -- intros _. apply last_last.
Qed.

Lemma SplitPathsReverse_atoms_witness :
  exists new,
    SplitPathsReverse Example.drive_root_length "C:\P1\P2\P3\symlink" ["x"]
    = (["x"] ++ new)%list
    /\ Forall (fun a => a <> "") new
    /\ (length_without_trailing_separator "C:\P1\P2\P3\symlink"
        <= Example.drive_root_length "C:\P1\P2\P3\symlink" -> new = [])
    /\ (Example.drive_root_length "C:\P1\P2\P3\symlink"
        < length_without_trailing_separator "C:\P1\P2\P3\symlink" ->
        join (rev new) = "C:\P1\P2\P3\symlink"
        /\ (0 < Example.drive_root_length "C:\P1\P2\P3\symlink" ->
            List.last new "" = WString.substr "C:\P1\P2\P3\symlink" 0
                                 (Example.drive_root_length "C:\P1\P2\P3\symlink"))).
Proof.
  apply (SplitPathsReverse_atoms Example.drive_root_length "C:\P1\P2\P3\symlink" ["x"]).
  vm_compute. discriminate.
Defined.

(* ===================================================================== *)
(** ** Case-insensitive strings *)
(* ===================================================================== *)

Lemma list_ascii_of_to_lower s :
  list_ascii_of_string (WString.to_lower s) = map WString.towlower (list_ascii_of_string s).
Proof. induction s as [|c s IH]; [reflexivity|]. cbn. rewrite IH. reflexivity. Qed.

Lemma list_ascii_of_string_inj s t :
  list_ascii_of_string s = list_ascii_of_string t -> s = t.
Proof.
  intros H. rewrite <- (string_of_list_ascii_of_string s), <- (string_of_list_ascii_of_string t).
  rewrite H. reflexivity.
Qed.

Lemma length_list_ascii s : List.length (list_ascii_of_string s) = String.length s.
Proof. induction s as [|c s IH]; [reflexivity|]. cbn. rewrite IH. reflexivity. Qed.

Lemma wint_inj a b : wint a = wint b -> a = b.
Proof.
  unfold wint. intros H. rewrite <- (ascii_N_embedding a), <- (ascii_N_embedding b), H.
  reflexivity.
Qed.

Lemma path_key_lists a b :
  path_key a = path_key b
  <-> map WString.towlower (list_ascii_of_string a)
      = map WString.towlower (list_ascii_of_string b).
Proof.
  unfold path_key. rewrite <- !list_ascii_of_to_lower. split.
  - intros H. rewrite H. reflexivity.
  - apply list_ascii_of_string_inj.
Qed.

Lemma std_equal_lowered (x y : list ascii) :
  List.length x = List.length y ->
  std_equal (fun a b => if Ascii.eqb a b then true
                        else (wint (WString.towlower a) =? wint (WString.towlower b))%N) x y
  = true
  <-> map WString.towlower x = map WString.towlower y.
Proof.
  revert y. induction x as [|a x IH]; intros [|b y] Hlen; try discriminate.
  - split; reflexivity.
  - cbn [std_equal map]. injection Hlen as Hlen. specialize (IH y Hlen).
    destruct (Ascii.eqb a b) eqn:Hab.
    + apply Ascii.eqb_eq in Hab. subst b. rewrite IH. split; [congruence|].
      intros [= H]. exact H.
    + destruct (wint (WString.towlower a) =? wint (WString.towlower b))%N eqn:Hl.
      * apply N.eqb_eq, wint_inj in Hl. rewrite IH, Hl. split; [congruence|].
        intros [= H]. exact H.
      * apply N.eqb_neq in Hl. split; [discriminate|]. intros [= H _].
        exfalso. apply Hl. rewrite H. reflexivity.
Qed.

(** The strict lexicographic order on the lowered characters. *)
Lemma std_lexicographical_compare_irrefl (x : list ascii) :
  std_lexicographical_compare
    (fun a b => if Ascii.eqb a b then false
                else (wint (WString.towlower a) <? wint (WString.towlower b))%N) x x = false.
Proof.
  induction x as [|a x IH]; [reflexivity|].
  cbn [std_lexicographical_compare]. rewrite Ascii.eqb_refl. exact IH.
Qed.

Lemma comp_lowered a b :
  (if Ascii.eqb a b then false
   else (wint (WString.towlower a) <? wint (WString.towlower b))%N)
  = (wint (WString.towlower a) <? wint (WString.towlower b))%N.
Proof.
  destruct (Ascii.eqb a b) eqn:Hab; [|reflexivity].
  apply Ascii.eqb_eq in Hab. subst b. symmetry. apply N.ltb_irrefl.
Qed.

Lemma std_lexicographical_compare_trans (x : list ascii) :
  forall y z,
    let less := std_lexicographical_compare
                  (fun a b => if Ascii.eqb a b then false
                              else (wint (WString.towlower a) <? wint (WString.towlower b))%N) in
    less x y = true -> less y z = true -> less x z = true.
Proof.
  cbv zeta. induction x as [|a x IH]; intros [|b y] [|c z]; cbn [std_lexicographical_compare];
    try discriminate; try reflexivity.
  rewrite !comp_lowered.
  destruct (wint (WString.towlower a) <? wint (WString.towlower b))%N eqn:Hab;
  destruct (wint (WString.towlower b) <? wint (WString.towlower a))%N eqn:Hba;
  destruct (wint (WString.towlower b) <? wint (WString.towlower c))%N eqn:Hbc;
  destruct (wint (WString.towlower c) <? wint (WString.towlower b))%N eqn:Hcb;
  destruct (wint (WString.towlower a) <? wint (WString.towlower c))%N eqn:Hac;
  destruct (wint (WString.towlower c) <? wint (WString.towlower a))%N eqn:Hca;
  try discriminate; try reflexivity;
  rewrite ?N.ltb_lt, ?N.ltb_ge in *; try lia.
  apply IH.
Qed.

Lemma std_lexicographical_compare_total (x : list ascii) :
  forall y,
    List.length x = List.length y ->
    let less := std_lexicographical_compare
                  (fun a b => if Ascii.eqb a b then false
                              else (wint (WString.towlower a) <? wint (WString.towlower b))%N) in
    less x y = false -> less y x = false ->
    map WString.towlower x = map WString.towlower y.
Proof.
  cbv zeta. induction x as [|a x IH]; intros [|b y] Hlen; try discriminate; [reflexivity|].
  cbn [std_lexicographical_compare map]. rewrite !comp_lowered.
  destruct (wint (WString.towlower a) <? wint (WString.towlower b))%N eqn:Hab;
  destruct (wint (WString.towlower b) <? wint (WString.towlower a))%N eqn:Hba;
  try discriminate.
  rewrite N.ltb_ge in Hab, Hba. intros H1 H2.
  assert (Heq : WString.towlower a = WString.towlower b) by (apply wint_inj; lia).
  rewrite Heq. f_equal. apply IH; [cbn in Hlen; congruence|assumption|assumption].
Qed.

Lemma std_lexicographical_compare_lowered (x y x' y' : list ascii) :
  map WString.towlower x = map WString.towlower x' ->
  map WString.towlower y = map WString.towlower y' ->
  let less := std_lexicographical_compare
                (fun a b => if Ascii.eqb a b then false
                            else (wint (WString.towlower a) <? wint (WString.towlower b))%N) in
  less x y = less x' y'.
Proof.
  cbv zeta. revert y x' y'.
  induction x as [|a x IH]; intros [|b y] [|a' x'] [|b' y']; try discriminate;
    try reflexivity.
  cbn [map std_lexicographical_compare]. intros [= Ha Hx] [= Hb Hy].
  rewrite !comp_lowered, Ha, Hb. rewrite (IH y x' y' Hx Hy). reflexivity.
Qed.

Lemma path_key_length a b : path_key a = path_key b -> WString.length a = WString.length b.
Proof.
  intros H. apply path_key_lists in H. apply (f_equal (@List.length ascii)) in H.
  rewrite !length_map, !length_list_ascii in H. unfold WString.length. lia.
Qed.

Lemma map_towlower_rev a b :
  map WString.towlower (rev (list_ascii_of_string a))
  = map WString.towlower (rev (list_ascii_of_string b))
  <-> path_key a = path_key b.
Proof.
  rewrite path_key_lists, !map_rev. split; [|congruence].
  intros H. apply (f_equal (@rev ascii)) in H. rewrite !rev_involutive in H. exact H.
Qed.

(** X15. The equality of the case-insensitive containers is the equality
    of lower-cased strings. [CaseInsensitiveStringComparer] answers true
    exactly for two strings with the same lower-cased form, whether or not
    it took the shortcut for one and the same buffer, and
    [CaseInsensitiveStringHasher] gives such strings the same hash, as a
    hashed container needs. *)
Theorem CaseInsensitiveStringComparer_is_path_key (same_data : bool) (lhs rhs : string) :
  (same_data = true -> lhs = rhs) ->
  (CaseInsensitiveStringComparer same_data lhs rhs = true <-> path_key lhs = path_key rhs)
  /\ (forall std_hash,
        CaseInsensitiveStringComparer same_data lhs rhs = true ->
        CaseInsensitiveStringHasher std_hash lhs = CaseInsensitiveStringHasher std_hash rhs).
Proof.
  intros Hsame.
  assert (Hiff : CaseInsensitiveStringComparer same_data lhs rhs = true
                 <-> path_key lhs = path_key rhs).
  { unfold CaseInsensitiveStringComparer.
    destruct (WString.length lhs =? WString.length rhs) eqn:Hlen.
    - destruct same_data.
      + rewrite (Hsame eq_refl). split; reflexivity.
      + apply Z.eqb_eq in Hlen. rewrite std_equal_lowered.
        * rewrite path_key_lists. split; congruence.
        * rewrite !length_list_ascii. unfold WString.length in Hlen. lia.
    - apply Z.eqb_neq in Hlen. split; [discriminate|].
      intros H. apply path_key_length in H. contradiction. }
  split; [exact Hiff|].
  intros std_hash H. apply Hiff in H. unfold CaseInsensitiveStringHasher.
  unfold path_key in H. rewrite H. reflexivity.
Qed.

Lemma CaseInsensitiveStringComparer_is_path_key_witness :
  (CaseInsensitiveStringComparer false "C:\Repo\File.TXT" "c:\repo\file.txt" = true
   <-> path_key "C:\Repo\File.TXT" = path_key "c:\repo\file.txt")
  /\ (forall std_hash,
        CaseInsensitiveStringComparer false "C:\Repo\File.TXT" "c:\repo\file.txt" = true ->
        CaseInsensitiveStringHasher std_hash "C:\Repo\File.TXT"
        = CaseInsensitiveStringHasher std_hash "c:\repo\file.txt").
Proof.
  apply (CaseInsensitiveStringComparer_is_path_key false "C:\Repo\File.TXT" "c:\repo\file.txt").
  discriminate.
Defined.

Lemma CaseInsensitiveStringLessThan_shortcut same_data a b :
  (same_data = true -> a = b) ->
  CaseInsensitiveStringLessThan same_data a b = CaseInsensitiveStringLessThan false a b.
Proof.
  intros Hsame. destruct same_data; [|reflexivity]. rewrite (Hsame eq_refl).
  unfold CaseInsensitiveStringLessThan. rewrite Z.eqb_refl.
  symmetry. apply std_lexicographical_compare_irrefl.
Qed.

(** X16. The order of the case-insensitive maps is a strict weak order on
    lower-cased strings. [CaseInsensitiveStringLessThan], with or without
    its shortcut for one and the same buffer, never puts a string before
    itself, is transitive, answers the same for strings with the same
    lower-cased form, and leaves two strings unordered, which is when a
    [std::map] takes them for one key, exactly when their lower-cased
    forms are equal. *)
Theorem CaseInsensitiveStringLessThan_strict_weak_order :
  (forall same_data a b,
      (same_data = true -> a = b) ->
      CaseInsensitiveStringLessThan same_data a b = CaseInsensitiveStringLessThan false a b)
  /\ (forall a, CaseInsensitiveStringLessThan false a a = false)
  /\ (forall a b c,
        CaseInsensitiveStringLessThan false a b = true ->
        CaseInsensitiveStringLessThan false b c = true ->
        CaseInsensitiveStringLessThan false a c = true)
  /\ (forall a b a' b',
        path_key a = path_key a' -> path_key b = path_key b' ->
        CaseInsensitiveStringLessThan false a b = CaseInsensitiveStringLessThan false a' b')
  /\ (forall a b,
        equivalent_keys (CaseInsensitiveStringLessThan false) a b = true
        <-> path_key a = path_key b).
Proof.
  split; [exact CaseInsensitiveStringLessThan_shortcut|].
  split; [|split; [|split]].
  - intros a. unfold CaseInsensitiveStringLessThan. rewrite Z.eqb_refl.
    apply std_lexicographical_compare_irrefl.
  - intros a b c. unfold CaseInsensitiveStringLessThan.
    destruct (WString.length a =? WString.length b) eqn:Hab;
    destruct (WString.length b =? WString.length c) eqn:Hbc;
    destruct (WString.length a =? WString.length c) eqn:Hac;
    rewrite ?Z.eqb_eq, ?Z.eqb_neq, ?Z.ltb_lt in *; intros H1 H2;
    rewrite ?Z.ltb_lt in *; try lia.
    eapply std_lexicographical_compare_trans; eassumption.
  - intros a b a' b' Ha Hb. unfold CaseInsensitiveStringLessThan.
    rewrite (path_key_length _ _ Ha), (path_key_length _ _ Hb).
    destruct (WString.length a' =? WString.length b'); [|reflexivity].
    apply std_lexicographical_compare_lowered; apply map_towlower_rev; assumption.
  - intros a b. unfold equivalent_keys, CaseInsensitiveStringLessThan.
    rewrite (Z.eqb_sym (WString.length b)).
    destruct (WString.length a =? WString.length b) eqn:Hlen.
    + apply Z.eqb_eq in Hlen. rewrite andb_true_iff, !negb_true_iff. split.
      * intros [H1 H2]. apply map_towlower_rev. symmetry.
        apply std_lexicographical_compare_total; [|assumption|assumption].
        rewrite !length_rev, !length_list_ascii. unfold WString.length in Hlen. lia.
      * intros H. apply map_towlower_rev in H.
        rewrite (std_lexicographical_compare_lowered
                   (rev (list_ascii_of_string b)) (rev (list_ascii_of_string a))
                   (rev (list_ascii_of_string b)) (rev (list_ascii_of_string b)) eq_refl H).
        rewrite (std_lexicographical_compare_lowered
                   (rev (list_ascii_of_string a)) (rev (list_ascii_of_string b))
                   (rev (list_ascii_of_string b)) (rev (list_ascii_of_string b)) H eq_refl).
        rewrite !std_lexicographical_compare_irrefl. split; reflexivity.
    + apply Z.eqb_neq in Hlen. split.
      * rewrite andb_true_iff, !negb_true_iff, !Z.ltb_ge. lia.
      * intros H. apply path_key_length in H. contradiction.
Qed.

(* ===================================================================== *)
(** ** The chains the walker builds *)
(* ===================================================================== *)

Lemma is_Some_map_at_emplace path t (m : ResolvedPathMap) q :
  is_Some (map_at m q) -> is_Some (map_at (emplace path t m) q).
Proof. intros [v Hv]. exists v. apply map_at_emplace_old. exact Hv. Qed.

Lemma is_Some_map_at_emplace_new path t (m : ResolvedPathMap) :
  is_Some (map_at (emplace path t m) path).
Proof.
  unfold map_at, emplace. destruct (m !! path_key path) as [v|] eqn:Hp.
  - exists v. exact Hp.
  - exists t. apply lookup_insert_eq.
Qed.

Lemma emplace_keys path t (m : ResolvedPathMap) k :
  is_Some (emplace path t m !! k) -> is_Some (m !! k) \/ k = path_key path.
Proof.
  unfold emplace. destruct (m !! path_key path) as [v|] eqn:Hp; [auto|].
  destruct (decide (k = path_key path)) as [->|Hne]; [auto|].
  rewrite lookup_insert_ne by congruence. auto.
Qed.

Lemma DetourGetFinalPaths_loop_well_formed next canon fuel :
  forall path handle cur visited (m : ResolvedPathMap) w order m' w',
    NoDup visited -> cur ∉ visited ->
    (forall q, q ∈ visited -> is_Some (map_at m q)) ->
    (forall k, is_Some (m !! k) -> k ∈ map path_key visited) ->
    DetourGetFinalPaths_loop next canon fuel path handle cur visited m w
    = Some (order, m', w') ->
    (exists more, order = (visited ++ cur :: more)%list)
    /\ NoDup order
    /\ (length order <= length visited + fuel)%nat
    /\ (forall q, q ∈ order -> is_Some (map_at m' q))
    /\ (forall k, is_Some (m' !! k) -> k ∈ map path_key order).
Proof.
  induction fuel as [|fuel IH];
    intros path handle cur visited m w order m' w' Hnd Hcur Hmap Hkeys H; [discriminate|].
  cbn [DetourGetFinalPaths_loop] in H. unfold vector_push_back in H.
  destruct (next cur handle "" w) as [[[ok raw] w1]|]; [|discriminate].
  assert (Hnd' : NoDup (visited ++ [cur])).
  { apply NoDup_app. split; [exact Hnd|]. split; [|apply NoDup_singleton].
    intros x Hx Hx'. apply list_elem_of_singleton in Hx'. subst x. contradiction. }
  assert (Hmap' : forall t q, q ∈ (visited ++ [cur])%list ->
                          is_Some (map_at (emplace cur t m) q)).
  { intros t q Hq. apply elem_of_app in Hq as [Hq|Hq].
    - apply is_Some_map_at_emplace. apply Hmap. exact Hq.
    - apply list_elem_of_singleton in Hq. subst q. apply is_Some_map_at_emplace_new. }
  assert (Hkeys' : forall t k, is_Some (emplace cur t m !! k) ->
                           k ∈ map path_key (visited ++ [cur])%list).
  { intros t k Hk. rewrite map_app. apply elem_of_app.
    apply emplace_keys in Hk as [Hk| ->].
    - left. apply Hkeys. exact Hk.
    - right. cbn. apply list_elem_of_singleton. reflexivity. }
  assert (Hdone : forall t,
            (exists more, (visited ++ [cur])%list = (visited ++ cur :: more)%list)
            /\ NoDup (visited ++ [cur])
            /\ (length (visited ++ [cur]) <= length visited + S fuel)%nat
            /\ (forall q, q ∈ (visited ++ [cur])%list -> is_Some (map_at (emplace cur t m) q))
            /\ (forall k, is_Some (emplace cur t m !! k) ->
                          k ∈ map path_key (visited ++ [cur])%list)).
  { intros t. split; [exists []; reflexivity|]. split; [exact Hnd'|].
    split; [rewrite length_app; cbn; lia|]. split; [apply Hmap'|apply Hkeys']. }
  destruct ok.
  - case_bool_decide as Hcycle.
    + injection H as <- <- <-. apply Hdone.
    + apply IH in H; [|exact Hnd'|exact Hcycle|apply Hmap'|apply Hkeys'].
      destruct H as ((more & ->) & H2 & H3 & H4 & H5).
      split; [exists (canon raw :: more); rewrite <- app_assoc; reflexivity|].
      split; [exact H2|]. split; [|split; assumption].
      assert (Hlen : length (visited ++ [cur]) = S (length visited))
        by (rewrite length_app; cbn; lia).
      rewrite Hlen in H3. lia.
  - injection H as <- <- <-. apply Hdone.
Qed.

Lemma EnforceChainOfReparsePointAccesses_loop_total
    os g init ierr table da sm cd fa pr enforceAccess icd eafrp name :
  forall cachedOrder pNt rp success w,
    (forall key, key ∈ cachedOrder -> is_Some (map_at table key)) ->
    is_Some (EnforceChainOfReparsePointAccesses_loop os g init ierr cachedOrder table
               da sm cd fa pr pNt enforceAccess icd rp eafrp name success w).
Proof.
  induction cachedOrder as [|key rest IH]; intros pNt rp success w Hall; [eexists; reflexivity|].
  cbn [EnforceChainOfReparsePointAccesses_loop].
  destruct (Hall key) as [type Hty]; [left|]. rewrite Hty.
  assert (Hrest : forall k, k ∈ rest -> is_Some (map_at table k))
    by (intros k Hk; apply Hall; right; exact Hk).
  destruct (_ && negb eafrp); [apply IH; exact Hrest|].
  destruct (EnforceReparsePointAccess os g init ierr key da sm cd fa pNt enforceAccess icd _
              name w) as [[ok pNt1] w1].
  apply IH. exact Hrest.
Qed.

(** X17. Every chain the walker builds is well formed. Started with an
    empty order and an empty type map, [DetourGetFinalPaths] returns, when
    it returns, an order that begins with the path it was given, holds no
    path twice and has at most as many entries as the loop made rounds;
    the type map has an entry for every path of the order and no key that
    is not the key of one. So the lookup of the enforcement loop finds the
    type of every hop: enforcing such a chain always runs to its end. *)
Theorem DetourGetFinalPaths_chain_well_formed
    (next : string -> HANDLE -> string -> World -> option (bool * string * World))
    (canon : string -> string) fuel path hInput w order finalPaths w' :
  DetourGetFinalPaths next canon fuel path hInput [] ∅ w = Some (order, finalPaths, w') ->
  head order = Some path
  /\ NoDup order
  /\ (length order <= fuel)%nat
  /\ (forall q, q ∈ order -> is_Some (map_at finalPaths q))
  /\ (forall k, is_Some (finalPaths !! k) -> k ∈ map path_key order)
  /\ (forall os g init ierr da sm cd fa pr pNt enforceAccess icd rp eafrp name success w0,
        is_Some (EnforceChainOfReparsePointAccesses_loop os g init ierr order finalPaths
                   da sm cd fa pr pNt enforceAccess icd rp eafrp name success w0)).
Proof.
  unfold DetourGetFinalPaths. intros H.
  apply DetourGetFinalPaths_loop_well_formed in H.
  - destruct H as ((more & ->) & H2 & H3 & H4 & H5).
    split; [reflexivity|]. split; [exact H2|]. split; [exact H3|].
    split; [exact H4|]. split; [exact H5|].
    intros. apply EnforceChainOfReparsePointAccesses_loop_total. exact H4.
  - apply NoDup_nil_2.
  - apply not_elem_of_nil.
  - intros q Hq. apply elem_of_nil in Hq. contradiction.
  - intros k [v Hk]. rewrite lookup_empty in Hk. discriminate.
Qed.

Lemma DetourGetFinalPaths_chain_well_formed_witness :
  exists order finalPaths w',
    DetourGetFinalPaths (Example.next_path Example.cycle_AB) Example.already_canonical 5
                        "C:\A" INVALID_HANDLE_VALUE [] ∅ (Example.fresh_world 0)
    = Some (order, finalPaths, w')
    /\ head order = Some "C:\A"
    /\ NoDup order
    /\ (length order <= 5)%nat.
Proof.
  destruct (DetourGetFinalPaths (Example.next_path Example.cycle_AB) Example.already_canonical 5
              "C:\A" INVALID_HANDLE_VALUE [] ∅ (Example.fresh_world 0))
    as [[[order finalPaths] w']|] eqn:H.
  - exists order, finalPaths, w'. split; [reflexivity|].
    destruct (DetourGetFinalPaths_chain_well_formed _ _ _ _ _ _ _ _ _ H)
      as (H1 & H2 & H3 & _).
    split; [exact H1|]. split; [exact H2|exact H3].
  - vm_compute in H. discriminate.
Defined.

(* ===================================================================== *)
(** ** Names in a reparse data buffer *)
(* ===================================================================== *)

Lemma length_append s t : String.length (String.append s t) = (String.length s + String.length t)%nat.
Proof. induction s as [|c s IH]; [reflexivity|]. rewrite append_String. cbn. rewrite IH. reflexivity. Qed.

Lemma substring_append_l a b : forall n m,
  (n + m <= String.length a)%nat ->
  String.substring n m (String.append a b) = String.substring n m a.
Proof.
  induction a as [|c a IH]; intros n m H.
  - cbn in H. assert (n = O) by lia. assert (m = O) by lia. subst.
    cbn. apply substring_0_0.
  - rewrite append_String. destruct n as [|n].
    + destruct m as [|m]; [reflexivity|]. cbn [String.substring]. f_equal.
      apply (IH O m). cbn in H. lia.
    + cbn [String.substring]. apply IH. cbn in H. lia.
Qed.

Lemma substring_append_r a b : forall n m,
  String.substring (String.length a + n) m (String.append a b) = String.substring n m b.
Proof.
  induction a as [|c a IH]; intros n m; [reflexivity|].
  rewrite append_String. cbn [String.length Nat.add String.substring]. apply IH.
Qed.

Lemma substr_append_middle a b c :
  WString.substr (String.append a (String.append b c)) (WString.length a) (WString.length b) = b.
Proof.
  unfold WString.substr, WString.length. rewrite !length_append.
  replace (Z.to_nat (Z.min _ _)) with (String.length b) by lia.
  rewrite Nat2Z.id.
  replace (String.length a) with (String.length a + 0)%nat at 1 by lia.
  rewrite substring_append_r, substring_append_l by lia.
  apply substring_all.
Qed.

Lemma substr_append_prefix a b :
  WString.substr (String.append a b) 0 (WString.length a) = a.
Proof.
  unfold WString.substr, WString.length. rewrite !length_append.
  replace (Z.to_nat (Z.min _ _)) with (String.length a) by lia.
  change (Z.to_nat 0) with O.
  rewrite substring_append_l by lia. apply substring_all.
Qed.

Lemma length_substr_prefix s n :
  0 <= n <= WString.length s -> WString.length (WString.substr s 0 n) = n.
Proof. apply length_substr_0. Qed.

Lemma memcpy_twice tail p target n :
  0 <= p -> 0 <= n <= WString.length target -> p + n <= WString.length tail ->
  exists rest,
    ReparseBuffer.memcpy (ReparseBuffer.memcpy tail p target (2 * n)) (p + n) target (2 * n)
    = String.append (WString.substr tail 0 p)
        (String.append (WString.substr target 0 n)
           (String.append (WString.substr target 0 n) rest)).
Proof.
  intros Hp Hn Hroom. unfold ReparseBuffer.memcpy, sizeof_WCHAR.
  replace (2 * n / 2) with n by (apply Z.div_unique_exact; lia).
  set (A := WString.substr tail 0 p). set (T := WString.substr target 0 n).
  assert (HA : WString.length A = p) by (apply length_substr_0; lia).
  assert (HT : WString.length T = n) by (apply length_substr_0; lia).
  eexists.
  replace (WString.substr (String.append A (String.append T _)) 0 (p + n))
    with (String.append A T).
  - rewrite append_assoc. reflexivity.
  - rewrite <- append_assoc. symmetry.
    replace (p + n) with (WString.length (String.append A T)).
    + apply substr_append_prefix.
    + unfold WString.length in *. rewrite length_append. lia.
Qed.

(** X18. Writing a target name into a reparse data buffer and reading it
    back. For a symbolic link and for a mount point, in a buffer with room
    for the two copies, [GetTargetNameFromReparseData] reads from the
    buffer [SetTargetNameFromReparseData] wrote the target itself when the
    target is shorter than 32768 characters, the print name and the
    substitute name being the same; a longer target comes back cut to its
    length modulo 32768, since the length in bytes is kept in a [USHORT].
    For any other tag the buffer and the name are left as they are.
    Reading a buffer is reading the two names its offsets and lengths
    delimit, the print name first. *)
Theorem SetTargetNameFromReparseData_round_trip (b : REPARSE_DATA_BUFFER)
    (reparsePointType : DWORD) (target name : string) :
  let kept := WString.length target mod 32768 in
  let b' := ReparseBuffer.SetTargetNameFromReparseData b reparsePointType target in
  (IsActionableReparsePointType reparsePointType = true ->
   ReparseBuffer.PathBuffer reparsePointType + 2 * kept <= WString.length (Tail b) ->
   ReparseBuffer.GetTargetNameFromReparseData b' reparsePointType name
   = WString.substr target 0 kept
   /\ PrintName (ReparseBuffer.data b' reparsePointType) = WString.substr target 0 kept
   /\ SubstituteName (ReparseBuffer.data b' reparsePointType) = WString.substr target 0 kept
   /\ (WString.length target < 32768 -> WString.substr target 0 kept = target))
  /\ (IsActionableReparsePointType reparsePointType = false ->
      b' = b
      /\ ReparseBuffer.GetTargetNameFromReparseData b' reparsePointType name = name)
  /\ ReparseBuffer.GetTargetNameFromReparseData b reparsePointType name
     = GetTargetNameFromReparseData (ReparseBuffer.data b reparsePointType)
                                    reparsePointType name.
Proof.
  cbv zeta. unfold IsActionableReparsePointType.
  split; [|split; [|reflexivity]].
  2:{ intros Hact.
      unfold ReparseBuffer.SetTargetNameFromReparseData,
        ReparseBuffer.GetTargetNameFromReparseData.
      rewrite Hact. split; reflexivity. }
  intros Hact Hroom.
  unfold ReparseBuffer.SetTargetNameFromReparseData,
    ReparseBuffer.GetTargetNameFromReparseData.
  rewrite Hact.
  set (n := WString.length target mod 32768) in *.
  assert (Hlen : 0 <= WString.length target) by (unfold WString.length; lia).
  assert (Hn : 0 <= n < 32768) by (subst n; apply Z.mod_pos_bound; lia).
  assert (Hn' : n <= WString.length target) by (subst n; apply Z.mod_le; lia).
  assert (Hbytes : (WString.length target * sizeof_WCHAR) mod USHORT_modulus = 2 * n).
  { unfold sizeof_WCHAR, USHORT_modulus. subst n.
    change (2 ^ 16) with (2 * 32768).
    rewrite (Z.mul_comm (WString.length target)). rewrite Z.mul_mod_distr_l by lia.
    reflexivity. }
  rewrite Hbytes.
  assert (Hp : 0 <= ReparseBuffer.PathBuffer reparsePointType)
    by (unfold ReparseBuffer.PathBuffer; destruct (_ =? _); lia).
  set (p := ReparseBuffer.PathBuffer reparsePointType) in *.
  assert (Hhalf : 2 * n / sizeof_WCHAR = n)
    by (unfold sizeof_WCHAR; symmetry; apply Z.div_unique_exact; lia).
  rewrite Hhalf.
  destruct (memcpy_twice (Tail b) p target n Hp ltac:(lia) ltac:(lia)) as [rest Htail].
  unfold ReparseBuffer.data, ReparseBuffer.assign.
  cbn [Tail PrintNameOffset PrintNameLength SubstituteNameOffset SubstituteNameLength
       PrintName SubstituteName].
  fold p. rewrite Htail, Hhalf.
  change (0 / sizeof_WCHAR) with 0. rewrite Z.add_0_r.
  set (A := WString.substr (Tail b) 0 p). set (T := WString.substr target 0 n).
  assert (HA : WString.length A = p) by (apply length_substr_0; lia).
  assert (HT : WString.length T = n) by (apply length_substr_0; lia).
  assert (Hprint : WString.substr (String.append A (String.append T (String.append T rest))) p n
                   = T).
  { pose proof (substr_append_middle A T (String.append T rest)) as H.
    rewrite HA, HT in H. exact H. }
  assert (Hsubst : WString.substr (String.append A (String.append T (String.append T rest)))
                     (p + n) n = T).
  { pose proof (substr_append_middle (String.append A T) T rest) as H.
    replace (WString.length (String.append A T)) with (p + n) in H
      by (unfold WString.length in *; rewrite length_append; lia).
    rewrite HT, append_assoc in H. exact H. }
  rewrite Hprint, Hsubst.
  split.
  { match goal with |- (if ?c then _ else _) = _ => destruct c end; reflexivity. }
  split; [reflexivity|]. split; [reflexivity|].
  intros Hshort. subst T n. rewrite Z.mod_small by lia.
  exact (substr_from_0 target).
Qed.

Lemma SetTargetNameFromReparseData_round_trip_witness :
  IsActionableReparsePointType IO_REPARSE_TAG_SYMLINK = true
  /\ ReparseBuffer.PathBuffer IO_REPARSE_TAG_SYMLINK + 2 * (WString.length "C:\T" mod 32768)
     <= WString.length "0123456789"
  /\ ReparseBuffer.GetTargetNameFromReparseData
       (ReparseBuffer.SetTargetNameFromReparseData
          {| SubstituteNameOffset := 0; SubstituteNameLength := 0;
             PrintNameOffset := 0; PrintNameLength := 0; Tail := "0123456789" |}
          IO_REPARSE_TAG_SYMLINK "C:\T")
       IO_REPARSE_TAG_SYMLINK "old"
     = WString.substr "C:\T" 0 (WString.length "C:\T" mod 32768)
  /\ WString.substr "C:\T" 0 (WString.length "C:\T" mod 32768) = "C:\T".
Proof.
  pose proof (SetTargetNameFromReparseData_round_trip
                {| SubstituteNameOffset := 0; SubstituteNameLength := 0;
                   PrintNameOffset := 0; PrintNameLength := 0; Tail := "0123456789" |}
                IO_REPARSE_TAG_SYMLINK "C:\T" "old") as (H & _).
  cbv zeta in H.
  assert (Ha : IsActionableReparsePointType IO_REPARSE_TAG_SYMLINK = true) by reflexivity.
  assert (Hroom : ReparseBuffer.PathBuffer IO_REPARSE_TAG_SYMLINK
                  + 2 * (WString.length "C:\T" mod 32768)
                  <= WString.length "0123456789") by (vm_compute; discriminate).
  destruct (H Ha Hroom) as (Hget & _ & _ & Hshort).
  split; [exact Ha|]. split; [exact Hroom|]. split; [exact Hget|].
  apply Hshort. vm_compute. reflexivity.
Defined.

(* ===================================================================== *)
(** ** Whether a path is to be resolved *)
(* ===================================================================== *)

Lemma known_reparse_point_kept c c1 p :
  memos_kept c c1 -> known_reparse_point c p -> known_reparse_point c1 p.
Proof.
  intros (H1 & H2 & _) (Hc & t & ty & Hty & Ht).
  unfold known_reparse_point, ResolvedPathCacheOps.GetResolvingCheckResult,
    ResolvedPathCacheOps.GetResolvedPathAndType in *.
  split; [eapply lookup_weaken; eassumption|].
  exists t, ty. split; [exact Hty|]. eapply lookup_weaken; eassumption.
Qed.

Lemma known_without_target_kept c c1 p :
  memos_kept c c1 -> known_without_target c p -> known_without_target c1 p.
Proof.
  intros (H1 & H2 & _).
  unfold known_without_target, ResolvedPathCacheOps.GetResolvingCheckResult,
    ResolvedPathCacheOps.GetResolvedPathAndType in *.
  intros [Hc | (Hc & t & Ht)].
  - left. eapply lookup_weaken; eassumption.
  - right. split; [eapply lookup_weaken; eassumption|].
    exists t. eapply lookup_weaken; eassumption.
Qed.

Lemma ShouldResolveReparsePointsInPath_loop_probes os g fuel threshold pr
    (Hcache : PathCache_bypassed g pr = false) :
  forall atoms resolver target level w b resolver' target' level' w',
    ShouldResolveReparsePointsInPath_loop os g fuel atoms resolver target level threshold pr w
    = Some (b, resolver', target', level', w') ->
    settled os w w'
    /\ (b = true ->
        exists p, p ∈ prefixes resolver atoms /\ known_reparse_point (cache w') p)
    /\ (b = false ->
        level' = level + Z.of_nat (length atoms)
        /\ (atoms <> [] ->
            exists last, resolver' = String.append last "\"
                         /\ List.last (prefixes resolver atoms) "" = last)
        /\ (atoms = [] -> resolver' = resolver)
        /\ forall i p, prefixes resolver atoms !! i = Some p ->
                       threshold <= level + Z.of_nat i ->
                       known_without_target (cache w') p).
Proof.
  induction atoms as [|atom atoms IH];
    intros resolver target level w b resolver' target' level' w' H.
  - cbn in H. injection H as <- <- <- <- <-.
    split; [apply settled_refl|]. split; [discriminate|]. intros _.
    split; [cbn; lia|]. split; [congruence|]. split; [reflexivity|].
    intros i p Hp. destruct i; discriminate.
  - cbn [ShouldResolveReparsePointsInPath_loop] in H. cbn [prefixes].
    set (r := String.append resolver atom) in *.
    assert (Hstep : forall target1 w1,
              settled os w w1 ->
              (threshold <= level -> known_without_target (cache w1) r) ->
              ShouldResolveReparsePointsInPath_loop os g fuel atoms (String.append r "\")
                target1 (level + 1) threshold pr w1
              = Some (b, resolver', target', level', w') ->
              settled os w w'
              /\ (b = true ->
                  exists p, p ∈ r :: prefixes (String.append r "\") atoms
                            /\ known_reparse_point (cache w') p)
              /\ (b = false ->
                  level' = level + Z.of_nat (length (atom :: atoms))
                  /\ (atom :: atoms <> [] ->
                      exists last, resolver' = String.append last "\"
                                   /\ List.last (r :: prefixes (String.append r "\") atoms) ""
                                      = last)
                  /\ (atom :: atoms = [] -> resolver' = resolver)
                  /\ forall i p,
                       (r :: prefixes (String.append r "\") atoms) !! i = Some p ->
                       threshold <= level + Z.of_nat i ->
                       known_without_target (cache w') p)).
    { intros target1 w1 Hs Hknown Hrest.
      apply IH in Hrest. destruct Hrest as (Hs' & Htrue & Hfalse).
      split; [eapply settled_trans; eassumption|]. split.
      - intros Hb. destruct (Htrue Hb) as (p & Hp & Hk). exists p. split; [right; exact Hp|exact Hk].
      - intros Hb. destruct (Hfalse Hb) as (Hlevel & Hlast & Hnil & Hall).
        split; [cbn [length]; lia|]. split.
        + intros _. destruct atoms as [|a2 atoms'].
          * exists r. split; [apply Hnil; reflexivity|reflexivity].
          * destruct (Hlast ltac:(discriminate)) as (last & Hr & Hl).
            exists last. split; [exact Hr|]. cbn [prefixes] in Hl |- *. exact Hl.
        + split; [discriminate|].
          intros i p Hp Hi. destruct i as [|i].
          * injection Hp as <-. eapply known_without_target_kept;
              [exact (proj1 (proj2 Hs'))|]. apply Hknown. lia.
          * apply (Hall i p Hp). lia. }
    destruct (level >=? threshold) eqn:Hlevel.
    + destruct (TryGetReparsePointTarget os g fuel r INVALID_HANDLE_VALUE target pr w)
        as [[[ok target1] w1]|] eqn:Hq; [|discriminate].
      pose proof (proj1 (TryGetReparsePointTarget_settled _ _ _ _ _ _ _ _ _ _ _ Hq)) as Hs.
      destruct ok.
      * injection H as <- <- <- <- <-. split; [exact Hs|]. split; [|discriminate].
        intros _. exists r. split; [left|].
        destruct (TryGetReparsePointTarget_true_memo os g _ _ _ _ _ _ _ _ Hcache Hq)
          as (Hm & ty & Hty & Ht).
        split; [exact Hm|]. exists target1, ty. split; assumption.
      * apply (Hstep target1 w1 Hs); [|exact H]. intros _.
        destruct (TryGetReparsePointTarget_false_memo os g _ _ _ _ _ _ _ _ Hcache Hq)
          as [Hm | [Hm [t Ht]]]; [left; exact Hm | right; split; [exact Hm|exists t; exact Ht]].
    + apply (Hstep target w (settled_refl os w)); [|exact H].
      intros Hge. rewrite Z.geb_leb in Hlevel. apply Z.leb_gt in Hlevel. lia.
Qed.

Lemma pop_back_append s : WString.pop_back (String.append s "\") = s.
Proof.
  unfold WString.pop_back.
  replace (WString.length (String.append s "\") - 1) with (WString.length s)
    by (unfold WString.length; rewrite length_append; cbn; lia).
  apply substr_append_prefix.
Qed.

Lemma last_elem_of (l : list string) d : l <> [] -> List.last l d ∈ l.
Proof.
  induction l as [|a l IH]; [congruence|]. intros _.
  destruct l as [|b l]; [left|]. right. apply IH. discriminate.
Qed.

Lemma prefixes_nonempty resolver atoms : atoms <> [] -> prefixes resolver atoms <> [].
Proof. destruct atoms; [congruence|discriminate]. Qed.

(** X19. What backs the answer of [ShouldResolveReparsePointsInPath]. With
    reparse points and full resolving in force for a tracked path: a memo
    of the reparse-point test of the whole path is the answer, with
    nothing probed. Without one, and with the path decomposed into atoms,
    the prefixes of the path are probed from the left, the thread is left
    settled (last error, handles, memos), a positive answer means that the
    cache now knows one of the prefixes as a reparse point with a target,
    and a negative one that it knows every prefix from the level of the
    policy on to have no target to follow. *)
Theorem ShouldResolveReparsePointsInPath_probes_prefixes (os : OS) (g : Globals)
    (TryDecomposePath : string -> Z * list string) (IndicateUntracked : PolicyResult -> bool)
    (FindLowestConsecutiveLevelThatStillHasProperty : PolicyResult -> size_t)
    fuel path dwFlagsAndAttributes pr w :
  IgnoreReparsePoints g = false ->
  IgnoreFullReparsePointResolvingForPath g pr = false ->
  IndicateUntracked pr = false ->
  let run :=
    ShouldResolveReparsePointsInPath os g TryDecomposePath IndicateUntracked
      FindLowestConsecutiveLevelThatStillHasProperty fuel path dwFlagsAndAttributes pr w in
  let whole := GetPathStringWithoutTypePrefix path in
  (forall value,
      ResolvedPathCacheOps.GetResolvingCheckResult whole (cache w) = Some value ->
      run = Some (value, w))
  /\ (forall atoms b w',
        ResolvedPathCacheOps.GetResolvingCheckResult whole (cache w) = None ->
        TryDecomposePath whole = (0, atoms) ->
        run = Some (b, w') ->
        settled os w w'
        /\ (b = true ->
            exists p, (p ∈ prefixes "" atoms \/ (atoms = [] /\ p = ""))
                      /\ known_reparse_point (cache w') p)
        /\ (b = false ->
            forall i p,
              prefixes "" atoms !! i = Some p ->
              GetLevelToEnableFullReparsePointParsing
                g FindLowestConsecutiveLevelThatStillHasProperty pr <= Z.of_nat i ->
              known_without_target (cache w') p)).
Proof.
  intros Hirp Hfull Hunt. cbv zeta.
  assert (Hcache : PathCache_bypassed g pr = false)
    by (unfold PathCache_bypassed; rewrite Hirp, Hfull; reflexivity).
  unfold ShouldResolveReparsePointsInPath, PathCache_GetResolvingCheckResult.
  rewrite Hirp, Hfull, Hunt, Hcache. split.
  - intros value ->. reflexivity.
  - intros atoms b w' -> ->. cbn [Z.eqb negb].
    set (threshold := GetLevelToEnableFullReparsePointParsing g _ pr).
    destruct (ShouldResolveReparsePointsInPath_loop os g fuel atoms "" "" 0 threshold pr w)
      as [[[[[ok resolver] target] level] w1]|] eqn:Hloop; [|discriminate].
    destruct (ShouldResolveReparsePointsInPath_loop_probes os g fuel threshold pr Hcache
                _ _ _ _ _ _ _ _ _ _ Hloop) as (Hs & Htrue & Hfalse).
    destruct ok.
    + intros [= <- <-]. split; [exact Hs|]. split; [|discriminate].
      intros _. destruct (Htrue eq_refl) as (p & Hp & Hk). exists p. auto.
    + destruct (Hfalse eq_refl) as (Hlevel & Hlast & Hnil & Hall).
      destruct (level >=? threshold).
      * destruct (TryGetReparsePointTarget os g fuel (WString.pop_back resolver)
                    INVALID_HANDLE_VALUE target pr w1) as [[[ok t1] w2]|] eqn:Hq;
          [|discriminate].
        intros [= <- <-].
        pose proof (proj1 (TryGetReparsePointTarget_settled _ _ _ _ _ _ _ _ _ _ _ Hq)) as Hs2.
        split; [eapply settled_trans; eassumption|]. split.
        -- intros ->.
           destruct (TryGetReparsePointTarget_true_memo os g _ _ _ _ _ _ _ _ Hcache Hq)
             as (Hm & ty & Hty & Ht).
           exists (WString.pop_back resolver). split.
           ++ destruct atoms as [|a atoms'].
              ** right. split; [reflexivity|]. rewrite (Hnil eq_refl). reflexivity.
              ** left. destruct (Hlast ltac:(discriminate)) as (last & -> & Hl).
                 rewrite pop_back_append, <- Hl. apply last_elem_of. discriminate.
           ++ split; [exact Hm|]. exists t1, ty. split; assumption.
        -- intros -> i p Hp Hi. eapply known_without_target_kept;
             [exact (proj1 (proj2 Hs2))|]. apply (Hall i p Hp). lia.
      * intros [= <- <-]. split; [exact Hs|]. split; [discriminate|].
        intros _ i p Hp Hi. apply (Hall i p Hp). lia.
Qed.

Lemma ShouldResolveReparsePointsInPath_probes_prefixes_witness :
  let g := Example.globals false false Example.report_all in
  let pr := Example.policy true "repo\source\symlink1.link" in
  exists w',
    ShouldResolveReparsePointsInPath Example.repo_with_directory_symlink g Scenario.decompose
      Scenario.tracked Scenario.from_first_level 6 Scenario.link_in_repo 0 pr
      (Example.fresh_world 87)
    = Some (true, w')
    /\ settled Example.repo_with_directory_symlink (Example.fresh_world 87) w'
    /\ exists p, (p ∈ prefixes "" ["repo"; "source"; "symlink1.link"]
                  \/ (["repo"; "source"; "symlink1.link"] = [] /\ p = ""))
                 /\ known_reparse_point (cache w') p.
Proof.
  intros g pr.
  destruct (ShouldResolveReparsePointsInPath_probes_prefixes
              Example.repo_with_directory_symlink g Scenario.decompose
              Scenario.tracked Scenario.from_first_level 6 Scenario.link_in_repo 0 pr
              (Example.fresh_world 87) eq_refl eq_refl eq_refl) as [_ H].
  eexists. split; [vm_compute; reflexivity|].
  destruct (H ["repo"; "source"; "symlink1.link"] true _ eq_refl eq_refl
              ltac:(vm_compute; reflexivity)) as (Hs & Ht & _).
  split; [exact Hs|]. apply Ht. reflexivity.
Defined.
